(** * MatFree: a shallow embedding of the lexer, the matrix runtime and the
      tree-walking interpreter, with the properties checked against them.

    Source files embedded here:
    - [engine/src/core/token.h], [engine/src/core/lexer.cpp], [src/core/lexer.h]
    - [src/core/value.h], [src/core/value.cpp]
    - [src/core/ast.h], [src/core/environment.h]
    - [src/core/interpreter.h], [src/core/interpreter.cpp]

    Conventions.
    - [size_t] is modelled as [Z]; where the source subtracts on [size_t] the
      wrap-around modulo 2^64 is written out ([wrap64]).
    - [double] is the kernel's binary64 type [float] (IEEE 754, round to
      nearest even); [==], [<], [<=] are [PrimFloat.eqb], [ltb], [leb].
    - A C++ exception is a value of [Exn]; undefined behaviour (reading a
      [std::vector] out of range, converting an out-of-range double to
      [size_t]) is the outcome [Undefined]; recursion that the model bounds
      by fuel ends in [OutOfFuel] when the fuel is spent. *)

From Stdlib Require Import ZArith String Ascii List Floats Lia Bool.
From stdpp Require Import gmap strings list pretty.

Local Open Scope Z_scope.

Set Warnings "-inexact-float,-register-all".


(** ** Machine integers *)

Definition SIZE_MAX_plus_1 : Z := 2 ^ 64.

Definition wrap64 (z : Z) : Z := z mod SIZE_MAX_plus_1.

(** ** Tokens ([token.h]) *)

Inductive TokenType :=
| NUMBER | STRING | IDENTIFIER
| IF | ELSEIF | ELSE | END | FOR | WHILE | SWITCH | CASE | OTHERWISE
| TRY | CATCH | FUNCTION | RETURN | BREAK | CONTINUE | GLOBAL | PERSISTENT
| CLASSDEF | PROPERTIES | METHODS | EVENTS | ENUMERATION | TRUE_KW | FALSE_KW
| PLUS | MINUS | STAR | SLASH | BACKSLASH | CARET
| DOT_STAR | DOT_SLASH | DOT_BACKSLASH | DOT_CARET
| TRANSPOSE | DOT_TRANSPOSE
| EQ | NE | LT | GT | LE | GE
| AND | OR | SHORT_AND | SHORT_OR | NOT
| ASSIGN
| LPAREN | RPAREN | LBRACKET | RBRACKET | LBRACE | RBRACE
| COMMA | SEMICOLON | COLON | DOT | AT
| NEWLINE | ELLIPSIS
| EOF_TOKEN.

#[global] Instance TokenType_eq_dec : EqDecision TokenType.
Proof. solve_decision. Defined.

Record Token := mkToken {
  type : TokenType;
  lexeme : string;
  numValue : float;
  imagValue : float;
  isComplex : bool;
  line : Z;
  col : Z
}.

(** [Token()] *)
Definition Token_default : Token :=
  mkToken EOF_TOKEN "" 0%float 0%float false 1 1.

(** [Token(t, lex, ln, cl)] *)
Definition Token_make (t : TokenType) (lex : string) (ln cl : Z) : Token :=
  mkToken t lex 0%float 0%float false ln cl.

(** ** Lexer ([lexer.cpp]) *)

(** What a lexer call can end in: a token and the lexer's new state, a
    [LexerError], another [std::exception] (thrown by [std::stod]), or the
    model's fuel spent. *)
Inductive LexResult (A : Type) :=
| LexOk (a : A)
| LexerError (msg : string) (ln cl : Z)
| LexStdException (what : string)
| LexOutOfFuel.
Arguments LexOk {A} a.
Arguments LexerError {A} msg ln cl.
Arguments LexStdException {A} what.
Arguments LexOutOfFuel {A}.

Record Lexer := mkLexer {
  source_ : list ascii;
  pos_ : Z;
  line_ : Z;
  col_ : Z;
  lastToken_ : Token;
  hasPeeked_ : bool;
  peekedToken_ : Token
}.

(** The constructor: [lastToken_.type = NEWLINE], as at the start of a line. *)
Definition Lexer_new (source : string) : Lexer :=
  mkLexer (list_ascii_of_string source) 0 1 1
    (mkToken NEWLINE "" 0%float 0%float false 1 1) false Token_default.

Definition size (lx : Lexer) : Z := Z.of_nat (length (source_ lx)).

Definition char_at (lx : Lexer) (idx : Z) : ascii :=
  if size lx <=? idx then Ascii.zero
  else nth (Z.to_nat idx) (source_ lx) Ascii.zero.

Definition current (lx : Lexer) : ascii := char_at lx (pos_ lx).

Definition peek (lx : Lexer) (offset : Z) : ascii := char_at lx (pos_ lx + offset).

Definition newline : ascii := "010"%char.
Definition tab : ascii := "009"%char.
Definition carriage_return : ascii := "013"%char.
Definition quote : ascii := "'"%char.
Definition dquote : ascii := "034"%char.

Definition advance (lx : Lexer) : ascii * Lexer :=
  let c := current lx in
  (c, if Ascii.eqb c newline
      then mkLexer (source_ lx) (pos_ lx + 1) (line_ lx + 1) 1
                   (lastToken_ lx) (hasPeeked_ lx) (peekedToken_ lx)
      else mkLexer (source_ lx) (pos_ lx + 1) (line_ lx) (col_ lx + 1)
                   (lastToken_ lx) (hasPeeked_ lx) (peekedToken_ lx)).

Definition advance_ (lx : Lexer) : Lexer := snd (advance lx).

Definition isAtEnd (lx : Lexer) : bool := size lx <=? pos_ lx.

(** Characters still to be read; every loop of the lexer advances on each
    turn, so this bounds its number of turns. *)
Definition remaining (lx : Lexer) : nat := Z.to_nat (size lx - pos_ lx).

(** [<cctype>] in the "C" locale. *)
Definition isdigit (c : ascii) : bool :=
  let n := nat_of_ascii c in (48 <=? n)%nat && (n <=? 57)%nat.
Definition isalpha (c : ascii) : bool :=
  let n := nat_of_ascii c in
  ((65 <=? n)%nat && (n <=? 90)%nat) || ((97 <=? n)%nat && (n <=? 122)%nat).
Definition isalnum (c : ascii) : bool := isalpha c || isdigit c.

Definition set_lastToken (lx : Lexer) (tok : Token) : Lexer :=
  mkLexer (source_ lx) (pos_ lx) (line_ lx) (col_ lx) tok
          (hasPeeked_ lx) (peekedToken_ lx).

Definition strlen (s : string) : Z := Z.of_nat (String.length s).

Definition push_back (s : string) (c : ascii) : string :=
  String.append s (String c EmptyString).

Fixpoint skipToEol (fuel : nat) (lx : Lexer) : Lexer :=
  match fuel with
  | O => lx
  | S fuel' =>
      if negb (isAtEnd lx) && negb (Ascii.eqb (current lx) newline)
      then skipToEol fuel' (advance_ lx)
      else lx
  end.

Fixpoint skipWhitespace_loop (fuel : nat) (lx : Lexer) : Lexer :=
  match fuel with
  | O => lx
  | S fuel' =>
      if isAtEnd lx then lx
      else
        let c := current lx in
        if Ascii.eqb c " " || Ascii.eqb c tab || Ascii.eqb c carriage_return
        then skipWhitespace_loop fuel' (advance_ lx)
        else if Ascii.eqb c "." && Ascii.eqb (peek lx 1) "."
                && Ascii.eqb (peek lx 2) "."
        then
          let lx1 := advance_ (advance_ (advance_ lx)) in
          let lx2 := skipToEol (remaining lx1) lx1 in
          let lx3 := if negb (isAtEnd lx2) then advance_ lx2 else lx2 in
          skipWhitespace_loop fuel' lx3
        else lx
  end.

Definition skipWhitespace (lx : Lexer) : Lexer :=
  skipWhitespace_loop (remaining lx) lx.

Definition skipLineComment (lx : Lexer) : Lexer := skipToEol (remaining lx) lx.

Fixpoint skipBlockComment_loop (fuel : nat) (depth : Z) (lx : Lexer) : Lexer :=
  match fuel with
  | O => lx
  | S fuel' =>
      if negb (isAtEnd lx) && (0 <? depth)
      then
        if Ascii.eqb (current lx) "%" && Ascii.eqb (peek lx 1) "{"
        then skipBlockComment_loop fuel' (depth + 1) (advance_ (advance_ lx))
        else if Ascii.eqb (current lx) "%" && Ascii.eqb (peek lx 1) "}"
        then skipBlockComment_loop fuel' (depth - 1) (advance_ (advance_ lx))
        else skipBlockComment_loop fuel' depth (advance_ lx)
      else lx
  end.

Definition skipBlockComment (lx : Lexer) : Lexer :=
  skipBlockComment_loop (remaining lx) 1 lx.

Definition makeToken (lx : Lexer) (t : TokenType) (lex : string)
  : Token * Lexer :=
  let tok := Token_make t lex (line_ lx) (col_ lx - strlen lex) in
  (tok, set_lastToken lx tok).

Definition isTransposeContext (lx : Lexer) : bool :=
  match type (lastToken_ lx) with
  | IDENTIFIER | NUMBER | RPAREN | RBRACKET | RBRACE
  | TRANSPOSE | DOT_TRANSPOSE | END | TRUE_KW | FALSE_KW => true
  | _ => false
  end.

Definition keywords_ (ident : string) : option TokenType :=
  if String.eqb ident "if" then Some IF
  else if String.eqb ident "elseif" then Some ELSEIF
  else if String.eqb ident "else" then Some ELSE
  else if String.eqb ident "end" then Some END
  else if String.eqb ident "for" then Some FOR
  else if String.eqb ident "while" then Some WHILE
  else if String.eqb ident "switch" then Some SWITCH
  else if String.eqb ident "case" then Some CASE
  else if String.eqb ident "otherwise" then Some OTHERWISE
  else if String.eqb ident "try" then Some TRY
  else if String.eqb ident "catch" then Some CATCH
  else if String.eqb ident "function" then Some FUNCTION
  else if String.eqb ident "return" then Some RETURN
  else if String.eqb ident "break" then Some BREAK
  else if String.eqb ident "continue" then Some CONTINUE
  else if String.eqb ident "global" then Some GLOBAL
  else if String.eqb ident "persistent" then Some PERSISTENT
  else if String.eqb ident "classdef" then Some CLASSDEF
  else if String.eqb ident "properties" then Some PROPERTIES
  else if String.eqb ident "methods" then Some METHODS
  else if String.eqb ident "events" then Some EVENTS
  else if String.eqb ident "enumeration" then Some ENUMERATION
  else if String.eqb ident "true" then Some TRUE_KW
  else if String.eqb ident "false" then Some FALSE_KW
  else None.

(** The loops above stop on [isAtEnd] at the latest, and each turn advances
    [pos_] by at least one: [remaining] turns are always enough, and the
    fuel's end is never what stops them. The loops below, whose claims are
    about how they end, report spent fuel as [LexOutOfFuel]. *)

Fixpoint scanDigits (fuel : nat) (num : string) (lx : Lexer) : string * Lexer :=
  match fuel with
  | O => (num, lx)
  | S fuel' =>
      if negb (isAtEnd lx) && isdigit (current lx)
      then scanDigits fuel' (push_back num (current lx)) (advance_ lx)
      else (num, lx)
  end.

Fixpoint scanIdentChars (fuel : nat) (ident : string) (lx : Lexer)
  : string * Lexer :=
  match fuel with
  | O => (ident, lx)
  | S fuel' =>
      if negb (isAtEnd lx) && (isalnum (current lx) || Ascii.eqb (current lx) "_")
      then scanIdentChars fuel' (push_back ident (current lx)) (advance_ lx)
      else (ident, lx)
  end.

(** [num.substr(0, num.size() - 1)] *)
Definition drop_last (s : string) : string :=
  String.substring 0 (String.length s - 1) s.

Section LexerCore.

(** [std::stod] is the C++ standard library's; [None] stands for the
    exception it throws ([std::invalid_argument], [std::out_of_range]). *)
Variable stod : string -> option float.

(** The parts of [scanNumber] after the integer digits. *)
Definition scanDecimalPart (num : string) (lx : Lexer) : string * Lexer :=
  if negb (isAtEnd lx) && Ascii.eqb (current lx) "."
     && negb (Ascii.eqb (peek lx 1) ".") && negb (Ascii.eqb (peek lx 1) "*")
     && negb (Ascii.eqb (peek lx 1) "/") && negb (Ascii.eqb (peek lx 1) "\")
     && negb (Ascii.eqb (peek lx 1) "^") && negb (Ascii.eqb (peek lx 1) quote)
  then
    let num := push_back num (current lx) in (* consume '.' *)
    let lx := advance_ lx in
    scanDigits (remaining lx) num lx
  else (num, lx).

Definition scanExponentSign (num : string) (lx : Lexer) : string * Lexer :=
  if negb (isAtEnd lx)
     && (Ascii.eqb (current lx) "+" || Ascii.eqb (current lx) "-")
  then (push_back num (current lx), advance_ lx)
  else (num, lx).

Definition scanExponentPart (num : string) (lx : Lexer) : string * Lexer :=
  if negb (isAtEnd lx)
     && (Ascii.eqb (current lx) "e" || Ascii.eqb (current lx) "E")
  then
    let '(num, lx) := scanExponentSign (push_back num (current lx)) (advance_ lx) in
    scanDigits (remaining lx) num lx
  else (num, lx).

Definition scanComplexSuffix (num : string) (lx : Lexer)
  : string * Lexer * bool :=
  if negb (isAtEnd lx)
     && (Ascii.eqb (current lx) "i" || Ascii.eqb (current lx) "j")
     && negb (isalnum (peek lx 1)) && negb (Ascii.eqb (peek lx 1) "_")
  then (push_back num (current lx), advance_ lx, true)
  else (num, lx, false).

Definition scanNumber (lx : Lexer) : LexResult (Token * Lexer) :=
  let startCol := col_ lx in
  let '(num, lx) := scanDigits (remaining lx) EmptyString lx in
  let '(num, lx) := scanDecimalPart num lx in
  let '(num, lx) := scanExponentPart num lx in
  let '(num, lx, complex) := scanComplexSuffix num lx in
  if complex then
    match stod (drop_last num) with
    | Some v =>
        let tok := mkToken NUMBER num 0%float v true (line_ lx) startCol in
        LexOk (tok, set_lastToken lx tok)
    | None => LexStdException "stod"
    end
  else
    match stod num with
    | Some v =>
        let tok := mkToken NUMBER num v 0%float false (line_ lx) startCol in
        LexOk (tok, set_lastToken lx tok)
    | None => LexStdException "stod"
    end.

Fixpoint scanString_loop (fuel : nat) (delimiter : ascii) (str : string)
  (lx : Lexer) : LexResult (string * Lexer) :=
  match fuel with
  | O => LexOutOfFuel
  | S fuel' =>
      if isAtEnd lx then LexOk (str, lx)
      else
        let c := current lx in
        if Ascii.eqb c delimiter then
          if Ascii.eqb (peek lx 1) delimiter
          then (* escaped delimiter *)
            scanString_loop fuel' delimiter (push_back str delimiter)
                            (advance_ (advance_ lx))
          else (* closing delimiter *)
            LexOk (str, advance_ lx)
        else if Ascii.eqb c newline then
          LexerError "Unterminated string literal" (line_ lx) (col_ lx)
        else
          scanString_loop fuel' delimiter (push_back str c) (advance_ lx)
  end.

Definition scanString (delimiter : ascii) (lx : Lexer)
  : LexResult (Token * Lexer) :=
  let lx := advance_ lx in (* skip opening delimiter *)
  match scanString_loop (S (remaining lx)) delimiter EmptyString lx with
  | LexOk (str, lx) =>
      let tok := Token_make STRING str (line_ lx) (col_ lx - strlen str - 2) in
      LexOk (tok, set_lastToken lx tok)
  | LexerError msg ln cl => LexerError msg ln cl
  | LexStdException w => LexStdException w
  | LexOutOfFuel => LexOutOfFuel
  end.

Definition scanIdentifierOrKeyword (lx : Lexer) : Token * Lexer :=
  let startCol := col_ lx in
  let '(ident, lx) := scanIdentChars (remaining lx) EmptyString lx in
  let t := match keywords_ ident with Some t => t | None => IDENTIFIER end in
  let tok := Token_make t ident (line_ lx) startCol in
  (tok, set_lastToken lx tok).

Definition string_of_Z (z : Z) : string := pretty z.

(** The operator and punctuation [switch] of [nextToken], entered after the
    character [c] has been consumed. *)
Definition scanOperator (c : ascii) (startLine startCol : Z) (lx : Lexer)
  : LexResult (Token * Lexer) :=
  let two (second : ascii) (t2 : TokenType) (lex2 : string)
          (otherwise : LexResult (Token * Lexer)) :=
    if Ascii.eqb (current lx) second
    then LexOk (makeToken (advance_ lx) t2 lex2) else otherwise in
  if Ascii.eqb c "+" then LexOk (makeToken lx PLUS "+")
  else if Ascii.eqb c "-" then LexOk (makeToken lx MINUS "-")
  else if Ascii.eqb c "*" then LexOk (makeToken lx STAR "*")
  else if Ascii.eqb c "/" then LexOk (makeToken lx SLASH "/")
  else if Ascii.eqb c "\" then LexOk (makeToken lx BACKSLASH "\")
  else if Ascii.eqb c "^" then LexOk (makeToken lx CARET "^")
  else if Ascii.eqb c "." then
    two "*"%char DOT_STAR ".*"%string
      (two "/"%char DOT_SLASH "./"%string
        (two "\"%char DOT_BACKSLASH ".\"%string
          (two "^"%char DOT_CARET ".^"%string
            (two quote DOT_TRANSPOSE ".'"%string
              (LexOk (makeToken lx DOT "."))))))
  else if Ascii.eqb c "=" then two "="%char EQ "=="%string (LexOk (makeToken lx ASSIGN "="))
  else if Ascii.eqb c "<" then two "="%char LE "<="%string (LexOk (makeToken lx LT "<"))
  else if Ascii.eqb c ">" then two "="%char GE ">="%string (LexOk (makeToken lx GT ">"))
  else if Ascii.eqb c "~" then two "="%char NE "~="%string (LexOk (makeToken lx NOT "~"))
  else if Ascii.eqb c "&" then two "&"%char SHORT_AND "&&"%string (LexOk (makeToken lx AND "&"))
  else if Ascii.eqb c "|" then two "|"%char SHORT_OR "||"%string (LexOk (makeToken lx OR "|"))
  else if Ascii.eqb c "(" then LexOk (makeToken lx LPAREN "(")
  else if Ascii.eqb c ")" then LexOk (makeToken lx RPAREN ")")
  else if Ascii.eqb c "[" then LexOk (makeToken lx LBRACKET "[")
  else if Ascii.eqb c "]" then LexOk (makeToken lx RBRACKET "]")
  else if Ascii.eqb c "{" then LexOk (makeToken lx LBRACE "{")
  else if Ascii.eqb c "}" then LexOk (makeToken lx RBRACE "}")
  else if Ascii.eqb c "," then LexOk (makeToken lx COMMA ",")
  else if Ascii.eqb c ";" then LexOk (makeToken lx SEMICOLON ";")
  else if Ascii.eqb c ":" then LexOk (makeToken lx COLON ":")
  else if Ascii.eqb c "@" then LexOk (makeToken lx AT "@")
  else
    LexerError
      (String.append "Unexpected character '"
        (String.append (String c EmptyString)
          (String.append "' at line "
            (String.append (string_of_Z startLine)
              (String.append ", column " (string_of_Z startCol))))))
      startLine startCol.

Definition is_type (lx : Lexer) (t : TokenType) : bool :=
  bool_decide (type (lastToken_ lx) = t).

(** [nextToken]; the fuel bounds the calls to itself after a skipped newline
    or comment. *)
Fixpoint nextToken (fuel : nat) (lx : Lexer) : LexResult (Token * Lexer) :=
  match fuel with
  | O => LexOutOfFuel
  | S fuel' =>
      if hasPeeked_ lx then
        let tok := peekedToken_ lx in
        LexOk (tok, mkLexer (source_ lx) (pos_ lx) (line_ lx) (col_ lx)
                            tok false tok)
      else
        let lx := skipWhitespace lx in
        if isAtEnd lx then LexOk (makeToken lx EOF_TOKEN "")
        else
          let startLine := line_ lx in
          let startCol := col_ lx in
          let c := current lx in
          if Ascii.eqb c newline then
            let lx := advance_ lx in
            if negb (is_type lx NEWLINE) && negb (is_type lx SEMICOLON)
               && negb (is_type lx COMMA)
            then LexOk (makeToken lx NEWLINE "\n")
            else nextToken fuel' lx
          else if Ascii.eqb c "%" then
            if Ascii.eqb (peek lx 1) "{" then
              nextToken fuel' (skipBlockComment (advance_ (advance_ lx)))
            else
              let lx := skipLineComment lx in
              if negb (is_type lx NEWLINE) && negb (is_type lx SEMICOLON)
              then LexOk (makeToken lx NEWLINE "\n")
              else nextToken fuel' lx
          else if isdigit c || (Ascii.eqb c "." && isdigit (peek lx 1)) then
            scanNumber lx
          else if Ascii.eqb c dquote then scanString dquote lx
          else if Ascii.eqb c quote then
            if isTransposeContext lx
            then LexOk (makeToken (advance_ lx) TRANSPOSE "'")
            else scanString quote lx
          else if isalpha c || Ascii.eqb c "_" then
            LexOk (scanIdentifierOrKeyword lx)
          else scanOperator c startLine startCol (advance_ lx)
  end.

Definition peekToken (fuel : nat) (lx : Lexer) : LexResult (Token * Lexer) :=
  if hasPeeked_ lx then LexOk (peekedToken_ lx, lx)
  else
    match nextToken fuel lx with
    | LexOk (tok, lx') =>
        LexOk (tok, mkLexer (source_ lx') (pos_ lx') (line_ lx') (col_ lx')
                            (lastToken_ lx') true tok)
    | r => r
    end.

(** [tokenize]: tokens are pushed until the EOF token. *)
Fixpoint tokenize_loop (fuel : nat) (tokens : list Token) (lx : Lexer)
  : LexResult (list Token) :=
  match fuel with
  | O => LexOutOfFuel
  | S fuel' =>
      match nextToken (S (S (remaining lx))) lx with
      | LexOk (tok, lx') =>
          let tokens := tokens ++ [tok] in
          if bool_decide (type tok = EOF_TOKEN) then LexOk tokens
          else tokenize_loop fuel' tokens lx'
      | LexerError msg ln cl => LexerError msg ln cl
      | LexStdException w => LexStdException w
      | LexOutOfFuel => LexOutOfFuel
      end
  end.

Definition tokenize (lx : Lexer) : LexResult (list Token) :=
  tokenize_loop (S (S (remaining lx))) [] lx.

End LexerCore.

(** ** Exceptions and outcomes *)

(** What the interpreter throws: [RuntimeError] ([value.h]), any other
    [std::exception], and the three control-flow signals of
    [interpreter.h], which are plain structs and not [std::exception]s.
    ([ReturnSignal]'s [values] member is never filled nor read.) *)
Inductive Exn :=
| RuntimeError (what : string)
| StdException (what : string)
| BreakSignal
| ContinueSignal
| ReturnSignal.

#[global] Instance Exn_eq_dec : EqDecision Exn.
Proof. solve_decision. Defined.

Inductive Outcome (A : Type) :=
| Ok (a : A)
| Throw (e : Exn)
| Undefined
| OutOfFuel.
Arguments Ok {A} a.
Arguments Throw {A} e.
Arguments Undefined {A}.
Arguments OutOfFuel {A}.

Definition bind {A B : Type} (m : Outcome A) (k : A -> Outcome B) : Outcome B :=
  match m with
  | Ok a => k a
  | Throw e => Throw e
  | Undefined => Undefined
  | OutOfFuel => OutOfFuel
  end.

Notation "'let*' x ':=' m 'in' k" := (bind m (fun x => k))
  (at level 10, x pattern, m at level 100, k at level 200).

(** [for (size_t i = 0; i < n; i++) body], threading the data the body
    updates. *)
Definition for_ {A : Type} (n : Z) (body : Z -> A -> Outcome A) (init : A)
  : Outcome A :=
  fold_left (fun acc i => let* a := acc in body (Z.of_nat i) a)
            (seq 0 (Z.to_nat n)) (Ok init).

(** ** Matrix ([value.h], [value.cpp]) *)

Record Matrix := mkMatrix {
  rows_ : Z;
  cols_ : Z;
  data_ : list float
}.

(** [Matrix()] *)
Definition Matrix_empty : Matrix := mkMatrix 0 0 [].

(** [Matrix(rows, cols, fillValue)]: [rows * cols] is a [size_t] product. *)
Definition Matrix_fill (rows cols : Z) (fillValue : float) : Matrix :=
  mkMatrix rows cols (repeat fillValue (Z.to_nat (wrap64 (rows * cols)))).

(** [Matrix(rows, cols)] *)
Definition Matrix_new (rows cols : Z) : Matrix := Matrix_fill rows cols 0%float.

Definition numel (m : Matrix) : Z := Z.of_nat (length (data_ m)).
Definition Matrix_isEmpty (m : Matrix) : bool := bool_decide (data_ m = []).
Definition Matrix_isScalar (m : Matrix) : bool := (rows_ m =? 1) && (cols_ m =? 1).

(** [data_[idx]]: reading a [std::vector] out of range is undefined. *)
Definition at_ (m : Matrix) (idx : Z) : Outcome float :=
  if (0 <=? idx) && (idx <? numel m)
  then match data_ m !! Z.to_nat idx with
       | Some v => Ok v
       | None => Undefined
       end
  else Undefined.

(** [operator()(row, col)] *)
Definition at2 (m : Matrix) (row col : Z) : Outcome float :=
  at_ m (wrap64 (row * cols_ m + col)).

(** [data_[idx] = v] *)
Definition set_ (m : Matrix) (idx : Z) (v : float) : Outcome Matrix :=
  if (0 <=? idx) && (idx <? numel m)
  then Ok (mkMatrix (rows_ m) (cols_ m) (<[Z.to_nat idx := v]> (data_ m)))
  else Undefined.

(** [operator()(row, col) = v] *)
Definition set2 (m : Matrix) (row col : Z) (v : float) : Outcome Matrix :=
  set_ m (wrap64 (row * cols_ m + col)) v.

Definition Matrix_scalar (val : float) : Matrix :=
  mkMatrix 1 1 (<[0%nat := val]> (data_ (Matrix_new 1 1))).

Definition zeros (rows cols : Z) : Matrix := Matrix_fill rows cols 0%float.
Definition ones (rows cols : Z) : Matrix := Matrix_fill rows cols 1%float.

(** [Matrix::eye(n)] *)
Definition eye (n : Z) : Outcome Matrix :=
  for_ n (fun i m => set2 m i i 1%float) (Matrix_new n n).

Definition scalarValue (m : Matrix) : Outcome float :=
  if negb (Matrix_isScalar m) then Throw (RuntimeError "Not a scalar")
  else at_ m 0.

(** A result matrix [Matrix result(r, c)] filled by
    [for i < r, for j < c: result(i, j) = f i j]. *)
Definition fill2 (r c : Z) (f : Z -> Z -> Outcome float) : Outcome Matrix :=
  for_ r (fun i m =>
    for_ c (fun j m => let* v := f i j in set2 m i j v) m) (Matrix_new r c).

Definition transpose (m : Matrix) : Outcome Matrix :=
  for_ (rows_ m) (fun i res =>
    for_ (cols_ m) (fun j res => let* v := at2 m i j in set2 res j i v) res)
    (Matrix_new (cols_ m) (rows_ m)).

Definition dims_string (m : Matrix) : string :=
  String.append (pretty (rows_ m)) (String.append "x" (pretty (cols_ m))).

Definition broadcastCheck (a b : Matrix) : Outcome (Z * Z) :=
  if (rows_ a =? rows_ b) && (cols_ a =? cols_ b) then Ok (rows_ a, cols_ a)
  else if Matrix_isScalar a then Ok (rows_ b, cols_ b)
  else if Matrix_isScalar b then Ok (rows_ a, cols_ a)
  else if (rows_ a =? rows_ b) && ((cols_ a =? 1) || (cols_ b =? 1))
  then Ok (rows_ a, Z.max (cols_ a) (cols_ b))
  else if (cols_ a =? cols_ b) && ((rows_ a =? 1) || (rows_ b =? 1))
  then Ok (Z.max (rows_ a) (rows_ b), cols_ a)
  else Throw (RuntimeError
         (String.append "Matrix dimensions must agree ("
           (String.append (dims_string a)
             (String.append " vs " (String.append (dims_string b) ")"))))).

Definition getWithBroadcast (m : Matrix) (r c : Z) : Outcome float :=
  let actualR := if rows_ m =? 1 then 0 else r in
  let actualC := if cols_ m =? 1 then 0 else c in
  at2 m actualR actualC.

(** The shared shape of [operator+], [operator-], [elementMul], [elementDiv],
    [elementPow], [eq], [ne], [lt], [gt], [le] and [ge]. *)
Definition elementwise (f : float -> float -> float) (a b : Matrix)
  : Outcome Matrix :=
  let* (r, c) := broadcastCheck a b in
  fill2 r c (fun i j =>
    let* x := getWithBroadcast a i j in
    let* y := getWithBroadcast b i j in
    Ok (f x y)).

Definition bool_to_double (b : bool) : float := if b then 1%float else 0%float.

Definition Matrix_add := elementwise PrimFloat.add.
Definition Matrix_sub := elementwise PrimFloat.sub.
Definition elementMul := elementwise PrimFloat.mul.
Definition elementDiv := elementwise PrimFloat.div.
Definition Matrix_eq := elementwise (fun x y => bool_to_double (PrimFloat.eqb x y)).
Definition Matrix_ne := elementwise (fun x y => bool_to_double (negb (PrimFloat.eqb x y))).
Definition Matrix_lt := elementwise (fun x y => bool_to_double (PrimFloat.ltb x y)).
Definition Matrix_gt := elementwise (fun x y => bool_to_double (PrimFloat.ltb y x)).
Definition Matrix_le := elementwise (fun x y => bool_to_double (PrimFloat.leb x y)).
Definition Matrix_ge := elementwise (fun x y => bool_to_double (PrimFloat.leb y x)).

(** The scalar operators ([operator*(double)] and the like) and unary minus:
    a result of the same shape, written through [data_] index by index up to
    [data_.size()]. *)
Definition map_data (f : float -> float) (m : Matrix) : Outcome Matrix :=
  for_ (numel m) (fun i res => let* v := at_ m i in set_ res i (f v))
       (Matrix_new (rows_ m) (cols_ m)).

Definition Matrix_neg := map_data PrimFloat.opp.
Definition Matrix_add_scalar (m : Matrix) (s : float) := map_data (fun v => v + s)%float m.
Definition Matrix_sub_scalar (m : Matrix) (s : float) := map_data (fun v => v - s)%float m.
Definition Matrix_mul_scalar (m : Matrix) (s : float) := map_data (fun v => v * s)%float m.
Definition Matrix_div_scalar (m : Matrix) (s : float) := map_data (fun v => v / s)%float m.

(** [Matrix::operator*(const Matrix&)] *)
Definition Matrix_mul (a b : Matrix) : Outcome Matrix :=
  if Matrix_isScalar a then let* s := scalarValue a in Matrix_mul_scalar b s
  else if Matrix_isScalar b then let* s := scalarValue b in Matrix_mul_scalar a s
  else if negb (cols_ a =? rows_ b) then
    Throw (RuntimeError
      (String.append "Inner matrix dimensions must agree for multiplication ("
        (String.append (dims_string a)
          (String.append " * " (String.append (dims_string b) ")")))))
  else
    fill2 (rows_ a) (cols_ b) (fun i j =>
      for_ (cols_ a) (fun k sum =>
        let* x := at2 a i k in
        let* y := at2 b k j in
        Ok (sum + x * y)%float) 0%float).

Definition getCol (m : Matrix) (col : Z) : Outcome Matrix :=
  for_ (rows_ m) (fun i res => let* v := at2 m i col in set2 res i 0 v)
       (Matrix_new (rows_ m) 1).

(** [horzcat] and [vertcat]: the dimension check while the total is summed,
    then the copy at a running offset. *)
Definition horzcat (matrices : list Matrix) : Outcome Matrix :=
  match matrices with
  | [] => Ok Matrix_empty
  | m0 :: _ =>
      let rows := rows_ m0 in
      let* totalCols :=
        fold_left (fun acc m =>
          let* total := acc in
          if negb (rows_ m =? rows) && negb (Matrix_isEmpty m)
          then Throw (RuntimeError
                 "Dimensions of arrays being concatenated are not consistent")
          else Ok (wrap64 (total + cols_ m))) matrices (Ok 0) in
      let* (res, _) :=
        fold_left (fun acc m =>
          let* (res, colOffset) := acc in
          let* res := for_ (rows_ m) (fun i res =>
                   for_ (cols_ m) (fun j res =>
                     let* v := at2 m i j in
                     set2 res i (wrap64 (colOffset + j)) v) res) res in
          Ok (res, wrap64 (colOffset + cols_ m)))
          matrices (Ok (Matrix_new rows totalCols, 0)) in
      Ok res
  end.

Definition vertcat (matrices : list Matrix) : Outcome Matrix :=
  match matrices with
  | [] => Ok Matrix_empty
  | m0 :: _ =>
      let cols := cols_ m0 in
      let* totalRows :=
        fold_left (fun acc m =>
          let* total := acc in
          if negb (cols_ m =? cols) && negb (Matrix_isEmpty m)
          then Throw (RuntimeError
                 "Dimensions of arrays being concatenated are not consistent")
          else Ok (wrap64 (total + rows_ m))) matrices (Ok 0) in
      let* (res, _) :=
        fold_left (fun acc m =>
          let* (res, rowOffset) := acc in
          let* res := for_ (rows_ m) (fun i res =>
                   for_ (cols_ m) (fun j res =>
                     let* v := at2 m i j in
                     set2 res (wrap64 (rowOffset + i)) j v) res) res in
          Ok (res, wrap64 (rowOffset + rows_ m)))
          matrices (Ok (Matrix_new totalRows cols, 0)) in
      Ok res
  end.

Section MatrixPow.

(** [std::pow] is libm's. *)
Variable pow : float -> float -> float.

Definition elementPow := elementwise pow.
Definition power (m : Matrix) (s : float) := map_data (fun v => pow v s) m.

End MatrixPow.
(** ** Syntax trees ([ast.h]) *)

(** A null [ExprPtr] (an absent range bound, the [else] branch's condition,
    the [otherwise] case's value) is [None]. Source positions are left out:
    the interpreter never reads them. *)
Inductive Expr :=
| NumberLiteral (value imagValue : float) (isComplex : bool)
| StringLiteral (value : string)
| BoolLiteral (value : bool)
| Identifier (name : string)
| UnaryExpr (op : TokenType) (operand : Expr) (postfix : bool)
| BinaryExpr (op : TokenType) (left right : Expr)
| MatrixLiteral (rows : list (list Expr))
| CellArrayLiteral (rows : list (list Expr))
| CallExpr (callee : Expr) (arguments : list Expr)
| CellIndexExpr (object : Expr) (indices : list Expr)
| DotExpr (object : Expr) (field : string)
| ColonExpr (start step stop : option Expr)
| EndExpr
| AnonFuncExpr (params : list string) (body : Expr)
| FuncHandleExpr (name : string)
| CommandExpr (command : string) (args : list string).

Inductive Stmt :=
| ExprStmt (expression : Expr) (printResult : bool)
| AssignStmt (target value : Expr) (printResult : bool)
| MultiAssignStmt (targets : list string) (value : Expr) (printResult : bool)
| IfStmt (branches : list (option Expr * list Stmt))
| ForStmt (variable : string) (range : Expr) (body : list Stmt)
| WhileStmt (condition : Expr) (body : list Stmt)
| SwitchStmt (expression : Expr) (cases : list (option Expr * list Stmt))
| TryCatchStmt (tryBody : list Stmt) (catchVar : string) (catchBody : list Stmt)
| ReturnStmt
| BreakStmt
| ContinueStmt
| GlobalStmt (variables : list string)
| PersistentStmt (variables : list string)
| FunctionDefStmt (name : string) (params returns : list string)
                  (body : list Stmt)
| ClassDefStmt (name : string) (superclasses : list string).

Record FunctionDef := mkFunctionDef {
  fd_name : string;
  fd_params : list string;
  fd_returns : list string;
  fd_body : list Stmt
}.

Record Program := mkProgram {
  statements : list Stmt;
  functions : list FunctionDef
}.

(** ** Runtime values ([value.h]) *)

(** A handle's [impl]: a builtin is kept by the name it is registered
    under (the registry does not change while a program runs), a user
    function by its definition. *)
Inductive FuncImpl :=
| ImplBuiltin (name : string)
| ImplUser (def : FunctionDef).

(** [Value]: the tag [type_] with the member it selects. The C++ class keeps
    every member at once, the unselected ones default-constructed; the
    accessors below return those defaults. A null [ValuePtr] in a cell is
    [None]. ([COMPLEX_MATRIX] is never constructed.) *)
Inductive Value :=
| VMatrix (m : Matrix)
| VLogical (m : Matrix)
| VString (s : string)
| VCellArray (rows cols : Z) (data : list (option Value))
| VStruct (fields : list (string * Value))
| VFuncHandle (name : string) (impl : FuncImpl)
| VEmpty.

Definition isMatrix (v : Value) : bool := match v with VMatrix _ => true | _ => false end.
Definition isString (v : Value) : bool := match v with VString _ => true | _ => false end.
Definition isLogical (v : Value) : bool := match v with VLogical _ => true | _ => false end.
Definition isCellArray (v : Value) : bool := match v with VCellArray _ _ _ => true | _ => false end.
Definition isStruct (v : Value) : bool := match v with VStruct _ => true | _ => false end.
Definition isFuncHandle (v : Value) : bool := match v with VFuncHandle _ _ => true | _ => false end.
Definition isEmpty (v : Value) : bool := match v with VEmpty => true | _ => false end.

(** The member [matrix_]. *)
Definition matrix_ (v : Value) : Matrix :=
  match v with
  | VMatrix m | VLogical m => m
  | _ => Matrix_empty
  end.

(** The member [string_]. *)
Definition string_ (v : Value) : string :=
  match v with VString s => s | _ => EmptyString end.

Definition isScalar (v : Value) : bool :=
  (isMatrix v || isLogical v) && Matrix_isScalar (matrix_ v).

Definition isNumeric (v : Value) : bool := isMatrix v || isLogical v.

(** [Value::matrix()] *)
Definition matrix (v : Value) : Outcome Matrix :=
  if negb (isMatrix v) && negb (isLogical v)
  then Throw (RuntimeError "Value is not a matrix")
  else Ok (matrix_ v).

(** [static_cast<double>] of a non-negative integer below 2^63. *)
Definition Z_to_double (z : Z) : float :=
  if z <? 0 then (- PrimFloat.of_uint63 (Uint63.of_Z (- z)))%float
  else PrimFloat.of_uint63 (Uint63.of_Z z).

(** [static_cast<double>(char)], [char] being signed. *)
Definition char_to_double (c : ascii) : float :=
  let n := Z.of_nat (nat_of_ascii c) in
  Z_to_double (if n <? 128 then n else n - 256).

(** [static_cast<size_t>(double)]: the value truncated toward zero; undefined
    when that is not a [size_t] (negative, 2^64 or more, infinite, NaN). *)
Definition to_size_t (d : float) : Outcome Z :=
  match Prim2SF d with
  | S754_zero _ => Ok 0
  | S754_finite s m e =>
      let mag := if 0 <=? e then Z.shiftl (Z.pos m) e
                 else Z.shiftr (Z.pos m) (- e) in
      if s then (if mag =? 0 then Ok 0 else Undefined)
      else if mag <? SIZE_MAX_plus_1 then Ok mag else Undefined
  | _ => Undefined
  end.

(** [Value::scalarDouble()] *)
Definition scalarDouble (v : Value) : Outcome float :=
  if isString v then
    match string_ v with
    | String c EmptyString => Ok (char_to_double c)
    | _ => Throw (RuntimeError "Cannot convert string to scalar")
    end
  else scalarValue (matrix_ v).

(** [Value::string()] *)
Definition string_of (v : Value) : Outcome string :=
  if negb (isString v) then Throw (RuntimeError "Value is not a string")
  else Ok (string_ v).

Definition makeScalar (d : float) : Value := VMatrix (Matrix_scalar d).
Definition makeMatrix (m : Matrix) : Value := VMatrix m.
Definition makeString (s : string) : Value := VString s.
Definition makeBool (b : bool) : Value :=
  VLogical (Matrix_scalar (if b then 1%float else 0%float)).
Definition makeEmpty : Value := VEmpty.

(** [Value::toBool()] *)
Definition toBool (v : Value) : Outcome bool :=
  match v with
  | VMatrix m | VLogical m =>
      (* all elements must be nonzero *)
      let* all_nonzero :=
        for_ (numel m) (fun i (acc : bool) =>
          if acc then
            let* x := at_ m i in
            Ok (negb (PrimFloat.eqb x 0%float))
          else Ok false) true in
      if all_nonzero then Ok (0 <? numel m) else Ok false
  | VString s => Ok (negb (String.eqb s EmptyString))
  | _ => Throw (RuntimeError "Cannot convert value to logical")
  end.

(** [Value::toMatrix()] *)
Definition toMatrix (v : Value) : Outcome Matrix :=
  match v with
  | VMatrix m | VLogical m => Ok m
  | VString s =>
      let chars := list_ascii_of_string s in
      for_ (strlen s) (fun i m =>
        set2 m 0 i (char_to_double (nth (Z.to_nat i) chars Ascii.zero)))
        (Matrix_new 1 (strlen s))
  | _ => Throw (RuntimeError "Cannot convert to numeric matrix")
  end.

(** [std::map<std::string, ValuePtr>]: [fields[k] = v] and [find]. *)
Fixpoint fields_set (fields : list (string * Value)) (k : string) (v : Value)
  : list (string * Value) :=
  match fields with
  | [] => [(k, v)]
  | (k', v') :: rest =>
      if String.eqb k k' then (k, v) :: rest
      else (k', v') :: fields_set rest k v
  end.

Fixpoint fields_find (fields : list (string * Value)) (k : string)
  : option Value :=
  match fields with
  | [] => None
  | (k', v') :: rest => if String.eqb k k' then Some v' else fields_find rest k
  end.

(** ** Environments ([environment.h]) *)

(** Environments are shared objects ([std::shared_ptr<Environment>]): they live
    in a store, [parent_] and the interpreter's [globalEnv_] and
    [currentEnv_] are addresses into it. *)
Record Environment := mkEnvironment {
  parent_ : option nat;
  variables_ : gmap string Value;
  globals_ : gset string
}.

Abbreviation Store := (list Environment).

(** [getGlobalEnv]: follow [parent_] to the environment that has none. *)
Fixpoint getGlobalEnv_loop (fuel : nat) (h : Store) (env : nat) : Outcome nat :=
  match h !! env with
  | None => Undefined
  | Some e =>
      match parent_ e with
      | None => Ok env
      | Some p =>
          match fuel with
          | O => OutOfFuel
          | S fuel' => getGlobalEnv_loop fuel' h p
          end
      end
  end.

Definition getGlobalEnv (h : Store) (env : nat) : Outcome nat :=
  getGlobalEnv_loop (length h) h env.

(** [Environment::get]; [None] is the null pointer it returns for "not found".
    The call [getGlobalEnv()->get(name)] lands on an environment without
    parent, where [get] is the lookup in [variables_] and nothing else. *)
Definition Env_get (h : Store) (env : nat) (name : string)
  : Outcome (option Value) :=
  match h !! env with
  | None => Undefined
  | Some e =>
      match variables_ e !! name with
      | Some v => Ok (Some v)
      | None =>
          if bool_decide (name ∈ globals_ e) && bool_decide (is_Some (parent_ e))
          then
            let* g := getGlobalEnv h env in
            match h !! g with
            | None => Undefined
            | Some ge => Ok (variables_ ge !! name)
            end
          else Ok None
      end
  end.

(** [variables_[name] = value] in the environment at [env]. *)
Definition Env_bind (h : Store) (env : nat) (name : string) (value : Value)
  : Outcome Store :=
  match h !! env with
  | None => Undefined
  | Some e =>
      Ok (<[env := mkEnvironment (parent_ e) (<[name := value]> (variables_ e))
                                 (globals_ e)]> h)
  end.

(** [Environment::set] *)
Definition Env_set (h : Store) (env : nat) (name : string) (value : Value)
  : Outcome Store :=
  match h !! env with
  | None => Undefined
  | Some e =>
      if bool_decide (name ∈ globals_ e) && bool_decide (is_Some (parent_ e))
      then let* g := getGlobalEnv h env in Env_bind h g name value
      else Env_bind h env name value
  end.

(** [Environment::has] *)
Definition Env_has (h : Store) (env : nat) (name : string) : Outcome bool :=
  match h !! env with
  | None => Undefined
  | Some e =>
      if bool_decide (is_Some (variables_ e !! name)) then Ok true
      else if bool_decide (name ∈ globals_ e) && bool_decide (is_Some (parent_ e))
      then
        let* g := getGlobalEnv h env in
        match h !! g with
        | None => Undefined
        | Some ge => Ok (bool_decide (is_Some (variables_ ge !! name)))
        end
      else Ok false
  end.

(** [Environment::declareGlobal] *)
Definition Env_declareGlobal (h : Store) (env : nat) (name : string)
  : Outcome Store :=
  match h !! env with
  | None => Undefined
  | Some e =>
      Ok (<[env := mkEnvironment (parent_ e) (variables_ e)
                                 ({[name]} ∪ globals_ e)]> h)
  end.

(** [Environment::createChild]: a fresh environment whose parent is [env]. *)
Definition Env_createChild (h : Store) (env : nat) : Store * nat :=
  (h ++ [mkEnvironment (Some env) ∅ ∅], length h).
(** ** The interpreter's state ([interpreter.h]) *)

(** What [Value::display] writes is kept as the event, not as text. *)
Inductive OutputEvent :=
| Display (name : string) (v : Value).

Record Interpreter := mkInterpreter {
  store : Store;
  globalEnv_ : nat;
  currentEnv_ : nat;
  output_ : list OutputEvent;
  searchPath_ : list string;
  userFunctions_ : gmap string FunctionDef
}.

(** A computation of the interpreter: an outcome and the state it leaves,
    also when it throws. *)
Definition M (A : Type) : Type := Interpreter -> Outcome A * Interpreter.

Definition ret {A : Type} (a : A) : M A := fun st => (Ok a, st).
Definition throw {A : Type} (e : Exn) : M A := fun st => (Throw e, st).
Definition lift {A : Type} (o : Outcome A) : M A := fun st => (o, st).

Definition bindM {A B : Type} (m : M A) (k : A -> M B) : M B :=
  fun st =>
    match m st with
    | (Ok a, st') => k a st'
    | (Throw e, st') => (Throw e, st')
    | (Undefined, st') => (Undefined, st')
    | (OutOfFuel, st') => (OutOfFuel, st')
    end.

Notation "'let!' x ':=' m 'in' k" := (bindM m (fun x => k))
  (at level 10, x pattern, m at level 100, k at level 200).

Definition set_store (h : Store) : M unit :=
  fun st => (Ok tt, mkInterpreter h (globalEnv_ st) (currentEnv_ st)
                      (output_ st) (searchPath_ st) (userFunctions_ st)).

Definition set_currentEnv (env : nat) : M unit :=
  fun st => (Ok tt, mkInterpreter (store st) (globalEnv_ st) env
                      (output_ st) (searchPath_ st) (userFunctions_ st)).

Definition set_userFunction (name : string) (f : FunctionDef) : M unit :=
  fun st => (Ok tt, mkInterpreter (store st) (globalEnv_ st) (currentEnv_ st)
                      (output_ st) (searchPath_ st)
                      (<[name := f]> (userFunctions_ st))).

(** [v->display( *output_, name)] *)
Definition display (v : Value) (name : string) : M unit :=
  fun st => (Ok tt, mkInterpreter (store st) (globalEnv_ st) (currentEnv_ st)
                      (output_ st ++ [Display name v]) (searchPath_ st)
                      (userFunctions_ st)).

(** [currentEnv_->get(name)], [->set], [->has], [->declareGlobal] *)
Definition env_get (name : string) : M (option Value) :=
  fun st => (Env_get (store st) (currentEnv_ st) name, st).

Definition env_set_at (env : nat) (name : string) (v : Value) : M unit :=
  fun st =>
    match Env_set (store st) env name v with
    | Ok h => set_store h st
    | Throw e => (Throw e, st)
    | Undefined => (Undefined, st)
    | OutOfFuel => (OutOfFuel, st)
    end.

Definition env_set (name : string) (v : Value) : M unit :=
  fun st => env_set_at (currentEnv_ st) name v st.

Definition env_has (name : string) : M bool :=
  fun st => (Env_has (store st) (currentEnv_ st) name, st).

Definition env_declareGlobal (name : string) : M unit :=
  fun st =>
    match Env_declareGlobal (store st) (currentEnv_ st) name with
    | Ok h => set_store h st
    | Throw e => (Throw e, st)
    | Undefined => (Undefined, st)
    | OutOfFuel => (OutOfFuel, st)
    end.

(** [for (auto& x : xs) body(x);] *)
Fixpoint for_each {A : Type} (body : A -> M unit) (xs : list A) : M unit :=
  match xs with
  | [] => ret tt
  | x :: rest => let! _ := body x in for_each body rest
  end.

(** [for (auto& x : xs) out.push_back(f(x));] *)
Fixpoint map_M {A B : Type} (f : A -> M B) (xs : list A) : M (list B) :=
  match xs with
  | [] => ret []
  | x :: rest =>
      let! y := f x in
      let! ys := map_M f rest in
      ret (y :: ys)
  end.

(** [try { m } catch (ReturnSignal&) { }] *)
Definition catchReturn (m : M unit) : M unit :=
  fun st =>
    match m st with
    | (Throw ReturnSignal, st') => (Ok tt, st')
    | r => r
    end.

(** [Interpreter::generateRange]; the fuel bounds the number of values. *)
Fixpoint generateRange_loop (fuel : nat) (up : bool) (v step stop : float)
  (values : list float) : Outcome (list float) :=
  if (if up then PrimFloat.leb v (stop + step * 1e-10)%float
      else PrimFloat.leb (stop + step * 1e-10)%float v)
  then
    match fuel with
    | O => OutOfFuel
    | S fuel' =>
        generateRange_loop fuel' up (v + step)%float step stop (values ++ [v])
    end
  else Ok values.

Definition generateRange (fuel : nat) (start step stop : float)
  : Outcome Matrix :=
  if PrimFloat.eqb step 0%float
  then Throw (RuntimeError "Step size cannot be zero")
  else
    let* values :=
      generateRange_loop fuel (PrimFloat.ltb 0%float step) start step stop [] in
    Ok (mkMatrix 1 (Z.of_nat (length values)) values).

(** [std::vector] element access: out of range is undefined. *)
Definition vec_get {A : Type} (l : list A) (i : Z) : Outcome A :=
  if (0 <=? i) && (i <? Z.of_nat (length l))
  then match l !! Z.to_nat i with Some x => Ok x | None => Undefined end
  else Undefined.

Definition vec_set {A : Type} (l : list A) (i : Z) (x : A) : Outcome (list A) :=
  if (0 <=? i) && (i <? Z.of_nat (length l))
  then Ok (<[Z.to_nat i := x]> l)
  else Undefined.

(** [v.resize(n)] *)
Definition vec_resize {A : Type} (l : list A) (n : Z) (d : A) : list A :=
  take (Z.to_nat n) l ++ repeat d (Z.to_nat n - length l).

(** [std::iota] from 0 over a vector resized to [n]. *)
Definition iota (n : Z) : list Z := map Z.of_nat (seq 0 (Z.to_nat n)).

(** The interpreter's entry points as the functions below call them: at one
    level of nesting less. *)
Record Callbacks := mkCallbacks {
  cb_evalExpr : Expr -> M Value;
  cb_executeStmt : Stmt -> M unit;
  cb_callFunction : string -> list Value -> M Value;
  cb_callFuncHandle : FuncImpl -> list Value -> M Value
}.

(** [BuiltinFunc]: a registered builtin takes the argument values; the ones
    registered by [builtins.cpp] capture the interpreter, so it may use and
    change its state and call back into it. *)
Definition BuiltinFunc : Type := Callbacks -> list Value -> M Value.

Section InterpreterCore.

Variable pow : float -> float -> float.

(** The registry [builtinFunctions_], filled by the host before a program
    runs. *)
Variable builtinFunctions_ : string -> option BuiltinFunc.

(** The file lookup of [findFileFunction] (the search path, the file system,
    lexing and parsing the file found), as a function of the path list. *)
Variable findFileFunction_ : list string -> string -> option FunctionDef.

Definition isBuiltinFunction (name : string) : bool :=
  match builtinFunctions_ name with Some _ => true | None => false end.

Definition isUserFunction (name : string) : M bool :=
  fun st => (Ok (bool_decide (is_Some (userFunctions_ st !! name))), st).

Definition isKnownFunction (name : string) : M bool :=
  if isBuiltinFunction name then ret true else isUserFunction name.

Definition lookupVariable (name : string) : M (option Value) := env_get name.

Definition quoted (prefix name : string) : string :=
  String.append prefix (String.append "'" (String.append name "'")).

Section Step.

Variable rec : Callbacks.

(** Bound on the turns of [execWhile]'s loop and on the values of a range. *)
Variable loopFuel : nat.

Definition evalArgs (args : list Expr) : M (list Value) :=
  map_M (cb_evalExpr rec) args.

(** *** Function calls *)

Definition callUserFunction (func : FunctionDef) (args : list Value)
  (nargout : Z) : M Value :=
  fun st =>
    (* Create a new scope for the function *)
    let '(h, funcEnv) := Env_createChild (store st) (globalEnv_ st) in
    let savedEnv := currentEnv_ st in
    (let! _ := set_store h in
     let! _ := set_currentEnv funcEnv in
     (* Bind parameters *)
     let! _ := for_each (fun pa => env_set_at funcEnv (fst pa) (snd pa))
                        (zip (fd_params func) args) in
     let! _ := env_set_at funcEnv "nargin"
                 (makeScalar (Z_to_double (Z.of_nat (length args)))) in
     let! _ := env_set_at funcEnv "nargout" (makeScalar (Z_to_double nargout)) in
     (* Initialize return variables to empty *)
     let! _ := for_each (fun r =>
                 let! present := (fun st => (Env_has (store st) funcEnv r, st)) in
                 if negb present then env_set_at funcEnv r makeEmpty else ret tt)
                 (fd_returns func) in
     (* Execute function body *)
     let! _ := catchReturn (for_each (cb_executeStmt rec) (fd_body func)) in
     (* Collect return values *)
     let! result :=
       match fd_returns func with
       | [] => ret makeEmpty
       | r0 :: _ =>
           let! r := (fun st => (Env_get (store st) funcEnv r0, st)) in
           ret (match r with Some v => v | None => makeEmpty end)
       end in
     let! _ := set_currentEnv savedEnv in
     ret result) st.

Definition callFunction (name : string) (args : list Value) : M Value :=
  match builtinFunctions_ name with
  | Some f => f rec args
  | None =>
      fun st =>
        match userFunctions_ st !! name with
        | Some f => callUserFunction f args 1 st
        | None =>
            match findFileFunction_ (searchPath_ st) name with
            | Some fileFn =>
                (let! _ := set_userFunction name fileFn in
                 callUserFunction fileFn args 1) st
            | None => (Throw (RuntimeError (quoted "Undefined function " name)), st)
            end
        end
  end.

Definition callFuncHandle (impl : FuncImpl) (args : list Value) : M Value :=
  match impl with
  | ImplBuiltin name =>
      match builtinFunctions_ name with
      | Some f => f rec args
      | None => throw (RuntimeError "Invalid function handle")
      end
  | ImplUser def => callUserFunction def args 1
  end.

(** *** Expressions *)

Definition evalNumber (value imagValue : float) (isComplex : bool) : M Value :=
  if isComplex then ret (makeScalar imagValue) else ret (makeScalar value).

Definition evalIdentifier (name : string) : M Value :=
  let! val := lookupVariable name in
  match val with
  | Some v => ret v
  | None =>
      let! known := isKnownFunction name in
      if known then cb_callFunction rec name []
      else throw (RuntimeError (quoted "Undefined variable or function " name))
  end.

Definition evalUnary (op : TokenType) (operand : Expr) : M Value :=
  let! operand := cb_evalExpr rec operand in
  match op with
  | MINUS =>
      if isNumeric operand
      then let! m := lift (Matrix_neg (matrix_ operand)) in ret (makeMatrix m)
      else throw (RuntimeError "Unary minus requires numeric operand")
  | PLUS => ret operand
  | NOT =>
      if isNumeric operand
      then
        let m := matrix_ operand in
        let! res := lift (for_ (numel m) (fun i res =>
                      let* x := at_ m i in
                      set_ res i (if PrimFloat.eqb x 0%float then 1%float else 0%float))
                      (Matrix_new (rows_ m) (cols_ m))) in
        ret (makeMatrix res)
      else throw (RuntimeError "Logical NOT requires numeric operand")
  | TRANSPOSE | DOT_TRANSPOSE =>
      if isNumeric operand
      then let! m := lift (transpose (matrix_ operand)) in ret (makeMatrix m)
      else throw (RuntimeError "Transpose requires numeric operand")
  | _ => throw (RuntimeError "Unknown unary operator")
  end.

(** The [AND]/[SHORT_AND] and [OR]/[SHORT_OR] cases of [evalBinary]: the
    result is sized by the larger extents, with no shape check; C++'s [&&]
    and [||] read the right operand's element only when they need it. *)
Definition logicalAnd (lm rm : Matrix) : Outcome Matrix :=
  let r := Z.max (rows_ lm) (rows_ rm) in
  let c := Z.max (cols_ lm) (cols_ rm) in
  fill2 r c (fun i j =>
    let* x := getWithBroadcast lm i j in
    if negb (PrimFloat.eqb x 0%float) then
      let* y := getWithBroadcast rm i j in
      Ok (bool_to_double (negb (PrimFloat.eqb y 0%float)))
    else Ok 0%float).

Definition logicalOr (lm rm : Matrix) : Outcome Matrix :=
  let r := Z.max (rows_ lm) (rows_ rm) in
  let c := Z.max (cols_ lm) (cols_ rm) in
  fill2 r c (fun i j =>
    let* x := getWithBroadcast lm i j in
    if negb (PrimFloat.eqb x 0%float) then Ok 1%float
    else
      let* y := getWithBroadcast rm i j in
      Ok (bool_to_double (negb (PrimFloat.eqb y 0%float)))).

(** The numeric [switch] of [evalBinary]. *)
Definition binaryNumeric (op : TokenType) (lm rm : Matrix) : Outcome Matrix :=
  match op with
  | PLUS => Matrix_add lm rm
  | MINUS => Matrix_sub lm rm
  | STAR => Matrix_mul lm rm
  | SLASH =>
      if Matrix_isScalar rm
      then let* s := scalarValue rm in Matrix_div_scalar lm s
      else elementDiv lm rm
  | BACKSLASH =>
      if Matrix_isScalar lm
      then let* s := scalarValue lm in Matrix_div_scalar rm s
      else Throw (RuntimeError "Matrix left division not yet fully implemented")
  | CARET =>
      if Matrix_isScalar rm
      then let* s := scalarValue rm in power pow lm s
      else Throw (RuntimeError "Matrix power requires scalar exponent")
  | DOT_STAR => elementMul lm rm
  | DOT_SLASH => elementDiv lm rm
  | DOT_CARET => elementPow pow lm rm
  | EQ => Matrix_eq lm rm
  | NE => Matrix_ne lm rm
  | LT => Matrix_lt lm rm
  | GT => Matrix_gt lm rm
  | LE => Matrix_le lm rm
  | GE => Matrix_ge lm rm
  | AND | SHORT_AND => logicalAnd lm rm
  | OR | SHORT_OR => logicalOr lm rm
  | _ => Throw (RuntimeError "Unknown binary operator")
  end.

Definition evalBinaryValues (op : TokenType) (lhs rhs : Value) : Outcome Value :=
  if isNumeric lhs && isNumeric rhs then
    let* m := binaryNumeric op (matrix_ lhs) (matrix_ rhs) in
    Ok (makeMatrix m)
  else if isString lhs && isString rhs
          && bool_decide (op = EQ) then
    Ok (makeBool (String.eqb (string_ lhs) (string_ rhs)))
  else if isString lhs && isString rhs
          && bool_decide (op = NE) then
    Ok (makeBool (negb (String.eqb (string_ lhs) (string_ rhs))))
  else Throw (RuntimeError "Unsupported operand types for binary operation").

Definition evalBinary (op : TokenType) (lhs rhs : Expr) : M Value :=
  let! lhs := cb_evalExpr rec lhs in
  let! rhs := cb_evalExpr rec rhs in
  lift (evalBinaryValues op lhs rhs).

Definition evalMatrix (rows : list (list Expr)) : M Value :=
  match rows with
  | [] => ret (makeMatrix Matrix_empty)
  | _ =>
      (* Evaluate all elements *)
      let! evaluatedRows :=
        map_M (fun row =>
          map_M (fun elem =>
            let! val := cb_evalExpr rec elem in
            if isNumeric val then ret (matrix_ val)
            else if isString val then lift (toMatrix val)
            else throw (RuntimeError "Invalid element in matrix literal")) row)
          rows in
      (* Build the matrix by horizontal and vertical concatenation *)
      let! rowMatrices :=
        map_M (fun row =>
          match row with
          | [m] => ret m
          | _ => lift (horzcat row)
          end) evaluatedRows in
      match rowMatrices with
      | [m] => ret (makeMatrix m)
      | _ => let! m := lift (vertcat rowMatrices) in ret (makeMatrix m)
      end
  end.

Definition evalCellArray (rows : list (list Expr)) : M Value :=
  match rows with
  | [] => ret (VCellArray 0 0 [])
  | row0 :: _ =>
      let nrows := Z.of_nat (length rows) in
      let ncols := Z.of_nat (length row0) in
      let cell0 := repeat (None : option Value) (Z.to_nat (wrap64 (nrows * ncols))) in
      let fix cols (i j : Z) (row : list Expr) (data : list (option Value))
        : M (list (option Value)) :=
        match row with
        | [] => ret data
        | e :: rest =>
            let! v := cb_evalExpr rec e in
            let! data := lift (vec_set data (wrap64 (i * ncols + j)) (Some v)) in
            cols i (j + 1) rest data
        end in
      let fix rws (i : Z) (rows : list (list Expr)) (data : list (option Value))
        : M (list (option Value)) :=
        match rows with
        | [] => ret data
        | row :: rest =>
            let! data := cols i 0 row data in
            rws (i + 1) rest data
        end in
      let! data := rws 0 rows cell0 in
      ret (VCellArray nrows ncols data)
  end.

(** [static_cast<size_t>(d) - 1]: from a 1-based to a 0-based index. *)
Definition index0 (d : float) : Outcome Z :=
  let* i := to_size_t d in Ok (wrap64 (i - 1)).

(** The one-index read of a numeric variable. [None]: no case applies and
    [evalCall] goes on to the function call. *)
Definition indexLinear (mat : Matrix) (idx : Value) : Outcome (option Value) :=
  if isEmpty idx || (isMatrix idx && Matrix_isEmpty (matrix_ idx)) then
    (* A(:) - return as column vector *)
    let* result :=
      for_ (numel mat) (fun i res => let* v := at_ mat i in set2 res i 0 v)
           (Matrix_new (numel mat) 1) in
    Ok (Some (makeMatrix result))
  else if isNumeric idx then
    let idxMat := matrix_ idx in
    if Matrix_isScalar idxMat then
      let* d := scalarValue idxMat in
      let* i := index0 d in
      if numel mat <=? i
      then Throw (RuntimeError "Index exceeds array dimensions")
      else let* v := at_ mat i in Ok (Some (makeScalar v))
    else
      (* Vector indexing *)
      let* result :=
        for_ (numel idxMat) (fun k res =>
          let* d := at_ idxMat k in
          let* i := index0 d in
          if numel mat <=? i
          then Throw (RuntimeError "Index exceeds array dimensions")
          else let* v := at_ mat i in set_ res k v)
          (Matrix_new (rows_ idxMat) (cols_ idxMat)) in
      Ok (Some (makeMatrix result))
  else Ok None.

(** One axis of the two-index read: the 0-based positions asked for. *)
Definition axisIndices (extent : Z) (arg : Value) : Outcome (list Z) :=
  if isEmpty arg then Ok (iota extent)
  else if isNumeric arg then
    let m := matrix_ arg in
    for_ (numel m) (fun i acc =>
      let* d := at_ m i in
      let* k := index0 d in
      Ok (acc ++ [k])) []
  else Ok [].

(** The two-index read [A(row, col)] of a numeric variable. *)
Definition index2D (mat : Matrix) (arg0 arg1 : Value) : Outcome Value :=
  let* rowIdx := axisIndices (rows_ mat) arg0 in
  let* colIdx := axisIndices (cols_ mat) arg1 in
  match rowIdx, colIdx with
  | [r], [c] => let* v := at2 mat r c in Ok (makeScalar v)
  | _, _ =>
      let nr := Z.of_nat (length rowIdx) in
      let nc := Z.of_nat (length colIdx) in
      let* result :=
        fill2 nr nc (fun i j =>
          let* r := vec_get rowIdx i in
          let* c := vec_get colIdx j in
          at2 mat r c) in
      Ok (makeMatrix result)
  end.

(** The indexing part of [evalCall], for a variable that is bound and whose
    name is no known function. [None]: control reaches the function call. *)
Definition indexVariable (var : Value) (args : list Value) : Outcome (option Value) :=
  if isNumeric var then
    match args with
    | [idx] => indexLinear (matrix_ var) idx
    | [a0; a1] => let* v := index2D (matrix_ var) a0 a1 in Ok (Some v)
    | _ => Ok None
    end
  else if isCellArray var then
    Throw (RuntimeError "Cell array () indexing not fully supported yet, use {} instead")
  else if isStruct var then
    Throw (RuntimeError "Struct array indexing not yet supported")
  else Ok None.

Definition funcHandle_impl (v : Value) : option FuncImpl :=
  match v with VFuncHandle _ impl => Some impl | _ => None end.

Definition evalCall (callee : Expr) (arguments : list Expr) : M Value :=
  match callee with
  | Identifier name =>
      (* Evaluate arguments *)
      let! args := evalArgs arguments in
      (* Check if it's a variable (array indexing or function handle call) *)
      let! var := lookupVariable name in
      match var with
      | Some (VFuncHandle _ impl) => cb_callFuncHandle rec impl args
      | Some v =>
          let! known := isKnownFunction name in
          if negb known then
            let! r := lift (indexVariable v args) in
            match r with
            | Some result => ret result
            | None => cb_callFunction rec name args
            end
          else cb_callFunction rec name args
      | None => cb_callFunction rec name args
      end
  | _ =>
      (* Call on an expression (e.g., function handle) *)
      let! calleeVal := cb_evalExpr rec callee in
      match calleeVal with
      | VFuncHandle _ impl =>
          let! args := evalArgs arguments in
          cb_callFuncHandle rec impl args
      | _ => throw (RuntimeError "Cannot call non-function value")
      end
  end.

Definition evalCellIndex (object : Expr) (indices : list Expr) : M Value :=
  let! obj := cb_evalExpr rec object in
  match obj with
  | VCellArray rows cols data =>
      let! indices := evalArgs indices in
      match indices with
      | [i0] =>
          if isScalar i0 then
            let! d := lift (scalarDouble i0) in
            let! i := lift (index0 d) in
            if Z.of_nat (length data) <=? i
            then throw (RuntimeError "Index exceeds cell array dimensions")
            else
              let! p := lift (vec_get data i) in
              ret (match p with Some v => v | None => makeEmpty end)
          else throw (RuntimeError "Cell array indexing error")
      | [i0; i1] =>
          if isScalar i0 && isScalar i1 then
            let! d0 := lift (scalarDouble i0) in
            let! r := lift (index0 d0) in
            let! d1 := lift (scalarDouble i1) in
            let! c := lift (index0 d1) in
            let! p := lift (vec_get data (wrap64 (r * cols + c))) in
            ret (match p with Some v => v | None => makeEmpty end)
          else throw (RuntimeError "Cell array indexing error")
      | _ => throw (RuntimeError "Cell array indexing error")
      end
  | _ => throw (RuntimeError "Cell indexing requires a cell array")
  end.

Definition evalDot (object : Expr) (field : string) : M Value :=
  let! obj := cb_evalExpr rec object in
  match obj with
  | VStruct fields =>
      match fields_find fields field with
      | Some v => ret v
      | None => throw (RuntimeError (quoted "Reference to non-existent field " field))
      end
  | _ => throw (RuntimeError "Dot access requires a struct")
  end.

Definition evalColon (start step stop : option Expr) : M Value :=
  match start, stop with
  | None, _ => ret makeEmpty
  | Some start, None => cb_evalExpr rec start
  | Some start, Some stop =>
      let! startV := cb_evalExpr rec start in
      let! start := lift (scalarDouble startV) in
      let! stopV := cb_evalExpr rec stop in
      let! stop := lift (scalarDouble stopV) in
      let! step :=
        match step with
        | Some step =>
            let! stepV := cb_evalExpr rec step in lift (scalarDouble stepV)
        | None => ret 1%float
        end in
      let! m := lift (generateRange loopFuel start step stop) in
      ret (makeMatrix m)
  end.

Definition evalAnonFunc (params : list string) (body : Expr) : M Value :=
  let funcDef :=
    mkFunctionDef "<anonymous>" params ["ans"%string]
      [AssignStmt (Identifier "ans") body false] in
  ret (VFuncHandle "<anonymous>" (ImplUser funcDef)).

Definition evalFuncHandle (name : string) : M Value :=
  if isBuiltinFunction name then ret (VFuncHandle name (ImplBuiltin name))
  else
    fun st =>
      match userFunctions_ st !! name with
      | Some f => (Ok (VFuncHandle name (ImplUser f)), st)
      | None => (Throw (RuntimeError (quoted "Undefined function " name)), st)
      end.

Definition evalExpr_ (e : Expr) : M Value :=
  match e with
  | NumberLiteral value imagValue isComplex => evalNumber value imagValue isComplex
  | StringLiteral value => ret (makeString value)
  | BoolLiteral value => ret (makeBool value)
  | Identifier name => evalIdentifier name
  | UnaryExpr op operand _ => evalUnary op operand
  | BinaryExpr op lhs rhs => evalBinary op lhs rhs
  | MatrixLiteral rows => evalMatrix rows
  | CellArrayLiteral rows => evalCellArray rows
  | CallExpr callee arguments => evalCall callee arguments
  | CellIndexExpr object indices => evalCellIndex object indices
  | DotExpr object field => evalDot object field
  | ColonExpr start step stop => evalColon start step stop
  | EndExpr => ret (makeScalar 0%float)
  | AnonFuncExpr params body => evalAnonFunc params body
  | FuncHandleExpr name => evalFuncHandle name
  | CommandExpr _ _ => throw (RuntimeError "Command syntax not yet supported")
  end.

(** *** Indexed assignment helpers *)

Definition assignIndexed (callee : Expr) (arguments : list Expr) (value : Value)
  : M unit :=
  match callee with
  | Identifier name =>
      (* Get or create the variable *)
      let! var := env_get name in
      (* Evaluate indices *)
      let! indices := evalArgs arguments in
      let create : M bool :=
        if match var with None => true | Some v => isEmpty v end then
          match indices with
          | [i0; i1] =>
              if isScalar i0 && isScalar i1 then
                let! d0 := lift (scalarDouble i0) in
                let! r := lift (to_size_t d0) in
                let! d1 := lift (scalarDouble i1) in
                let! c := lift (to_size_t d1) in
                let m := zeros r c in
                let! m :=
                  if isScalar value then
                    let! d := lift (scalarDouble value) in
                    lift (set2 m (wrap64 (r - 1)) (wrap64 (c - 1)) d)
                  else ret m in
                let! _ := env_set name (makeMatrix m) in
                ret true
              else ret false
          | _ => ret false
          end
        else ret false in
      let! done := create in
      if done then ret tt
      else
        match var with
        | Some v =>
            if isNumeric v then
              let mat := matrix_ v in (* copy *)
              let! mat :=
                match indices with
                | [i0] =>
                    if isScalar i0 then
                      let! d0 := lift (scalarDouble i0) in
                      let! idx := lift (index0 d0) in
                      (* Grow if needed *)
                      let! mat :=
                        if numel mat <=? idx then
                          lift (for_ (numel mat) (fun i newMat =>
                                  let* x := at_ mat i in set_ newMat i x)
                                  (Matrix_fill 1 (wrap64 (idx + 1)) 0%float))
                        else ret mat in
                      let! d := lift (scalarDouble value) in
                      lift (set_ mat idx d)
                    else ret mat
                | [i0; i1] =>
                    if isScalar i0 && isScalar i1 then
                      let! d0 := lift (scalarDouble i0) in
                      let! r := lift (index0 d0) in
                      let! d1 := lift (scalarDouble i1) in
                      let! c := lift (index0 d1) in
                      (* Grow if needed *)
                      let newRows := Z.max (rows_ mat) (wrap64 (r + 1)) in
                      let newCols := Z.max (cols_ mat) (wrap64 (c + 1)) in
                      let! mat :=
                        if (rows_ mat <? newRows) || (cols_ mat <? newCols) then
                          lift (for_ (rows_ mat) (fun i newMat =>
                                  for_ (cols_ mat) (fun j newMat =>
                                    let* x := at2 mat i j in set2 newMat i j x)
                                    newMat)
                                  (zeros newRows newCols))
                        else ret mat in
                      let! d := lift (scalarDouble value) in
                      lift (set2 mat r c d)
                    else ret mat
                | _ => ret mat
                end in
              env_set name (makeMatrix mat)
            else ret tt
        | None => ret tt
        end
  | _ => throw (RuntimeError "Invalid indexed assignment target")
  end.

Definition assignDot (object : Expr) (field : string) (value : Value) : M unit :=
  match object with
  | Identifier name =>
      let! obj := lookupVariable name in
      match obj with
      | None | Some VEmpty =>
          (* Create new struct *)
          env_set name (VStruct (fields_set [] field value))
      | Some (VStruct fields) =>
          env_set name (VStruct (fields_set fields field value))
      | Some _ => throw (RuntimeError "Cannot set field on non-struct value")
      end
  | _ => throw (RuntimeError "Dot assignment requires an identifier base")
  end.

Definition assignCellIndex (object : Expr) (indices : list Expr) (value : Value)
  : M unit :=
  match object with
  | Identifier name =>
      let! obj := env_get name in
      match obj with
      | None | Some VEmpty =>
          (* Create a new cell array *)
          let! indices := evalArgs indices in
          match indices with
          | [i0] =>
              if isScalar i0 then
                let! d := lift (scalarDouble i0) in
                let! i := lift (to_size_t d) in
                let data := vec_resize [] i None in
                let! data := lift (vec_set data (wrap64 (i - 1)) (Some value)) in
                env_set name (VCellArray 1 i data)
              else env_set name (VCellArray 0 0 [])
          | _ => env_set name (VCellArray 0 0 [])
          end
      | Some (VCellArray rows cols data) =>
          let! indices := evalArgs indices in
          match indices with
          | [i0] =>
              if isScalar i0 then
                let! d := lift (scalarDouble i0) in
                let! i := lift (index0 d) in
                let '(cols, data) :=
                  if Z.of_nat (length data) <=? i
                  then (wrap64 (i + 1), vec_resize data (wrap64 (i + 1)) None)
                  else (cols, data) in
                let! data := lift (vec_set data i (Some value)) in
                env_set name (VCellArray rows cols data)
              else env_set name (VCellArray rows cols data)
          | _ => env_set name (VCellArray rows cols data)
          end
      | Some _ => ret tt
      end
  | _ => throw (RuntimeError "Cell index assignment requires an identifier")
  end.

(** *** Statements *)

Definition execBlock (body : list Stmt) : M unit :=
  for_each (cb_executeStmt rec) body.

Definition execExprStmt (expression : Expr) (printResult : bool) : M unit :=
  let! val := cb_evalExpr rec expression in
  if printResult && negb (isEmpty val) then
    let! _ := env_set "ans" val in
    display val "ans"
  else ret tt.

Definition execAssign (target value : Expr) (printResult : bool) : M unit :=
  let! value := cb_evalExpr rec value in
  match target with
  | Identifier name =>
      let! _ := env_set name value in
      if printResult && negb (isEmpty value) then display value name else ret tt
  | CallExpr callee arguments =>
      let! _ := assignIndexed callee arguments value in
      if printResult then
        (* Display the modified variable *)
        match callee with
        | Identifier name =>
            let! stored := env_get name in
            match stored with
            | Some v => display v name
            | None => ret tt
            end
        | _ => ret tt
        end
      else ret tt
  | DotExpr object field => assignDot object field value
  | CellIndexExpr object indices => assignCellIndex object indices value
  | _ => throw (RuntimeError "Invalid assignment target")
  end.

(** The first loop of [execMultiAssign], from position [i] on. *)
Fixpoint bindTargets (i : nat) (targets : list string) (val : Value) : M unit :=
  match targets with
  | [] => ret tt
  | t :: rest =>
      let! _ :=
        if String.eqb t "~" then ret tt (* skip ignored outputs *)
        else if Nat.eqb i 0 then env_set t val
        else env_set t makeEmpty in
      bindTargets (S i) rest val
  end.

Definition execMultiAssign (targets : list string) (value : Expr)
  (printResult : bool) : M unit :=
  (* Evaluate the RHS *)
  let! val := cb_evalExpr rec value in
  let! _ := bindTargets 0 targets val in
  if printResult && negb (isEmpty val) then
    for_each (fun name =>
      if String.eqb name "~" then ret tt
      else
        let! v := env_get name in
        match v with
        | Some v => display v name
        | None => ret tt
        end) targets
  else ret tt.

Fixpoint execIf (branches : list (option Expr * list Stmt)) : M unit :=
  match branches with
  | [] => ret tt
  | (None, body) :: _ => execBlock body (* else branch *)
  | (Some condition, body) :: rest =>
      let! cond := cb_evalExpr rec condition in
      let! b := lift (toBool cond) in
      if b then execBlock body else execIf rest
  end.

(** The column loop of [execFor], over the columns still to visit. *)
Fixpoint execFor_loop (variable : string) (mat : Matrix) (body : list Stmt)
  (columns : list Z) : M unit :=
  match columns with
  | [] => ret tt
  | j :: rest =>
      let! _ :=
        if rows_ mat =? 1 then
          let! x := lift (at2 mat 0 j) in
          env_set variable (makeScalar x)
        else
          let! colj := lift (getCol mat j) in
          env_set variable (makeMatrix colj) in
      fun st =>
        match execBlock body st with
        | (Throw BreakSignal, st') => (Ok tt, st')
        | (Throw ContinueSignal, st') => execFor_loop variable mat body rest st'
        | (Ok _, st') => execFor_loop variable mat body rest st'
        | r => r
        end
  end.

Definition execFor (variable : string) (range : Expr) (body : list Stmt)
  : M unit :=
  let! rangeVal := cb_evalExpr rec range in
  if isMatrix rangeVal || isLogical rangeVal then
    let mat := matrix_ rangeVal in
    (* Iterate over columns *)
    execFor_loop variable mat body (iota (cols_ mat))
  else throw (RuntimeError "For loop requires numeric range").

(** [execWhile]'s [while (true)]; the fuel bounds its turns. *)
Fixpoint execWhile_loop (fuel : nat) (condition : Expr) (body : list Stmt)
  : M unit :=
  let! cond := cb_evalExpr rec condition in
  let! b := lift (toBool cond) in
  if negb b then ret tt
  else
    fun st =>
      match execBlock body st with
      | (Throw BreakSignal, st') => (Ok tt, st')
      | (Throw ContinueSignal, st') | (Ok _, st') =>
          match fuel with
          | O => (OutOfFuel, st')
          | S fuel' => execWhile_loop fuel' condition body st'
          end
      | r => r
      end.

Definition execWhile (condition : Expr) (body : list Stmt) : M unit :=
  execWhile_loop loopFuel condition body.

Fixpoint execSwitch_cases (val : Value) (cases : list (option Expr * list Stmt))
  : M unit :=
  match cases with
  | [] => ret tt
  | (None, body) :: _ => execBlock body (* otherwise *)
  | (Some value, body) :: rest =>
      let! caseVal := cb_evalExpr rec value in
      let! matched :=
        if isScalar val && isScalar caseVal then
          let! x := lift (scalarDouble val) in
          let! y := lift (scalarDouble caseVal) in
          ret (PrimFloat.eqb x y)
        else if isString val && isString caseVal then
          ret (String.eqb (string_ val) (string_ caseVal))
        else ret false in
      if matched then execBlock body else execSwitch_cases val rest
  end.

Definition execSwitch (expression : Expr) (cases : list (option Expr * list Stmt))
  : M unit :=
  let! val := cb_evalExpr rec expression in
  execSwitch_cases val cases.

(** The struct a [catch] binds: [message] and [identifier]. *)
Definition exceptionStruct (what identifier : string) : Value :=
  VStruct (fields_set (fields_set [] "message" (makeString what))
                      "identifier" (makeString identifier)).

(** [execTryCatch]: the handlers are [catch (RuntimeError&)] and
    [catch (std::exception&)]; the signals are neither. *)
Definition execTryCatch (tryBody : list Stmt) (catchVar : string)
  (catchBody : list Stmt) : M unit :=
  fun st =>
    match execBlock tryBody st with
    | (Throw (RuntimeError what), st') =>
        (let! _ :=
           if negb (String.eqb catchVar EmptyString)
           then env_set catchVar (exceptionStruct what "MatFree:runtime")
           else ret tt in
         execBlock catchBody) st'
    | (Throw (StdException what), st') =>
        (let! _ :=
           if negb (String.eqb catchVar EmptyString)
           then env_set catchVar (exceptionStruct what "MatFree:internal")
           else ret tt in
         execBlock catchBody) st'
    | r => r
    end.

Definition execFunctionDef (f : FunctionDef) : M unit :=
  set_userFunction (fd_name f) f.

Definition execGlobal (variables : list string) : M unit :=
  for_each env_declareGlobal variables.

Definition execPersistent (variables : list string) : M unit :=
  for_each (fun name =>
    let! present := env_has name in
    if negb present then env_set name makeEmpty else ret tt) variables.

Definition executeStmt_ (s : Stmt) : M unit :=
  match s with
  | ExprStmt expression printResult => execExprStmt expression printResult
  | AssignStmt target value printResult => execAssign target value printResult
  | MultiAssignStmt targets value printResult =>
      execMultiAssign targets value printResult
  | IfStmt branches => execIf branches
  | ForStmt variable range body => execFor variable range body
  | WhileStmt condition body => execWhile condition body
  | SwitchStmt expression cases => execSwitch expression cases
  | TryCatchStmt tryBody catchVar catchBody =>
      execTryCatch tryBody catchVar catchBody
  | FunctionDefStmt name params returns body =>
      execFunctionDef (mkFunctionDef name params returns body)
  | GlobalStmt variables => execGlobal variables
  | PersistentStmt variables => execPersistent variables
  | ReturnStmt => throw ReturnSignal
  | BreakStmt => throw BreakSignal
  | ContinueStmt => throw ContinueSignal
  | ClassDefStmt _ _ => ret tt
  end.

End Step.

(** *** Tying the knot *)

Definition out_of_fuel : Callbacks :=
  mkCallbacks (fun _ st => (OutOfFuel, st)) (fun _ st => (OutOfFuel, st))
              (fun _ _ st => (OutOfFuel, st)) (fun _ _ st => (OutOfFuel, st)).

(** The interpreter with [fuel] levels of nesting (of expressions,
    statements and calls) left; a loop may take [loopFuel] turns. *)
Fixpoint interpreter (loopFuel fuel : nat) : Callbacks :=
  match fuel with
  | O => out_of_fuel
  | S fuel' =>
      let rec := interpreter loopFuel fuel' in
      mkCallbacks (evalExpr_ rec loopFuel) (executeStmt_ rec loopFuel)
                  (callFunction rec) (callFuncHandle rec)
  end.

Definition evalExpr (fuel : nat) : Expr -> M Value :=
  cb_evalExpr (interpreter fuel fuel).

Definition executeStmt (fuel : nat) : Stmt -> M unit :=
  cb_executeStmt (interpreter fuel fuel).

Definition is_FunctionDef (s : Stmt) : bool :=
  match s with FunctionDefStmt _ _ _ _ => true | _ => false end.

(** [Interpreter::execute] *)
Definition execute (fuel : nat) (program : Program) : M unit :=
  (* Register any function definitions first *)
  let! _ := for_each (fun f => set_userFunction (fd_name f) f) (functions program) in
  (* Execute statements *)
  for_each (fun stmt =>
    if is_FunctionDef stmt then ret tt else executeStmt fuel stmt)
    (statements program).

End InterpreterCore.

(** [Interpreter::Interpreter()]: the global environment with the built-in
    constants. *)
Definition Interpreter_new : Interpreter :=
  let vars : gmap string Value :=
    <["false" := makeBool false]> (
    <["true" := makeBool true]> (
    <["j" := makeScalar 0%float]> (
    <["i" := makeScalar 0%float]> (
    <["eps" := makeScalar 0x1p-52%float]> (
    <["NaN" := makeScalar nan]> (
    <["nan" := makeScalar nan]> (
    <["Inf" := makeScalar infinity]> (
    <["inf" := makeScalar infinity]> (
    <["pi" := makeScalar 3.14159265358979323846%float]> ∅))))))))) in
  mkInterpreter [mkEnvironment None vars ∅] 0 0 [] ["."%string] ∅.
(** ** Notions the properties are stated with *)



(** The kind and text of each token of a tokenization. *)
Definition token_kinds (r : LexResult (list Token))
  : LexResult (list (TokenType * string)) :=
  match r with
  | LexOk l => LexOk (map (fun t => (type t, lexeme t)) l)
  | LexerError m a b => LexerError m a b
  | LexStdException w => LexStdException w
  | LexOutOfFuel => LexOutOfFuel
  end.


(** The class invariant of [Matrix]: [data_.size() == rows_ * cols_], the
    extents being [size_t] values whose product did not wrap. *)
Definition wf_Matrix (m : Matrix) : Prop :=
  0 <= rows_ m /\ 0 <= cols_ m
  /\ rows_ m * cols_ m < SIZE_MAX_plus_1
  /\ numel m = rows_ m * cols_ m.

(** The element at row [i], column [j] (row-major). *)
Definition elem (m : Matrix) (i j : Z) : float :=
  nth (Z.to_nat (i * cols_ m + j)) (data_ m) 0%float.

(** The shapes an elementwise binary operation accepts: identical, one side
    a 1x1 scalar, or agreeing on one axis with the other axis 1 on one
    side. *)
Definition shapes_compatible (a b : Matrix) : Prop :=
  (rows_ a = rows_ b /\ cols_ a = cols_ b)
  \/ (rows_ a = 1 /\ cols_ a = 1)
  \/ (rows_ b = 1 /\ cols_ b = 1)
  \/ (rows_ a = rows_ b /\ (cols_ a = 1 \/ cols_ b = 1))
  \/ (cols_ a = cols_ b /\ (rows_ a = 1 \/ rows_ b = 1)).

#[global] Instance shapes_compatible_dec a b : Decision (shapes_compatible a b).
Proof. unfold shapes_compatible. apply _. Defined.

(** The operators that go through [broadcastCheck]. *)
Definition checkedElementwiseOps : list TokenType :=
  [PLUS; MINUS; DOT_STAR; DOT_SLASH; DOT_CARET; EQ; NE; LT; GT; LE; GE].

(** Finite doubles (zeros, subnormal and normal numbers) and zeros. *)
Definition is_finite (x : float) : bool :=
  match Prim2SF x with
  | S754_zero _ | S754_finite _ _ _ => true
  | _ => false
  end.

Definition is_zero (x : float) : bool :=
  match Prim2SF x with
  | S754_zero _ => true
  | _ => false
  end.

(** The shape [broadcastCheck] gives two compatible operands. *)
Definition broadcast_shape (a b : Matrix) : Z * Z :=
  if decide (rows_ a = rows_ b /\ cols_ a = cols_ b) then (rows_ a, cols_ a)
  else if decide (rows_ a = 1 /\ cols_ a = 1) then (rows_ b, cols_ b)
  else if decide (rows_ b = 1 /\ cols_ b = 1) then (rows_ a, cols_ a)
  else if decide (rows_ a = rows_ b) then (rows_ a, Z.max (cols_ a) (cols_ b))
  else (Z.max (rows_ a) (rows_ b), cols_ a).

(** The message of [broadcastCheck]'s error: it names both shapes. *)
Definition dimensions_must_agree (a b : Matrix) : string :=
  String.append "Matrix dimensions must agree ("
    (String.append (dims_string a)
      (String.append " vs " (String.append (dims_string b) ")"))).

(** A matrix with at least one row and one column. *)
Definition nonempty (m : Matrix) : Prop := 0 < rows_ m /\ 0 < cols_ m.

(** A 2x2 matrix with an infinite entry. *)
Definition matrix_with_infinity : Matrix :=
  mkMatrix 2 2 [infinity; 0; 0; 0]%float.



(** A host with no builtin registered and no function file to find; [pow]
    is not called by the programs evaluated with it. *)
Definition no_builtins : string -> option BuiltinFunc := fun _ => None.
Definition no_files : list string -> string -> option FunctionDef :=
  fun _ _ => None.
Definition no_pow : float -> float -> float := fun x _ => x.

(** The variable [name] as the environment at address [env] sees it. *)
Definition variable_at (st : Interpreter) (env : nat) (name : string)
  : Outcome (option Value) :=
  Env_get (store st) env name.

(** A numeric literal. *)
Definition num (x : float) : Expr := NumberLiteral x 0%float false.

Definition is_signal (e : Exn) : Prop :=
  e = BreakSignal \/ e = ContinueSignal \/ e = ReturnSignal.


(** [for i = 1:3, try, break; catch e, caught = 1; end, after = 1; end] and
    then [done = i]. *)
Definition break_inside_try : Program :=
  mkProgram
    [ForStmt "i" (ColonExpr (Some (num 1)) None (Some (num 3)))
       [TryCatchStmt [BreakStmt] "e"
          [AssignStmt (Identifier "caught") (num 1) false];
        AssignStmt (Identifier "after") (num 1) false];
     AssignStmt (Identifier "done") (Identifier "i") false]
    [].

(** [function y = f() y = 1; try, return; catch e, y = 2; end, y = 3; end]
    called as [r = f()]. *)
Definition return_inside_try : Program :=
  mkProgram
    [AssignStmt (Identifier "r") (CallExpr (Identifier "f") []) false]
    [mkFunctionDef "f" [] ["y"%string]
       [AssignStmt (Identifier "y") (num 1) false;
        TryCatchStmt [ReturnStmt] "e"
          [AssignStmt (Identifier "y") (num 2) false];
        AssignStmt (Identifier "y") (num 3) false]].

(** What [catch] does once it has intercepted an exception with message
    [what], tagged [identifier]. *)
Definition catch_handler (rec : Callbacks) (catchVar : string)
  (catchBody : list Stmt) (what identifier : string) : M unit :=
  let! _ :=
    if negb (String.eqb catchVar EmptyString)
    then env_set catchVar (exceptionStruct what identifier)
    else ret tt in
  execBlock rec catchBody.


(** [variables_] after the bindings [bs] are made in order. *)
Definition bind_all (vars : gmap string Value) (bs : list (string * Value))
  : gmap string Value :=
  fold_left (fun m p => <[fst p := snd p]> m) bs vars.

(** The environment [e] with [vars] for its variables. *)
Definition with_variables (e : Environment) (vars : gmap string Value)
  : Environment :=
  mkEnvironment (parent_ e) vars (globals_ e).




(** The column [[1; 2]] and the row [[1 2 3]]. *)
Definition column_2x1 : Matrix := mkMatrix 2 1 [1; 2]%float.
Definition row_1x3 : Matrix := mkMatrix 1 3 [1; 2; 3]%float.

(** [[1 2; 3 4]] as a matrix literal. *)
Definition matrix_1234 : Expr :=
  MatrixLiteral [[num 1; num 2]; [num 3; num 4]].

(** [A = [1 2; 3 4]; x = A(1,3)] *)
Definition read_past_columns : Program :=
  mkProgram
    [AssignStmt (Identifier "A") matrix_1234 false;
     AssignStmt (Identifier "x")
       (CallExpr (Identifier "A") [num 1; num 3]) false]
    [].

(** [A = [1 2; 3 4]; x = A(5)] *)
Definition read_past_numel : Program :=
  mkProgram
    [AssignStmt (Identifier "A") matrix_1234 false;
     AssignStmt (Identifier "x") (CallExpr (Identifier "A") [num 5]) false]
    [].

(** What the scanning helpers leave untouched. *)
Definition same_context (lx lx' : Lexer) : Prop :=
  lastToken_ lx' = lastToken_ lx /\ hasPeeked_ lx' = hasPeeked_ lx
  /\ source_ lx' = source_ lx.

(** What a scanner's token is, and that it becomes [lastToken_]. *)
Definition emits (lx : Lexer) (r : LexResult (Token * Lexer))
  (P : TokenType -> Prop) : Prop :=
  forall tok lx', r = LexOk (tok, lx') ->
    lastToken_ lx' = tok /\ hasPeeked_ lx' = hasPeeked_ lx /\ P (type tok).

(** ** Further notions: matrices *)

(** The running sum [Matrix::operator*] accumulates for the element at row
    [i], column [j]: [sum += a(i, k) * b(k, j)] for [k] from 0, starting
    from [0.0]. *)
Definition row_times_col (a b : Matrix) (i j : Z) : float :=
  fold_left (fun sum k =>
               (sum + elem a i (Z.of_nat k) * elem b (Z.of_nat k) j)%float)
            (seq 0 (Z.to_nat (cols_ a))) 0%float.

(** The function an operator of [checkedElementwiseOps] applies to each
    pair of elements. *)
Definition elementwise_function (pow : float -> float -> float)
  (op : TokenType) (x y : float) : float :=
  match op with
  | PLUS => (x + y)%float
  | MINUS => (x - y)%float
  | DOT_STAR => (x * y)%float
  | DOT_SLASH => (x / y)%float
  | DOT_CARET => pow x y
  | EQ => bool_to_double (PrimFloat.eqb x y)
  | NE => bool_to_double (negb (PrimFloat.eqb x y))
  | LT => bool_to_double (PrimFloat.ltb x y)
  | GT => bool_to_double (PrimFloat.ltb y x)
  | LE => bool_to_double (PrimFloat.leb x y)
  | GE => bool_to_double (PrimFloat.leb y x)
  | _ => 0%float
  end.

(** Every element of the matrix differs from zero under [!=]. *)
Definition all_nonzero (m : Matrix) : bool :=
  forallb (fun x => negb (PrimFloat.eqb x 0%float)) (data_ m).

(** [res] has the shape of [m] and [f] of each of its elements. *)
Definition maps_elements (f : float -> float) (m res : Matrix) : Prop :=
  rows_ res = rows_ m /\ cols_ res = cols_ m
  /\ forall i j, 0 <= i < rows_ m -> 0 <= j < cols_ m ->
       elem res i j = f (elem m i j).

(** The element at row [i], column [j] of matrices set side by side, and of
    matrices stacked. *)
Fixpoint hcat_elem (ms : list Matrix) (i j : Z) : float :=
  match ms with
  | [] => 0%float
  | m :: rest =>
      if j <? cols_ m then elem m i j else hcat_elem rest i (j - cols_ m)
  end.

Fixpoint vcat_elem (ms : list Matrix) (i j : Z) : float :=
  match ms with
  | [] => 0%float
  | m :: rest =>
      if i <? rows_ m then elem m i j else vcat_elem rest (i - rows_ m) j
  end.

Definition total_cols (ms : list Matrix) : Z :=
  fold_right (fun m acc => cols_ m + acc) 0 ms.

Definition total_rows (ms : list Matrix) : Z :=
  fold_right (fun m acc => rows_ m + acc) 0 ms.

(** A well-formed matrix that has [n] rows (columns), or is the 0x0 matrix
    [[]]. *)
Definition rows_or_empty (n : Z) (m : Matrix) : Prop :=
  wf_Matrix m /\ (rows_ m = n \/ (rows_ m = 0 /\ cols_ m = 0)).

Definition cols_or_empty (n : Z) (m : Matrix) : Prop :=
  wf_Matrix m /\ (cols_ m = n \/ (rows_ m = 0 /\ cols_ m = 0)).

(** The positions of a block of [nr] rows whose first [i0] rows and the
    first [j0] elements of the next row are written, the block being at
    row [ro], column [co], and [nc] wide. *)
Definition block_written (ro co nc i0 j0 i j : Z) : Prop :=
  co <= j < co + nc /\ (ro <= i < ro + i0 \/ (i = ro + i0 /\ j < co + j0)).

#[global] Instance block_written_dec ro co nc i0 j0 i j :
  Decision (block_written ro co nc i0 j0 i j).
Proof. unfold block_written. apply _. Defined.

(** The message of [horzcat] and [vertcat]. *)
Definition not_consistent : string :=
  "Dimensions of arrays being concatenated are not consistent".

(** ** Further notions: environments and programs *)

(** [function r = f() x = 1; global x; x = 2; r = x; end], called as
    [r = f()] and followed by [g = x] at the top level, whose scope is the
    root. *)
Definition local_before_global : Program :=
  mkProgram
    [AssignStmt (Identifier "r") (CallExpr (Identifier "f") []) false;
     AssignStmt (Identifier "g") (Identifier "x") false]
    [mkFunctionDef "f" [] ["r"%string]
       [AssignStmt (Identifier "x") (num 1) false;
        GlobalStmt ["x"%string];
        AssignStmt (Identifier "x") (num 2) false;
        AssignStmt (Identifier "r") (Identifier "x") false]].

(** ** Further notions: function calls *)

(** The return variables a call initialises: each one that is not bound yet
    is bound to the empty value, in order. *)
Definition returns_initialised (returns : list string)
  (vars : gmap string Value) : gmap string Value :=
  fold_left (fun m r =>
               if bool_decide (is_Some (m !! r)) then m
               else <[r := makeEmpty]> m) returns vars.

(** The variables of a function's scope when its body starts: the
    parameters paired with the arguments, [nargin], [nargout], then the
    return variables. *)
Definition function_scope (func : FunctionDef) (args : list Value)
  (nargout : Z) : gmap string Value :=
  returns_initialised (fd_returns func)
    (<["nargout" := makeScalar (Z_to_double nargout)]>
       (<["nargin" := makeScalar (Z_to_double (Z.of_nat (length args)))]>
          (bind_all ∅ (zip (fd_params func) args)))).

(** The interpreter [st] entering a new scope with the variables [vars]:
    the scope is a new child of the global environment and becomes the
    current one. *)
Definition scope_state (st : Interpreter) (vars : gmap string Value)
  : Interpreter :=
  mkInterpreter
    (store st ++ [mkEnvironment (Some (globalEnv_ st)) vars ∅])
    (globalEnv_ st) (length (store st)) (output_ st) (searchPath_ st)
    (userFunctions_ st).

(** What [callUserFunction] does once the scope at [funcEnv] is set up: the
    body with its [catch (ReturnSignal&)], the value of the first return
    variable, and [currentEnv_ = savedEnv]. *)
Definition run_function_body (rec : Callbacks) (func : FunctionDef)
  (savedEnv funcEnv : nat) : M Value :=
  let! _ := catchReturn (for_each (cb_executeStmt rec) (fd_body func)) in
  let! result :=
    match fd_returns func with
    | [] => ret makeEmpty
    | r0 :: _ =>
        let! r := (fun st => (Env_get (store st) funcEnv r0, st)) in
        ret (match r with Some v => v | None => makeEmpty end)
    end in
  let! _ := set_currentEnv savedEnv in
  ret result.

(** [x = 1; try, f(); catch, end; y = x] with [function f() z = nowhere;
    end]: the call fails inside [f]. *)
Definition error_inside_call : Program :=
  mkProgram
    [AssignStmt (Identifier "x") (num 1) false;
     TryCatchStmt
       [ExprStmt (CallExpr (Identifier "f") []) false] EmptyString [];
     AssignStmt (Identifier "y") (Identifier "x") false]
    [mkFunctionDef "f" [] []
       [AssignStmt (Identifier "z") (Identifier "nowhere") false]].

(** ** Further notions: statements *)

(** Whether a [case] value matches the value switched on: two scalars
    compare with [==]; two strings compare as strings; anything else does
    not match. *)
Definition switch_match (val caseVal : Value) : Outcome bool :=
  if isScalar val && isScalar caseVal then
    let* x := scalarDouble val in
    let* y := scalarDouble caseVal in
    Ok (PrimFloat.eqb x y)
  else if isString val && isString caseVal then
    Ok (String.eqb (string_ val) (string_ caseVal))
  else Ok false.

(** The cases [cases] all have a value, which evaluates in [st] without
    changing it and does not match [val]. *)
Definition cases_do_not_match (rec : Callbacks) (val : Value)
  (cases : list (option Expr * list Stmt)) (st : Interpreter) : Prop :=
  Forall (fun c =>
    exists e v, fst c = Some e /\ cb_evalExpr rec e st = (Ok v, st)
                /\ switch_match val v = Ok false) cases.

(** ** Further notions: the lexer *)

(** A NEWLINE token may come after a token of kind [prev]. *)
Definition newline_may_follow (prev : TokenType) : Prop :=
  prev <> NEWLINE /\ prev <> SEMICOLON.

(** In a token sequence that comes after a token of kind [prev], every
    NEWLINE token directly follows a token after which one may come. *)
Fixpoint newlines_follow (prev : TokenType) (toks : list Token) : Prop :=
  match toks with
  | [] => True
  | t :: rest =>
      (type t = NEWLINE -> newline_may_follow prev)
      /\ newlines_follow (type t) rest
  end.

(** The lexer [lx] holding the peeked token [tok], or having given it out. *)
Definition with_peeked (lx : Lexer) (peeked : bool) (tok : Token) : Lexer :=
  mkLexer (source_ lx) (pos_ lx) (line_ lx) (col_ lx) (lastToken_ lx)
          peeked tok.
(** * Properties of the lexer *)

Section LexerFacts.

Variable stod : string -> option float.

Lemma same_context_refl lx : same_context lx lx.
Proof. by repeat split. Qed.

Lemma same_context_trans lx1 lx2 lx3 :
  same_context lx1 lx2 -> same_context lx2 lx3 -> same_context lx1 lx3.
Proof. intros (?&?&?) (?&?&?). repeat split; congruence. Qed.

Lemma advance_context lx : same_context lx (advance_ lx).
Proof. unfold advance_, advance. simpl. by destruct (Ascii.eqb _ _). Qed.

Lemma advance_pos lx : pos_ (advance_ lx) = pos_ lx + 1.
Proof. unfold advance_, advance. simpl. by destruct (Ascii.eqb _ _). Qed.

Lemma advance_source lx : source_ (advance_ lx) = source_ lx.
Proof. apply advance_context. Qed.

Lemma advance_size lx : size (advance_ lx) = size lx.
Proof. unfold size. by rewrite advance_source. Qed.

Lemma skipToEol_context fuel lx : same_context lx (skipToEol fuel lx).
Proof.
  revert lx. induction fuel as [|fuel IH]; intros lx; simpl.
  - apply same_context_refl.
  - destruct (_ && _); [|apply same_context_refl].
    eapply same_context_trans; [apply advance_context|apply IH].
Qed.

Lemma skipWhitespace_loop_context fuel lx :
  same_context lx (skipWhitespace_loop fuel lx).
Proof.
  revert lx. induction fuel as [|fuel IH]; intros lx;
    cbn [skipWhitespace_loop].
  - apply same_context_refl.
  - destruct (isAtEnd lx); [apply same_context_refl|].
    destruct (_ || _).
    { eapply same_context_trans; [apply advance_context|apply IH]. }
    destruct (_ && _); [|apply same_context_refl].
    eapply same_context_trans; [|apply IH].
    eapply same_context_trans; [apply advance_context|].
    eapply same_context_trans; [apply advance_context|].
    eapply same_context_trans; [apply advance_context|].
    eapply same_context_trans; [apply skipToEol_context|].
    destruct (negb _); [apply advance_context|apply same_context_refl].
Qed.

Lemma skipWhitespace_context lx : same_context lx (skipWhitespace lx).
Proof. apply skipWhitespace_loop_context. Qed.

Lemma skipBlockComment_loop_context fuel depth lx :
  same_context lx (skipBlockComment_loop fuel depth lx).
Proof.
  revert depth lx. induction fuel as [|fuel IH]; intros depth lx; simpl.
  - apply same_context_refl.
  - destruct (_ && _); [|apply same_context_refl].
    destruct (_ && _).
    { eapply same_context_trans; [apply advance_context|].
      eapply same_context_trans; [apply advance_context|apply IH]. }
    destruct (_ && _).
    { eapply same_context_trans; [apply advance_context|].
      eapply same_context_trans; [apply advance_context|apply IH]. }
    eapply same_context_trans; [apply advance_context|apply IH].
Qed.

Lemma scanDigits_context fuel num lx :
  same_context lx (snd (scanDigits fuel num lx)).
Proof.
  revert num lx. induction fuel as [|fuel IH]; intros num lx; simpl.
  - apply same_context_refl.
  - destruct (_ && _); [|apply same_context_refl].
    eapply same_context_trans; [apply advance_context|apply IH].
Qed.

Lemma scanIdentChars_context fuel ident lx :
  same_context lx (snd (scanIdentChars fuel ident lx)).
Proof.
  revert ident lx. induction fuel as [|fuel IH]; intros ident lx; simpl.
  - apply same_context_refl.
  - destruct (_ && _); [|apply same_context_refl].
    eapply same_context_trans; [apply advance_context|apply IH].
Qed.

Lemma scanString_loop_context fuel delimiter str lx str' lx' :
  scanString_loop fuel delimiter str lx = LexOk (str', lx') ->
  same_context lx lx'.
Proof.
  revert str lx. induction fuel as [|fuel IH]; intros str lx; simpl; [done|].
  destruct (isAtEnd lx).
  { intros [= <- <-]. apply same_context_refl. }
  destruct (Ascii.eqb (current lx) delimiter).
  - destruct (Ascii.eqb (peek lx 1) delimiter).
    + intros H. apply IH in H.
      eapply same_context_trans; [apply advance_context|].
      eapply same_context_trans; [apply advance_context|done].
    + intros [= <- <-]. apply advance_context.
  - destruct (Ascii.eqb (current lx) newline); [done|].
    intros H. apply IH in H.
    eapply same_context_trans; [apply advance_context|done].
Qed.

Lemma makeToken_emits lx0 lx t lex (P : TokenType -> Prop) :
  same_context lx0 lx -> P t -> emits lx0 (LexOk (makeToken lx t lex)) P.
Proof.
  intros (_&Hp&_) HP tok lx' [= <- <-]. simpl. by rewrite Hp.
Qed.

Lemma scanString_emits delimiter lx :
  emits lx (scanString delimiter lx) (fun t => t = STRING).
Proof.
  intros tok lx'. unfold scanString.
  destruct (scanString_loop _ _ _ _) as [[str lx1]| | |] eqn:E; try done.
  intros [= <- <-]. simpl. split; [done|]. split; [|done].
  apply scanString_loop_context in E.
  destruct E as (_&->&_). apply advance_context.
Qed.

Lemma scanDecimalPart_context num lx :
  same_context lx (snd (scanDecimalPart num lx)).
Proof.
  unfold scanDecimalPart. destruct (_ && _); [|apply same_context_refl].
  eapply same_context_trans; [apply advance_context|apply scanDigits_context].
Qed.

Lemma scanExponentSign_context num lx :
  same_context lx (snd (scanExponentSign num lx)).
Proof.
  unfold scanExponentSign.
  destruct (_ && _); [apply advance_context|apply same_context_refl].
Qed.

Lemma scanExponentPart_context num lx :
  same_context lx (snd (scanExponentPart num lx)).
Proof.
  unfold scanExponentPart. destruct (_ && _); [|apply same_context_refl].
  pose proof (scanExponentSign_context (push_back num (current lx))
                (advance_ lx)) as H.
  destruct (scanExponentSign _ _) as [n l]. simpl in H.
  eapply same_context_trans; [apply advance_context|].
  eapply same_context_trans; [exact H|apply scanDigits_context].
Qed.

Lemma scanComplexSuffix_context num lx :
  same_context lx (snd (fst (scanComplexSuffix num lx))).
Proof.
  unfold scanComplexSuffix.
  destruct (_ && _); [apply advance_context|apply same_context_refl].
Qed.

Lemma scanNumber_emits lx :
  emits lx (scanNumber stod lx) (fun t => t = NUMBER).
Proof.
  intros tok lx'. unfold scanNumber.
  pose proof (scanDigits_context (remaining lx) EmptyString lx) as H1.
  destruct (scanDigits (remaining lx) EmptyString lx) as [num1 lx1].
  pose proof (scanDecimalPart_context num1 lx1) as H2.
  destruct (scanDecimalPart num1 lx1) as [num2 lx2].
  pose proof (scanExponentPart_context num2 lx2) as H3.
  destruct (scanExponentPart num2 lx2) as [num3 lx3].
  pose proof (scanComplexSuffix_context num3 lx3) as H4.
  destruct (scanComplexSuffix num3 lx3) as [[num4 lx4] complex].
  simpl in H1, H2, H3, H4.
  assert (H : same_context lx lx4).
  { eapply same_context_trans; [exact H1|].
    eapply same_context_trans; [exact H2|].
    eapply same_context_trans; [exact H3|exact H4]. }
  destruct complex; (destruct (stod _); [|done]); intros [= <- <-]; simpl;
    repeat split; apply H.
Qed.

Lemma keywords_not_TRANSPOSE ident t : keywords_ ident = Some t -> t <> TRANSPOSE.
Proof.
  unfold keywords_.
  repeat (destruct (String.eqb ident _); [by intros [= <-]|]). done.
Qed.

Lemma scanIdentifierOrKeyword_emits lx :
  emits lx (LexOk (scanIdentifierOrKeyword lx)) (fun t => t <> TRANSPOSE).
Proof.
  intros tok lx'. unfold scanIdentifierOrKeyword.
  pose proof (scanIdentChars_context (remaining lx) EmptyString lx) as H.
  destruct (scanIdentChars _ _ _) as [ident lx1]. simpl in H.
  intros [= <- <-]. simpl. split; [done|]. split; [apply H|].
  destruct (keywords_ ident) eqn:E; [by eapply keywords_not_TRANSPOSE|done].
Qed.

Lemma scanOperator_emits lx0 c startLine startCol lx :
  same_context lx0 lx ->
  emits lx0 (scanOperator c startLine startCol lx) (fun t => t <> TRANSPOSE).
Proof.
  intros Hc. unfold scanOperator.
  assert (Hadv : same_context lx0 (advance_ lx)).
  { eapply same_context_trans; [exact Hc|apply advance_context]. }
  repeat
    (match goal with
     | |- emits _ (if ?b then _ else _) _ => destruct b
     | |- emits _ (LexOk (makeToken _ _ _)) _ =>
         apply makeToken_emits; [assumption|discriminate]
     end).
  by intros tok lx'.
Qed.


Lemma context_isTransposeContext lx lx' :
  same_context lx lx' -> isTransposeContext lx' = isTransposeContext lx.
Proof. intros (H&_). unfold isTransposeContext. by rewrite H. Qed.

(** [nextToken] leaves the token it returns in [lastToken_], and returns a
    [TRANSPOSE] token only in a transpose context. *)
Lemma nextToken_emits fuel lx :
  hasPeeked_ lx = false ->
  emits lx (nextToken stod fuel lx)
        (fun t => t = TRANSPOSE -> isTransposeContext lx = true).
Proof.
  revert lx. induction fuel as [|fuel IH]; intros lx Hp; [by intros ??|].
  cbn [nextToken]. rewrite Hp.
  pose proof (skipWhitespace_context lx) as Hws.
  set (lx1 := skipWhitespace lx) in *.
  assert (Hp1 : hasPeeked_ lx1 = false) by (destruct Hws as (_&->&_); done).
  assert (Hrec : forall lx2, same_context lx lx2 ->
            emits lx (nextToken stod fuel lx2)
              (fun t => t = TRANSPOSE -> isTransposeContext lx = true)).
  { intros lx2 H2 tok lx' E.
    assert (Hp2 : hasPeeked_ lx2 = false) by (destruct H2 as (_&->&_); done).
    destruct (IH lx2 Hp2 tok lx' E) as (?&?&?).
    split; [done|]. split; [congruence|].
    by rewrite <- (context_isTransposeContext _ _ H2). }
  destruct (isAtEnd lx1).
  { apply makeToken_emits; [done|discriminate]. }
  destruct (Ascii.eqb (current lx1) newline).
  { assert (same_context lx (advance_ lx1)).
    { eapply same_context_trans; [exact Hws|apply advance_context]. }
    destruct (_ && _); [apply makeToken_emits; [done|discriminate]|].
    by apply Hrec. }
  destruct (Ascii.eqb (current lx1) "%").
  { destruct (Ascii.eqb (peek lx1 1) "{").
    - apply Hrec.
      eapply same_context_trans; [exact Hws|].
      eapply same_context_trans; [apply advance_context|].
      eapply same_context_trans; [apply advance_context|].
      apply skipBlockComment_loop_context.
    - assert (same_context lx (skipLineComment lx1)).
      { eapply same_context_trans; [exact Hws|apply skipToEol_context]. }
      destruct (_ && _); [apply makeToken_emits; [done|discriminate]|].
      by apply Hrec. }
  destruct (_ || _).
  { intros tok lx' E. destruct (scanNumber_emits lx1 tok lx' E) as (?&?&->).
    split; [done|]. split; [congruence|done]. }
  destruct (Ascii.eqb (current lx1) dquote).
  { intros tok lx' E. destruct (scanString_emits _ lx1 tok lx' E) as (?&?&->).
    split; [done|]. split; [congruence|done]. }
  destruct (Ascii.eqb (current lx1) quote).
  { destruct (isTransposeContext lx1) eqn:Ectx.
    - apply makeToken_emits.
      + eapply same_context_trans; [exact Hws|apply advance_context].
      + intros _. by rewrite <- (context_isTransposeContext _ _ Hws).
    - intros tok lx' E. destruct (scanString_emits _ lx1 tok lx' E) as (?&?&->).
      split; [done|]. split; [congruence|done]. }
  destruct (_ || _).
  { intros tok lx' E.
    destruct (scanIdentifierOrKeyword_emits lx1 tok lx' E) as (?&?&?).
    split; [done|]. split; [congruence|done]. }
  intros tok lx' E.
  assert (Hadv : same_context lx1 (advance_ lx1)) by apply advance_context.
  destruct (scanOperator_emits lx1 _ _ _ _ Hadv tok lx' E) as (?&?&?).
  split; [done|]. split; [congruence|done].
Qed.



End LexerFacts.

Section ScanStringFacts.

Variable stod : string -> option float.








Lemma remaining_advance lx :
  isAtEnd lx = false -> (remaining (advance_ lx) < remaining lx)%nat.
Proof.
  unfold remaining, isAtEnd. intros H. apply Z.leb_gt in H.
  rewrite advance_size, advance_pos. lia.
Qed.

Lemma remaining_advance_le lx : (remaining (advance_ lx) <= remaining lx)%nat.
Proof. unfold remaining. rewrite advance_size, advance_pos. lia. Qed.





End ScanStringFacts.

Section TokenizeFacts.

Variable stod : string -> option float.

Lemma skipWhitespace_at_end lx : isAtEnd lx = true -> skipWhitespace lx = lx.
Proof.
  intros H. unfold skipWhitespace. destruct (remaining lx); [done|].
  cbn [skipWhitespace_loop]. by rewrite H.
Qed.

Lemma remaining_pos lx : isAtEnd lx = false -> exists n, remaining lx = S n.
Proof.
  unfold isAtEnd, remaining. intros H. apply Z.leb_gt in H.
  exists (Z.to_nat (size lx - pos_ lx) - 1)%nat. lia.
Qed.









Lemma isAtEnd_Lexer_new_cons c s : isAtEnd (Lexer_new (String c s)) = false.
Proof. unfold isAtEnd, size. simpl. apply Z.leb_gt. lia. Qed.

Lemma current_Lexer_new_cons c s : current (Lexer_new (String c s)) = c.
Proof. reflexivity. Qed.


End TokenizeFacts.




(** * Properties of the matrix runtime *)

Section Loops.

Context {A : Type}.

Lemma for_nat_S (body : Z -> A -> Outcome A) (init : A) (k : nat) :
  fold_left (fun acc i => let* a := acc in body (Z.of_nat i) a)
            (seq 0 (S k)) (Ok init)
  = (let* a := fold_left (fun acc i => let* a := acc in body (Z.of_nat i) a)
                         (seq 0 k) (Ok init) in
     body (Z.of_nat k) a).
Proof. by rewrite seq_S, fold_left_app. Qed.

(** A loop whose every turn succeeds and keeps an invariant succeeds, and
    the invariant holds at the end. *)
Lemma for_invariant (P : Z -> A -> Prop) (n : Z)
  (body : Z -> A -> Outcome A) (init : A) :
  0 <= n -> P 0 init ->
  (forall i a, 0 <= i < n -> P i a ->
     exists a', body i a = Ok a' /\ P (i + 1) a') ->
  exists a, for_ n body init = Ok a /\ P n a.
Proof.
  intros Hn H0 Hstep. unfold for_.
  assert (H : forall k, (k <= Z.to_nat n)%nat ->
            exists a, fold_left (fun acc i => let* a := acc in body (Z.of_nat i) a)
                                (seq 0 k) (Ok init) = Ok a
                      /\ P (Z.of_nat k) a).
  { induction k as [|k IH]; intros Hk.
    - exists init. by split.
    - destruct IH as (a & E & Pa); [lia|].
      rewrite for_nat_S, E. simpl.
      destruct (Hstep (Z.of_nat k) a) as (a' & E' & Pa'); [lia|done|].
      exists a'. split; [done|].
      by replace (Z.of_nat (S k)) with (Z.of_nat k + 1) by lia. }
  destruct (H (Z.to_nat n)) as (a & E & Pa); [lia|].
  exists a. split; [done|]. by rewrite Z2Nat.id in Pa.
Qed.

(** A loop that throws at turn [k], every earlier turn succeeding, throws. *)
Lemma for_throws (P : Z -> A -> Prop) (n k : Z) (e : Exn)
  (body : Z -> A -> Outcome A) (init : A) :
  0 <= k < n -> P 0 init ->
  (forall i a, 0 <= i < k -> P i a ->
     exists a', body i a = Ok a' /\ P (i + 1) a') ->
  (forall a, P k a -> body k a = Throw e) ->
  for_ n body init = Throw e.
Proof.
  intros Hk H0 Hstep Hthrow.
  destruct (for_invariant P k body init) as (a & E & Pa); [lia|done|done|].
  unfold for_ in *.
  replace (Z.to_nat n) with (Z.to_nat k + S (Z.to_nat (n - k - 1)))%nat by lia.
  rewrite seq_app, fold_left_app, E. simpl.
  rewrite Z2Nat.id by lia. rewrite (Hthrow a Pa).
  generalize (seq (S (Z.to_nat k)) (Z.to_nat (n - k - 1))).
  intros l. induction l as [|x l IH]; [done|]. simpl. exact IH.
Qed.

End Loops.

Lemma wrap64_small z : 0 <= z < SIZE_MAX_plus_1 -> wrap64 z = z.
Proof. intros H. unfold wrap64. by apply Z.mod_small. Qed.

Lemma SIZE_MAX_plus_1_pos : 0 < SIZE_MAX_plus_1.
Proof. done. Qed.

Lemma index_in_range r c i j :
  0 <= i < r -> 0 <= j < c -> 0 <= i * c + j < r * c.
Proof.
  intros Hi Hj.
  assert (0 <= i * c) by (apply Z.mul_nonneg_nonneg; lia).
  assert ((i + 1) * c <= r * c) by (apply Z.mul_le_mono_nonneg_r; lia).
  lia.
Qed.

Lemma index_injective c i j i' j' :
  0 <= j < c -> 0 <= j' < c -> 0 <= i -> 0 <= i' ->
  i * c + j = i' * c + j' -> i = i' /\ j = j'.
Proof.
  intros Hj Hj' Hi Hi' H.
  assert (i = i'); [|subst; lia].
  destruct (Z.lt_trichotomy i i') as [Hlt|[Heq|Hgt]]; [|done|].
  - assert ((i + 1) * c <= i' * c) by (apply Z.mul_le_mono_nonneg_r; lia). lia.
  - assert ((i' + 1) * c <= i * c) by (apply Z.mul_le_mono_nonneg_r; lia). lia.
Qed.

Lemma at_elem m idx :
  0 <= idx < numel m ->
  at_ m idx = Ok (nth (Z.to_nat idx) (data_ m) 0%float).
Proof.
  intros H. unfold at_.
  replace ((0 <=? idx) && (idx <? numel m)) with true
    by (symmetry; apply andb_true_iff; split; [apply Z.leb_le|apply Z.ltb_lt]; lia).
  rewrite nth_lookup.
  destruct (data_ m !! Z.to_nat idx) eqn:E; [done|].
  apply lookup_ge_None in E. unfold numel in H. lia.
Qed.

Lemma at2_elem m i j :
  wf_Matrix m -> 0 <= i < rows_ m -> 0 <= j < cols_ m ->
  at2 m i j = Ok (elem m i j).
Proof.
  intros (Hr & Hc & Hsz & Hn) Hi Hj. unfold at2, elem.
  pose proof (index_in_range _ _ _ _ Hi Hj).
  rewrite wrap64_small by lia. apply at_elem. lia.
Qed.

Lemma set_ok m idx v :
  0 <= idx < numel m ->
  set_ m idx v = Ok (mkMatrix (rows_ m) (cols_ m) (<[Z.to_nat idx := v]> (data_ m))).
Proof.
  intros H. unfold set_.
  by replace ((0 <=? idx) && (idx <? numel m)) with true
    by (symmetry; apply andb_true_iff; split; [apply Z.leb_le|apply Z.ltb_lt]; lia).
Qed.

Lemma set2_ok m i j v :
  wf_Matrix m -> 0 <= i < rows_ m -> 0 <= j < cols_ m ->
  exists m', set2 m i j v = Ok m' /\ wf_Matrix m'
    /\ rows_ m' = rows_ m /\ cols_ m' = cols_ m
    /\ elem m' i j = v
    /\ forall i' j', 0 <= i' -> 0 <= j' < cols_ m ->
         (i', j') <> (i, j) -> elem m' i' j' = elem m i' j'.
Proof.
  intros (Hr & Hc & Hsz & Hn) Hi Hj. unfold set2.
  pose proof (index_in_range _ _ _ _ Hi Hj).
  rewrite wrap64_small by lia. rewrite set_ok by lia.
  eexists. split; [done|]. unfold wf_Matrix, elem, numel in *. simpl.
  rewrite length_insert. repeat split; try done.
  - rewrite nth_lookup, list_lookup_insert_eq; [done|lia].
  - intros i' j' Hi' Hj' Hne. rewrite !nth_lookup.
    rewrite list_lookup_insert_ne; [done|].
    intros Heq. apply Hne.
    assert (i * cols_ m + j = i' * cols_ m + j') as Heq' by lia.
    destruct (index_injective _ _ _ _ _ Hj Hj' (proj1 Hi) Hi' Heq') as [-> ->].
    done.
Qed.

Lemma Matrix_fill_wf r c v :
  0 <= r -> 0 <= c -> r * c < SIZE_MAX_plus_1 -> wf_Matrix (Matrix_fill r c v).
Proof.
  intros Hr Hc Hsz. unfold wf_Matrix, Matrix_fill, numel. simpl.
  rewrite repeat_length, wrap64_small by nia. repeat split; try done. nia.
Qed.

Lemma Matrix_fill_elem r c v i j :
  0 <= r -> 0 <= c -> r * c < SIZE_MAX_plus_1 ->
  0 <= i < r -> 0 <= j < c -> elem (Matrix_fill r c v) i j = v.
Proof.
  intros Hr Hc Hsz Hi Hj. unfold elem, Matrix_fill. simpl.
  rewrite wrap64_small by nia.
  pose proof (index_in_range _ _ _ _ Hi Hj).
  apply nth_repeat_lt. lia.
Qed.

(** [fill2]: when every element is computed without fault, the result is the
    [r] by [c] matrix of these elements. *)
Lemma fill2_spec r c (f : Z -> Z -> Outcome float) (g : Z -> Z -> float) :
  0 <= r -> 0 <= c -> r * c < SIZE_MAX_plus_1 ->
  (forall i j, 0 <= i < r -> 0 <= j < c -> f i j = Ok (g i j)) ->
  exists m, fill2 r c f = Ok m /\ wf_Matrix m
    /\ rows_ m = r /\ cols_ m = c
    /\ forall i j, 0 <= i < r -> 0 <= j < c -> elem m i j = g i j.
Proof.
  intros Hr Hc Hsz Hf. unfold fill2.
  set (Inv := fun (i j : Z) (m : Matrix) =>
    wf_Matrix m /\ rows_ m = r /\ cols_ m = c
    /\ (forall i' j', 0 <= i' < i -> 0 <= j' < c -> elem m i' j' = g i' j')
    /\ (forall j', 0 <= j' < j -> elem m i j' = g i j')).
  destruct (for_invariant (fun i m => Inv i 0 m) r
              (fun i m => for_ c (fun j m => let* v := f i j in set2 m i j v) m)
              (Matrix_new r c)) as (m & E & Hm).
  - done.
  - refine (conj _ (conj _ (conj _ (conj _ _)))); try done;
      [by apply Matrix_fill_wf|intros; lia..].
  - intros i m Hi (Hwf & Hrm & Hcm & Hrows & _).
    destruct (for_invariant (fun j m => Inv i j m) c
                (fun j m => let* v := f i j in set2 m i j v) m)
      as (m' & E' & Hwf' & Hrm' & Hcm' & Hrows' & Hrow').
    + done.
    + refine (conj _ (conj _ (conj _ (conj _ _)))); try done. intros; lia.
    + intros j m1 Hj (Hwf1 & Hrm1 & Hcm1 & Hrows1 & Hrow1).
      rewrite (Hf i j) by done. simpl.
      destruct (set2_ok m1 i j (g i j))
        as (m2 & E2 & Hwf2 & Hrm2 & Hcm2 & Hij & Hoth); [done|lia|lia|].
      exists m2. split; [done|].
      refine (conj _ (conj _ (conj _ (conj _ _)))); try done; try congruence.
      * intros i' j' Hi' Hj'. rewrite Hoth; [by apply Hrows1|lia|lia|].
        intros [= -> ->]. lia.
      * intros j' Hj'. destruct (decide (j' = j)) as [->|Hne]; [done|].
        rewrite Hoth; [apply Hrow1; lia|lia|lia|]. intros [= ->]. done.
    + exists m'. split; [done|].
      refine (conj _ (conj _ (conj _ (conj _ _)))); try done.
      * intros i' j' Hi' Hj'. destruct (decide (i' = i)) as [->|Hne].
        -- by apply Hrow'.
        -- apply Hrows'; [lia|done].
      * intros; lia.
  - exists m. destruct Hm as (Hwf & Hrm & Hcm & Hrows & _).
    split; [done|]. refine (conj _ (conj _ (conj _ _))); try done.
Qed.

(** ** IEEE 754 facts the identity product needs *)

Section Binary64.

Lemma Prim2SF_inj x y : Prim2SF x = Prim2SF y -> x = y.
Proof.
  intros H. rewrite <- (SF2Prim_Prim2SF x), <- (SF2Prim_Prim2SF y).
  by rewrite H.
Qed.

Lemma finite_valid s m e x :
  Prim2SF x = S754_finite s m e ->
  SpecFloat.fexp prec emax (Z.pos (digits2_pos m) + e) = e /\ e <= emax - prec.
Proof.
  intros E. pose proof (Prim2SF_valid x) as H. rewrite E in H.
  simpl in H. unfold bounded, canonical_mantissa in H.
  apply andb_true_iff in H as [H1 H2].
  apply Z.eqb_eq in H1. apply Z.leb_le in H2. done.
Qed.

(** Rounding [m * 2^52] at exponent [e - 52] gives back [m] at [e]. *)
Lemma round_shifted_mantissa s m e :
  SpecFloat.fexp prec emax (Z.pos (digits2_pos m) + e) = e ->
  e <= emax - prec ->
  binary_round_aux prec emax s (Z.pos (4503599627370496 * m)) (-52 + e) loc_Exact
  = S754_finite s m e.
Proof.
  intros Hcan Hle. unfold binary_round_aux.
  assert (E1 : shr_fexp prec emax (Z.pos (4503599627370496 * m)) (-52 + e) loc_Exact
               = ({| shr_m := Z.pos m; shr_r := false; shr_s := false |}, e)).
  { unfold shr_fexp.
    assert (Hd : Zdigits2 (Z.pos (4503599627370496 * m))
                 = Z.pos (digits2_pos m) + 52).
    { simpl. rewrite Pos.mul_1_l, !Pos2Z.inj_succ. lia. }
    rewrite Hd.
    replace (Z.pos (digits2_pos m) + 52 + (-52 + e))
      with (Z.pos (digits2_pos m) + e) by lia.
    rewrite Hcan.
    replace (e - (-52 + e)) with 52 by lia.
    unfold shr. simpl. f_equal. lia. }
  rewrite E1. simpl round_nearest_even.
  assert (E2 : shr_fexp prec emax (Z.pos m) e loc_Exact
               = ({| shr_m := Z.pos m; shr_r := false; shr_s := false |}, e)).
  { unfold shr_fexp. simpl Zdigits2. rewrite Hcan, Z.sub_diag. done. }
  rewrite E2. simpl. apply Z.leb_le in Hle. by rewrite Hle.
Qed.

Lemma Prim2SF_zero : Prim2SF 0%float = S754_zero false.
Proof. reflexivity. Qed.

Lemma Prim2SF_one : Prim2SF 1%float = S754_finite false 4503599627370496 (-52).
Proof. reflexivity. Qed.

Lemma is_zero_finite x : is_zero x = true -> is_finite x = true.
Proof. unfold is_zero, is_finite. by destruct (Prim2SF x). Qed.

(** [1.0 * x] is [x] for every finite [x]. *)
Lemma mul_1_l x : is_finite x = true -> (1 * x)%float = x.
Proof.
  unfold is_finite. intros Hx. apply Prim2SF_inj.
  rewrite FloatAxioms.mul_spec, Prim2SF_one.
  destruct (Prim2SF x) as [s|s| |s m e] eqn:E; try done.
  destruct (finite_valid _ _ _ _ E) as [Hcan Hle].
  unfold SF64mul, SFmul. by apply round_shifted_mantissa.
Qed.

(** [x * 1.0] is [x] for every finite [x]. *)
Lemma mul_1_r x : is_finite x = true -> (x * 1)%float = x.
Proof.
  unfold is_finite. intros Hx. apply Prim2SF_inj.
  rewrite FloatAxioms.mul_spec, Prim2SF_one.
  destruct (Prim2SF x) as [s|s| |s m e] eqn:E; try done.
  { by destruct s. }
  destruct (finite_valid _ _ _ _ E) as [Hcan Hle].
  unfold SF64mul, SFmul. rewrite Pos.mul_comm, Z.add_comm, xorb_false_r.
  by apply round_shifted_mantissa.
Qed.

(** [0.0 * x] is a zero for every finite [x]. *)
Lemma mul_0_l x : is_finite x = true -> is_zero (0 * x)%float = true.
Proof.
  unfold is_finite, is_zero. intros Hx.
  rewrite FloatAxioms.mul_spec, Prim2SF_zero.
  by destruct (Prim2SF x).
Qed.

(** [+0.0 + z] is [+0.0] for a zero [z] of either sign. *)
Lemma add_0_zero z : is_zero z = true -> (0 + z)%float = 0%float.
Proof.
  unfold is_zero. intros Hz. apply Prim2SF_inj.
  rewrite FloatAxioms.add_spec, Prim2SF_zero.
  destruct (Prim2SF z) as [s|s| |s m e]; try done. by destruct s.
Qed.

(** [+0.0 + x] is [x] for a finite nonzero [x]. *)
Lemma add_0_l x :
  is_finite x = true -> is_zero x = false -> (0 + x)%float = x.
Proof.
  unfold is_finite, is_zero. intros Hx Hnz. apply Prim2SF_inj.
  rewrite FloatAxioms.add_spec, Prim2SF_zero.
  by destruct (Prim2SF x).
Qed.

(** [x + z] is [x] for a finite nonzero [x] and a zero [z]. *)
Lemma add_zero_r x z :
  is_finite x = true -> is_zero x = false -> is_zero z = true ->
  (x + z)%float = x.
Proof.
  unfold is_finite, is_zero. intros Hx Hnz Hz. apply Prim2SF_inj.
  rewrite FloatAxioms.add_spec.
  destruct (Prim2SF x); try done. by destruct (Prim2SF z).
Qed.

Lemma eqb_refl_finite x : is_finite x = true -> PrimFloat.eqb x x = true.
Proof.
  unfold is_finite. intros Hx. rewrite FloatAxioms.eqb_spec.
  destruct (Prim2SF x) as [s|s| |s m e]; try done.
  unfold SFeqb, SFcompare. rewrite Z.compare_refl.
  assert (Pos.compare_cont Eq m m = Eq) as -> by apply Pos.compare_cont_refl.
  by destruct s.
Qed.

Lemma eqb_zero_zero x : is_zero x = true -> PrimFloat.eqb 0 x = true.
Proof.
  unfold is_zero. intros Hx. rewrite FloatAxioms.eqb_spec, Prim2SF_zero.
  by destruct (Prim2SF x).
Qed.

End Binary64.

(** ** The identity matrix and the matrix product *)

Lemma eye_spec n :
  0 <= n -> n * n < SIZE_MAX_plus_1 ->
  exists E, eye n = Ok E /\ wf_Matrix E /\ rows_ E = n /\ cols_ E = n
    /\ forall i j, 0 <= i < n -> 0 <= j < n ->
         elem E i j = if decide (i = j) then 1%float else 0%float.
Proof.
  intros Hn Hsz. unfold eye.
  destruct (for_invariant
    (fun k m => wf_Matrix m /\ rows_ m = n /\ cols_ m = n
       /\ forall i j, 0 <= i < n -> 0 <= j < n ->
            elem m i j = if decide (i = j /\ i < k) then 1%float else 0%float)
    n (fun i m => set2 m i i 1%float) (Matrix_new n n)) as (E & HE & Hwf & Hr & Hc & Hel).
  - done.
  - refine (conj _ (conj _ (conj _ _))); try done.
    + by apply Matrix_fill_wf.
    + intros i j Hi Hj. unfold Matrix_new.
      rewrite Matrix_fill_elem by done. by rewrite decide_False by lia.
  - intros k m Hk (Hwf & Hr & Hc & Hel).
    destruct (set2_ok m k k 1%float) as (m' & E' & Hwf' & Hr' & Hc' & Hkk & Hoth);
      [done|lia..|].
    exists m'. split; [done|].
    refine (conj _ (conj _ (conj _ _))); try congruence.
    intros i j Hi Hj. destruct (decide ((i, j) = (k, k))) as [[= -> ->]|Hne].
    + rewrite Hkk. by rewrite decide_True by lia.
    + rewrite Hoth by (try done; lia). rewrite Hel by done.
      destruct (decide (i = j /\ i < k)) as [[-> ?]|?].
      * by rewrite decide_True by lia.
      * rewrite decide_False; [done|]. intros [-> ?].
        destruct (decide (j = k)) as [->|?]; [done|lia].
  - exists E. split; [done|]. refine (conj _ (conj _ (conj _ _))); try done.
    intros i j Hi Hj. rewrite Hel by done.
    destruct (decide (i = j)) as [->|?].
    + by rewrite decide_True by lia.
    + rewrite decide_False; [done|]. by intros [? _].
Qed.

Lemma map_data_spec (f : float -> float) m :
  wf_Matrix m ->
  exists res, map_data f m = Ok res /\ wf_Matrix res
    /\ rows_ res = rows_ m /\ cols_ res = cols_ m
    /\ forall i j, 0 <= i < rows_ m -> 0 <= j < cols_ m ->
         elem res i j = f (elem m i j).
Proof.
  intros Hwf. pose proof Hwf as (Hr & Hc & Hsz & Hn). unfold map_data.
  destruct (for_invariant
    (fun k res => wf_Matrix res /\ rows_ res = rows_ m /\ cols_ res = cols_ m
       /\ forall idx, 0 <= idx < k ->
            nth (Z.to_nat idx) (data_ res) 0%float
            = f (nth (Z.to_nat idx) (data_ m) 0%float))
    (numel m) (fun i res => let* v := at_ m i in set_ res i (f v))
    (Matrix_new (rows_ m) (cols_ m))) as (res & E & Hwf' & Hr' & Hc' & Hel).
  - unfold numel. lia.
  - refine (conj _ (conj _ (conj _ _))); try done.
    + by apply Matrix_fill_wf.
    + intros; lia.
  - intros k res Hk (Hwf1 & Hr1 & Hc1 & Hel1).
    rewrite at_elem by done. simpl.
    assert (Hnum : numel res = numel m).
    { destruct Hwf1 as (_ & _ & _ & ->). by rewrite Hr1, Hc1. }
    rewrite set_ok by lia. eexists. split; [done|].
    refine (conj _ (conj _ (conj _ _))); try done.
    + unfold wf_Matrix, numel in *. simpl. by rewrite length_insert.
    + simpl. intros idx Hidx. rewrite nth_lookup.
      destruct (decide (idx = k)) as [->|Hne].
      * rewrite list_lookup_insert_eq; [done|]. unfold numel in *. lia.
      * rewrite list_lookup_insert_ne by lia. rewrite <- nth_lookup.
        apply Hel1. lia.
  - exists res. split; [done|]. refine (conj _ (conj _ (conj _ _))); try done.
    intros i j Hi Hj. unfold elem. rewrite Hc'.
    pose proof (index_in_range _ _ _ _ Hi Hj). apply Hel. lia.
Qed.

Lemma elem_in_data m i j :
  wf_Matrix m -> 0 <= i < rows_ m -> 0 <= j < cols_ m ->
  elem m i j ∈ data_ m.
Proof.
  intros (Hr & Hc & Hsz & Hn) Hi Hj. unfold elem.
  pose proof (index_in_range _ _ _ _ Hi Hj). unfold numel in Hn.
  apply list_elem_of_In, nth_In. lia.
Qed.

(** One row of the identity times one column of [A]: the accumulated sum is
    [A(i, j)], a zero [A(i, j)] of either sign coming out as [+0.0]. *)
Lemma identity_row_sum n E A i j :
  wf_Matrix E -> rows_ E = n -> cols_ E = n ->
  (forall i j, 0 <= i < n -> 0 <= j < n ->
     elem E i j = if decide (i = j) then 1%float else 0%float) ->
  wf_Matrix A -> rows_ A = n -> cols_ A = n ->
  (forall x, x ∈ data_ A -> is_finite x = true) ->
  0 <= i < n -> 0 <= j < n ->
  exists sum,
    for_ n (fun k sum =>
      let* x := at2 E i k in
      let* y := at2 A k j in
      Ok (sum + x * y)%float) 0%float = Ok sum
    /\ ((is_zero (elem A i j) = false /\ sum = elem A i j)
        \/ (is_zero (elem A i j) = true /\ sum = 0%float)).
Proof.
  intros HwfE HrE HcE HE HwfA HrA HcA Hfin Hi Hj.
  set (a := elem A i j).
  assert (Ha : is_finite a = true).
  { apply Hfin, elem_in_data; [done|lia..]. }
  destruct (for_invariant
    (fun k sum => (k <= i -> sum = 0%float)
       /\ (i < k -> (is_zero a = false /\ sum = a)
                    \/ (is_zero a = true /\ sum = 0%float)))
    n (fun k sum =>
      let* x := at2 E i k in
      let* y := at2 A k j in
      Ok (sum + x * y)%float) 0%float) as (sum & Esum & _ & Hsum).
  - lia.
  - split; [done|lia].
  - intros k sum Hk [Hbefore Hafter].
    rewrite (at2_elem E i k) by (try done; lia).
    rewrite (at2_elem A k j) by (try done; lia). simpl.
    eexists. split; [done|].
    assert (Hy : is_finite (elem A k j) = true).
    { apply Hfin, elem_in_data; [done|lia..]. }
    rewrite HE by lia.
    destruct (decide (i = k)) as [<-|Hne].
    + (* the diagonal term *)
      rewrite mul_1_l by done. rewrite (Hbefore ltac:(lia)).
      split; [lia|]. intros _. fold a.
      destruct (is_zero a) eqn:Hz.
      * right. split; [done|]. by apply add_0_zero.
      * left. split; [done|]. by apply add_0_l.
    + (* an off-diagonal term is a zero *)
      pose proof (mul_0_l _ Hy) as Hz.
      split.
      * intros Hle. rewrite (Hbefore ltac:(lia)). by apply add_0_zero.
      * intros Hlt. destruct (Hafter ltac:(lia)) as [[Hnz ->]|[Hza ->]].
        -- left. split; [done|]. by apply add_zero_r.
        -- right. split; [done|]. by apply add_0_zero.
  - exists sum. split; [done|]. apply Hsum. lia.
Qed.

Lemma identity_product n A :
  1 <= n -> wf_Matrix A -> rows_ A = n -> cols_ A = n ->
  (forall x, x ∈ data_ A -> is_finite x = true) ->
  exists E M,
    eye n = Ok E /\ Matrix_mul E A = Ok M
    /\ wf_Matrix M /\ rows_ M = n /\ cols_ M = n
    /\ forall i j, 0 <= i < n -> 0 <= j < n ->
         (elem M i j = elem A i j
          \/ (is_zero (elem A i j) = true /\ elem M i j = 0%float))
         /\ PrimFloat.eqb (elem M i j) (elem A i j) = true.
Proof.
  intros Hn HwfA HrA HcA Hfin.
  pose proof HwfA as (_ & _ & Hsz & _). rewrite HrA, HcA in Hsz.
  destruct (eye_spec n) as (E & HE & HwfE & HrE & HcE & HelE); [lia|done|].
  exists E. unfold Matrix_mul, Matrix_isScalar. rewrite HrE, HcE, HrA, HcA.
  destruct (decide (n = 1)) as [->|Hne].
  - (* eye(1) is a scalar: the product is A times the scalar 1.0 *)
    simpl. unfold scalarValue, Matrix_isScalar. rewrite HrE, HcE. simpl.
    assert (at_ E 0 = Ok 1%float) as ->.
    { rewrite at_elem by (destruct HwfE as (_ & _ & _ & ->); lia).
      pose proof (HelE 0 0 ltac:(lia) ltac:(lia)) as H.
      unfold elem in H. rewrite HcE in H. f_equal. exact H. }
    simpl. unfold Matrix_mul_scalar.
    destruct (map_data_spec (fun v => (v * 1)%float) A HwfA)
      as (M & EM & HwfM & HrM & HcM & HelM).
    exists M. split; [done|]. split; [done|].
    refine (conj _ (conj _ (conj _ _))); try congruence.
    intros i j Hi Hj. rewrite HelM by lia.
    assert (Hx : is_finite (elem A i j) = true).
    { apply Hfin, elem_in_data; [done|lia..]. }
    rewrite mul_1_r by done. split; [by left|by apply eqb_refl_finite].
  - replace (n =? 1) with false by (symmetry; apply Z.eqb_neq; done).
    simpl. rewrite Z.eqb_refl. simpl.
    set (f := fun i j =>
      for_ n (fun k sum =>
        let* x := at2 E i k in
        let* y := at2 A k j in
        Ok (sum + x * y)%float) 0%float).
    destruct (fill2_spec n n f
                (fun i j => match f i j with Ok v => v | _ => 0%float end))
      as (M & EM & HwfM & HrM & HcM & HelM); [lia|lia|done| |].
    { intros i j Hi Hj.
      destruct (identity_row_sum n E A i j) as (sum & Es & _); try done.
      unfold f. by rewrite Es. }
    exists M. split; [done|]. split; [done|].
    refine (conj _ (conj _ (conj _ _))); try done.
    intros i j Hi Hj. rewrite HelM by done.
    destruct (identity_row_sum n E A i j) as (sum & Es & Hs); try done.
    unfold f. rewrite Es.
    assert (Hx : is_finite (elem A i j) = true).
    { apply Hfin, elem_in_data; [done|lia..]. }
    destruct Hs as [[Hnz ->]|[Hz ->]].
    + split; [by left|by apply eqb_refl_finite].
    + split; [by right|by apply eqb_zero_zero].
Qed.

(** ** The shape rule of the elementwise operations *)

Lemma broadcastCheck_spec a b :
  broadcastCheck a b =
    if decide (shapes_compatible a b) then Ok (broadcast_shape a b)
    else Throw (RuntimeError (dimensions_must_agree a b)).
Proof.
  unfold broadcastCheck, broadcast_shape, shapes_compatible, Matrix_isScalar,
    dimensions_must_agree.
  destruct (Z.eqb_spec (rows_ a) (rows_ b)), (Z.eqb_spec (cols_ a) (cols_ b)),
    (Z.eqb_spec (rows_ a) 1), (Z.eqb_spec (cols_ a) 1),
    (Z.eqb_spec (rows_ b) 1), (Z.eqb_spec (cols_ b) 1); simpl;
    repeat (case_decide; try done; try lia; try tauto).
Qed.

Lemma getWithBroadcast_elem m i j :
  wf_Matrix m ->
  0 <= (if rows_ m =? 1 then 0 else i) < rows_ m ->
  0 <= (if cols_ m =? 1 then 0 else j) < cols_ m ->
  getWithBroadcast m i j
  = Ok (elem m (if rows_ m =? 1 then 0 else i) (if cols_ m =? 1 then 0 else j)).
Proof. intros. unfold getWithBroadcast. by apply at2_elem. Qed.

(** Within the broadcast shape both operands are read inside their
    extents. *)
Lemma broadcast_shape_reads a b r c :
  wf_Matrix a -> wf_Matrix b -> nonempty a -> nonempty b ->
  shapes_compatible a b -> broadcast_shape a b = (r, c) ->
  0 <= r /\ 0 <= c /\ r * c < SIZE_MAX_plus_1
  /\ forall i j, 0 <= i < r -> 0 <= j < c ->
       (0 <= (if rows_ a =? 1 then 0 else i) < rows_ a
        /\ 0 <= (if cols_ a =? 1 then 0 else j) < cols_ a)
       /\ (0 <= (if rows_ b =? 1 then 0 else i) < rows_ b
           /\ 0 <= (if cols_ b =? 1 then 0 else j) < cols_ b).
Proof.
  intros (_ & _ & Hsa & _) (_ & _ & Hsb & _) [Hra Hca] [Hrb Hcb] Hcompat.
  unfold broadcast_shape, shapes_compatible in *.
  assert (Hmul : forall x y, x = 1 -> x * y = y) by (intros; subst; lia).
  assert (Hmul' : forall x y, y = 1 -> x * y = x) by (intros; subst; lia).
  repeat case_decide; intros [= <- <-];
    (split; [lia|]); (split; [lia|]);
    (split;
     [ try lia;
       first
         [ destruct (Z.max_spec (cols_ a) (cols_ b)) as [[? ->]|[? ->]];
           first [ lia | replace (rows_ a) with (rows_ b) by lia; lia
                 | replace (rows_ b) with (rows_ a) by lia; lia ]
         | destruct (Z.max_spec (rows_ a) (rows_ b)) as [[? ->]|[? ->]];
           first [ lia | replace (cols_ a) with (cols_ b) by lia; lia
                 | replace (cols_ b) with (cols_ a) by lia; lia ] ]
     | intros i j Hi Hj;
       destruct (Z.eqb_spec (rows_ a) 1), (Z.eqb_spec (cols_ a) 1),
         (Z.eqb_spec (rows_ b) 1), (Z.eqb_spec (cols_ b) 1); lia ]).
Qed.

Lemma elementwise_spec (f : float -> float -> float) a b :
  wf_Matrix a -> wf_Matrix b -> nonempty a -> nonempty b ->
  (shapes_compatible a b ->
     exists m, elementwise f a b = Ok m /\ wf_Matrix m
       /\ (rows_ m, cols_ m) = broadcast_shape a b
       /\ forall i j, 0 <= i < rows_ m -> 0 <= j < cols_ m ->
            elem m i j
            = f (elem a (if rows_ a =? 1 then 0 else i)
                        (if cols_ a =? 1 then 0 else j))
                (elem b (if rows_ b =? 1 then 0 else i)
                        (if cols_ b =? 1 then 0 else j)))
  /\ (~ shapes_compatible a b ->
        elementwise f a b = Throw (RuntimeError (dimensions_must_agree a b))).
Proof.
  intros Hwa Hwb Hna Hnb. unfold elementwise. rewrite broadcastCheck_spec.
  split; intros Hc.
  - rewrite decide_True by done.
    destruct (broadcast_shape a b) as [r c] eqn:Hshape. simpl.
    destruct (broadcast_shape_reads a b r c) as (Hr & Hc' & Hsz & Hreads);
      try done.
    destruct (fill2_spec r c
      (fun i j => let* x := getWithBroadcast a i j in
                  let* y := getWithBroadcast b i j in Ok (f x y))
      (fun i j => f (elem a (if rows_ a =? 1 then 0 else i)
                            (if cols_ a =? 1 then 0 else j))
                    (elem b (if rows_ b =? 1 then 0 else i)
                            (if cols_ b =? 1 then 0 else j))))
      as (m & E & Hwm & Hrm & Hcm & Hel); try done.
    { intros i j Hi Hj. destruct (Hreads i j Hi Hj) as [[? ?] [? ?]].
      by rewrite !getWithBroadcast_elem. }
    exists m. split; [done|]. split; [done|]. split; [by rewrite Hrm, Hcm|].
    intros i j Hi Hj. apply Hel; lia.
  - by rewrite decide_False.
Qed.

(** C9 (as amended). For every n >= 1 and every well-formed n-by-n matrix
    [A] whose entries are all finite, [eye(n) * A] is computed without
    fault and equals [A] element by element under [==]; it is the same
    double, except that a negative zero of [A] comes out as positive zero. *)
Theorem C9_identity_product_of_finite_matrix (n : Z) (A : Matrix) :
  1 <= n -> wf_Matrix A -> rows_ A = n -> cols_ A = n ->
  (forall x, x ∈ data_ A -> is_finite x = true) ->
  exists E M,
    eye n = Ok E /\ Matrix_mul E A = Ok M
    /\ rows_ M = n /\ cols_ M = n
    /\ forall i j, 0 <= i < n -> 0 <= j < n ->
         (elem M i j = elem A i j
          \/ (is_zero (elem A i j) = true /\ elem M i j = 0%float))
         /\ PrimFloat.eqb (elem M i j) (elem A i j) = true.
Proof.
  intros Hn Hwf Hr Hc Hfin.
  destruct (identity_product n A Hn Hwf Hr Hc Hfin)
    as (E & M & HE & HM & _ & HrM & HcM & Hel).
  exists E, M. repeat split; try done; by apply Hel.
Qed.

Lemma C9_witness_2x2 :
  exists E M,
    eye 2 = Ok E
    /\ Matrix_mul E (mkMatrix 2 2 [1; 2; 3; 4]%float) = Ok M
    /\ rows_ M = 2 /\ cols_ M = 2
    /\ forall i j, 0 <= i < 2 -> 0 <= j < 2 ->
         (elem M i j = elem (mkMatrix 2 2 [1; 2; 3; 4]%float) i j
          \/ (is_zero (elem (mkMatrix 2 2 [1; 2; 3; 4]%float) i j) = true
              /\ elem M i j = 0%float))
         /\ PrimFloat.eqb (elem M i j)
              (elem (mkMatrix 2 2 [1; 2; 3; 4]%float) i j) = true.
Proof.
  apply (C9_identity_product_of_finite_matrix 2
           (mkMatrix 2 2 [1; 2; 3; 4]%float)).
  - lia.
  - unfold wf_Matrix, numel. simpl. unfold SIZE_MAX_plus_1. lia.
  - reflexivity.
  - reflexivity.
  - intros x Hx. simpl in Hx.
    repeat (apply elem_of_cons in Hx as [->|Hx]; [reflexivity|]).
    by apply elem_of_nil in Hx.
Defined.

(** C9 as stated fails: with an infinite entry in [A] the product has a NaN
    where [A] has 0, which no tolerance accepts. *)
Lemma C9_counterexample_infinite_entry :
  wf_Matrix matrix_with_infinity
  /\ exists E M,
       eye 2 = Ok E /\ Matrix_mul E matrix_with_infinity = Ok M
       /\ elem matrix_with_infinity 1 0 = 0%float
       /\ elem M 1 0 = nan
       /\ PrimFloat.eqb (elem M 1 0) (elem matrix_with_infinity 1 0) = false
       /\ forall tol,
            PrimFloat.leb
              (abs (elem M 1 0 - elem matrix_with_infinity 1 0)) tol = false.
Proof.
  split.
  { unfold wf_Matrix, numel. simpl. unfold SIZE_MAX_plus_1. lia. }
  eexists. eexists.
  split; [vm_compute; reflexivity|].
  split; [vm_compute; reflexivity|].
  split; [reflexivity|]. split; [reflexivity|]. split; [reflexivity|].
  intros tol. rewrite FloatAxioms.leb_spec.
  change (Prim2SF (abs _)) with S754_nan. reflexivity.
Qed.
(** * Properties of the environments and the interpreter *)

Lemma getGlobalEnv_loop_root fuel h env g :
  getGlobalEnv_loop fuel h env = Ok g ->
  exists ge, h !! g = Some ge /\ parent_ ge = None.
Proof.
  revert env. induction fuel as [|fuel IH]; intros env; simpl;
    destruct (h !! env) as [e|] eqn:E; try done;
    destruct (parent_ e) as [p|] eqn:Ep; try done.
  - intros [= <-]. eauto.
  - apply IH.
  - intros [= <-]. eauto.
Qed.



Section EvaluatorFacts.

Variable pow : float -> float -> float.
Variable builtinFunctions_ : string -> option BuiltinFunc.
Variable findFileFunction_ : list string -> string -> option FunctionDef.

Abbreviation interp := (interpreter pow builtinFunctions_ findFileFunction_).


Lemma executeStmt_S loopFuel fuel s :
  cb_executeStmt (interp loopFuel (S fuel)) s
  = executeStmt_ (interp loopFuel fuel) loopFuel s.
Proof. reflexivity. Qed.


End EvaluatorFacts.



Section ControlFlow.

Variable rec : Callbacks.

Lemma execTryCatch_signal tryBody catchVar catchBody st st' sig :
  is_signal sig ->
  execBlock rec tryBody st = (Throw sig, st') ->
  execTryCatch rec tryBody catchVar catchBody st = (Throw sig, st').
Proof.
  intros Hsig E. unfold execTryCatch. rewrite E.
  by destruct Hsig as [-> | [-> | ->]].
Qed.

Lemma execTryCatch_normal tryBody catchVar catchBody st st' :
  execBlock rec tryBody st = (Ok tt, st') ->
  execTryCatch rec tryBody catchVar catchBody st = (Ok tt, st').
Proof. intros E. unfold execTryCatch. by rewrite E. Qed.

Lemma execTryCatch_RuntimeError tryBody catchVar catchBody st st' what :
  execBlock rec tryBody st = (Throw (RuntimeError what), st') ->
  execTryCatch rec tryBody catchVar catchBody st
  = catch_handler rec catchVar catchBody what "MatFree:runtime" st'.
Proof. intros E. unfold execTryCatch. by rewrite E. Qed.

Lemma execTryCatch_StdException tryBody catchVar catchBody st st' what :
  execBlock rec tryBody st = (Throw (StdException what), st') ->
  execTryCatch rec tryBody catchVar catchBody st
  = catch_handler rec catchVar catchBody what "MatFree:internal" st'.
Proof. intros E. unfold execTryCatch. by rewrite E. Qed.

(** One turn of [execFor]'s loop, the loop variable already bound. *)
Lemma execFor_loop_turn variable mat body j rest st st1 :
  (if rows_ mat =? 1
   then let! x := lift (at2 mat 0 j) in env_set variable (makeScalar x)
   else let! colj := lift (getCol mat j) in env_set variable (makeMatrix colj))
    st = (Ok tt, st1) ->
  execFor_loop rec variable mat body (j :: rest) st
  = match execBlock rec body st1 with
    | (Throw BreakSignal, st2) => (Ok tt, st2)
    | (Throw ContinueSignal, st2) | (Ok _, st2) =>
        execFor_loop rec variable mat body rest st2
    | r => r
    end.
Proof.
  intros E. cbn [execFor_loop]. unfold bindM at 1. rewrite E.
  destruct (execBlock rec body st1) as [[[]|[]| |] st2]; reflexivity.
Qed.

(** One turn of [execWhile]'s loop. *)
Lemma execWhile_loop_turn fuel condition body st :
  execWhile_loop rec fuel condition body st
  = match cb_evalExpr rec condition st with
    | (Ok cond, st1) =>
        match toBool cond with
        | Ok true =>
            match execBlock rec body st1 with
            | (Throw BreakSignal, st2) => (Ok tt, st2)
            | (Throw ContinueSignal, st2) | (Ok _, st2) =>
                match fuel with
                | O => (OutOfFuel, st2)
                | S fuel' => execWhile_loop rec fuel' condition body st2
                end
            | r => r
            end
        | Ok false => (Ok tt, st1)
        | Throw e => (Throw e, st1)
        | Undefined => (Undefined, st1)
        | OutOfFuel => (OutOfFuel, st1)
        end
    | (Throw e, st1) => (Throw e, st1)
    | (Undefined, st1) => (Undefined, st1)
    | (OutOfFuel, st1) => (OutOfFuel, st1)
    end.
Proof.
  destruct fuel; cbn [execWhile_loop]; unfold bindM, lift;
    destruct (cb_evalExpr rec condition st) as [[cond| | |] st1]; try done;
    destruct (toBool cond) as [[]| | |]; try done; simpl;
    destruct (execBlock rec body st1) as [[[]|[]| |] st2]; reflexivity.
Qed.

Lemma catchReturn_ReturnSignal (m : M unit) st st' :
  m st = (Throw ReturnSignal, st') -> catchReturn m st = (Ok tt, st').
Proof. intros E. unfold catchReturn. by rewrite E. Qed.

Lemma catchReturn_other (m : M unit) st st' sig :
  sig = BreakSignal \/ sig = ContinueSignal ->
  m st = (Throw sig, st') -> catchReturn m st = (Throw sig, st').
Proof. intros Hs E. unfold catchReturn. rewrite E. by destruct Hs as [-> | ->]. Qed.

End ControlFlow.

(** C5. A break, continue or return signal raised in the body of a try
    statement leaves the try statement as it is: the catch body is not run and
    no catch variable is bound (the state is the one the body left). Only a
    runtime error or another [std::exception] starts the handler. A loop
    turns break into its own end and continue into its next turn and lets
    return through; the function call turns return into its normal end and
    lets break and continue through. *)
Theorem C5_signals_pass_through_try :
  (forall pow builtins files loopFuel fuel tryBody catchVar catchBody st st' sig,
     is_signal sig ->
     execBlock (interpreter pow builtins files loopFuel fuel) tryBody st
     = (Throw sig, st') ->
     cb_executeStmt (interpreter pow builtins files loopFuel (S fuel))
       (TryCatchStmt tryBody catchVar catchBody) st
     = (Throw sig, st'))
  /\ (forall rec tryBody catchVar catchBody st st' what,
        (execBlock rec tryBody st = (Throw (RuntimeError what), st') ->
         execTryCatch rec tryBody catchVar catchBody st
         = catch_handler rec catchVar catchBody what "MatFree:runtime" st')
        /\ (execBlock rec tryBody st = (Throw (StdException what), st') ->
            execTryCatch rec tryBody catchVar catchBody st
            = catch_handler rec catchVar catchBody what "MatFree:internal" st'))
  /\ (forall rec variable mat body j rest st st1,
        (if rows_ mat =? 1
         then let! x := lift (at2 mat 0 j) in env_set variable (makeScalar x)
         else let! colj := lift (getCol mat j) in
              env_set variable (makeMatrix colj)) st = (Ok tt, st1) ->
        forall st2,
        (execBlock rec body st1 = (Throw BreakSignal, st2) ->
         execFor_loop rec variable mat body (j :: rest) st = (Ok tt, st2))
        /\ (execBlock rec body st1 = (Throw ContinueSignal, st2) ->
            execFor_loop rec variable mat body (j :: rest) st
            = execFor_loop rec variable mat body rest st2)
        /\ (execBlock rec body st1 = (Throw ReturnSignal, st2) ->
            execFor_loop rec variable mat body (j :: rest) st
            = (Throw ReturnSignal, st2)))
  /\ (forall rec fuel condition body st cond st1 st2,
        cb_evalExpr rec condition st = (Ok cond, st1) ->
        toBool cond = Ok true ->
        (execBlock rec body st1 = (Throw BreakSignal, st2) ->
         execWhile_loop rec (S fuel) condition body st = (Ok tt, st2))
        /\ (execBlock rec body st1 = (Throw ContinueSignal, st2) ->
            execWhile_loop rec (S fuel) condition body st
            = execWhile_loop rec fuel condition body st2)
        /\ (execBlock rec body st1 = (Throw ReturnSignal, st2) ->
            execWhile_loop rec (S fuel) condition body st
            = (Throw ReturnSignal, st2)))
  /\ (forall (m : M unit) st st',
        (m st = (Throw ReturnSignal, st') -> catchReturn m st = (Ok tt, st'))
        /\ (m st = (Throw BreakSignal, st') ->
            catchReturn m st = (Throw BreakSignal, st'))
        /\ (m st = (Throw ContinueSignal, st') ->
            catchReturn m st = (Throw ContinueSignal, st')))
  /\ (let st := snd (execute no_pow no_builtins no_files 10 break_inside_try
                       Interpreter_new) in
      variable_at st 0 "done" = Ok (Some (makeScalar 1%float))
      /\ variable_at st 0 "caught" = Ok None
      /\ variable_at st 0 "e" = Ok None
      /\ variable_at st 0 "after" = Ok None)
  /\ (let st := snd (execute no_pow no_builtins no_files 10 return_inside_try
                       Interpreter_new) in
      variable_at st 0 "r" = Ok (Some (makeScalar 1%float))).
Proof.
  split; [|split; [|split; [|split; [|split; [|split]]]]].
  - intros pow builtins files loopFuel fuel tryBody catchVar catchBody st st' sig
      Hsig E.
    rewrite executeStmt_S. simpl. by apply execTryCatch_signal.
  - intros rec tryBody catchVar catchBody st st' what. split.
    + apply execTryCatch_RuntimeError.
    + apply execTryCatch_StdException.
  - intros rec variable mat body j rest st st1 E st2.
    rewrite (execFor_loop_turn rec variable mat body j rest st st1 E).
    repeat split; by intros ->.
  - intros rec fuel condition body st cond st1 st2 Ec Eb.
    rewrite execWhile_loop_turn, Ec, Eb.
    repeat split; by intros ->.
  - intros m st st'. unfold catchReturn. repeat split; by intros ->.
  - vm_compute. repeat split; reflexivity.
  - vm_compute. reflexivity.
Qed.

(** The first part at work: [try, break; catch e, x = 1; end]. *)
Lemma C5_witness_break_in_try :
  cb_executeStmt (interpreter no_pow no_builtins no_files 1 2)
    (TryCatchStmt [BreakStmt] "e" [AssignStmt (Identifier "x") (num 1) false])
    Interpreter_new
  = (Throw BreakSignal, Interpreter_new).
Proof.
  apply (proj1 C5_signals_pass_through_try).
  - by left.
  - reflexivity.
Defined.

(** ** While loops and the coercion of their condition *)

Lemma toBool_not_coercible v :
  isCellArray v || isStruct v || isFuncHandle v || isEmpty v = true ->
  toBool v = Throw (RuntimeError "Cannot convert value to logical").
Proof. by destruct v. Qed.

Lemma toBool_string s : toBool (VString s) = Ok (negb (String.eqb s EmptyString)).
Proof. reflexivity. Qed.

(** C8 (as amended). A while statement evaluates its condition before every
    turn: when the condition is false the loop ends with the body not run;
    when it is true and the body ends normally or with continue, the loop
    goes on from the state the body left, evaluating the condition again. A
    condition whose value is a cell array, a struct, a function handle or
    the empty value raises "Cannot convert value to logical" and the body is
    not run. A string condition raises nothing: it counts as true exactly
    when it is not empty. *)
Theorem C8_while_condition :
  (forall pow builtins files loopFuel fuel condition body,
     cb_executeStmt (interpreter pow builtins files loopFuel (S fuel))
       (WhileStmt condition body)
     = execWhile_loop (interpreter pow builtins files loopFuel fuel) loopFuel
         condition body)
  /\ (forall rec fuel condition body st cond st1,
        cb_evalExpr rec condition st = (Ok cond, st1) ->
        (toBool cond = Ok false ->
         execWhile_loop rec fuel condition body st = (Ok tt, st1))
        /\ (toBool cond = Ok true ->
            forall st2,
              execBlock rec body st1 = (Ok tt, st2)
              \/ execBlock rec body st1 = (Throw ContinueSignal, st2) ->
              execWhile_loop rec (S fuel) condition body st
              = execWhile_loop rec fuel condition body st2)
        /\ (isCellArray cond || isStruct cond || isFuncHandle cond
              || isEmpty cond = true ->
            execWhile_loop rec fuel condition body st
            = (Throw (RuntimeError "Cannot convert value to logical"), st1))
        /\ (forall s, cond = VString s ->
            toBool cond = Ok (negb (String.eqb s EmptyString))
            /\ (s = EmptyString ->
                execWhile_loop rec fuel condition body st = (Ok tt, st1))))
  /\ (forall rec fuel condition body st e st1,
        cb_evalExpr rec condition st = (Throw e, st1) ->
        execWhile_loop rec fuel condition body st = (Throw e, st1)).
Proof.
  split; [|split].
  - reflexivity.
  - intros rec fuel condition body st cond st1 Ec.
    split; [|split; [|split]].
    + intros Eb. by rewrite execWhile_loop_turn, Ec, Eb.
    + intros Eb st2 [E|E]; by rewrite execWhile_loop_turn, Ec, Eb, E.
    + intros Hv. by rewrite execWhile_loop_turn, Ec, toBool_not_coercible.
    + intros s ->. split; [done|]. intros ->.
      by rewrite execWhile_loop_turn, Ec.
  - intros rec fuel condition body st e st1 Ec.
    by rewrite execWhile_loop_turn, Ec.
Qed.

(** C8 as stated fails for a string: [while 'abc', break; end] runs its body
    and ends normally, and [while '', end] ends normally; no error is
    raised. *)
Lemma C8_counterexample_string_condition :
  toBool (VString "abc") = Ok true
  /\ fst (executeStmt no_pow no_builtins no_files 5
            (WhileStmt (StringLiteral "abc") [BreakStmt]) Interpreter_new)
     = Ok tt
  /\ fst (executeStmt no_pow no_builtins no_files 5
            (WhileStmt (StringLiteral "") []) Interpreter_new)
     = Ok tt.
Proof. repeat split; vm_compute; reflexivity. Qed.

(** ** Colon ranges *)








Section ColonFacts.

Variable rec : Callbacks.



End ColonFacts.




(** ** Multi-target assignment *)


Lemma bind_all_notin bs vars n :
  n ∉ map fst bs -> bind_all vars bs !! n = vars !! n.
Proof.
  revert vars. induction bs as [|p bs IH]; intros vars Hn; [done|].
  simpl in *. apply not_elem_of_cons in Hn as [Hp Hbs].
  unfold bind_all in *. simpl. rewrite IH by done.
  by rewrite lookup_insert_ne.
Qed.












Section MultiAssignFacts.

Variable rec : Callbacks.


End MultiAssignFacts.



(** The second part at work: [while {}, end] raises the coercion error. *)
Lemma C8_witness_cell_condition :
  execWhile_loop (interpreter no_pow no_builtins no_files 3 3) 3
    (CellArrayLiteral []) [] Interpreter_new
  = (Throw (RuntimeError "Cannot convert value to logical"), Interpreter_new).
Proof.
  apply (proj1 (proj2 (proj2 (proj1 (proj2 C8_while_condition)
           (interpreter no_pow no_builtins no_files 3 3) 3%nat
           (CellArrayLiteral []) [] Interpreter_new (VCellArray 0 0 [])
           Interpreter_new eq_refl)))).
  reflexivity.
Defined.

(** * Operators and indexing: what is checked and what is not *)

Section NoThrow.

Context {A : Type}.

(** A loop whose turns raise nothing raises nothing. *)
Lemma for_never_throws (n : Z) (body : Z -> A -> Outcome A) (init : A) :
  (forall i a e, body i a <> Throw e) ->
  forall e, for_ n body init <> Throw e.
Proof.
  intros Hbody e. unfold for_.
  induction (Z.to_nat n) as [|k IH]; [done|].
  rewrite for_nat_S.
  destruct (fold_left _ (seq 0 k) (Ok init)) as [a|e'| |]; simpl;
    [apply Hbody|done..].
Qed.

End NoThrow.

Lemma at_never_throws m idx e : at_ m idx <> Throw e.
Proof.
  unfold at_. destruct (_ && _); [|done]. by destruct (data_ m !! _).
Qed.

Lemma set_never_throws m idx v e : set_ m idx v <> Throw e.
Proof. unfold set_. by destruct (_ && _). Qed.

Lemma getWithBroadcast_never_throws m r c e : getWithBroadcast m r c <> Throw e.
Proof. apply at_never_throws. Qed.

Lemma fill2_never_throws r c f :
  (forall i j e, f i j <> Throw e) -> forall e, fill2 r c f <> Throw e.
Proof.
  intros Hf. unfold fill2. apply for_never_throws. intros i m.
  apply for_never_throws. intros j m' e.
  destruct (f i j) as [v|e'| |] eqn:E; simpl; try done.
  - apply set_never_throws.
  - by destruct (Hf i j e').
Qed.

Lemma logicalAnd_never_throws lm rm e : logicalAnd lm rm <> Throw e.
Proof.
  apply fill2_never_throws. intros i j e'.
  destruct (getWithBroadcast lm i j) as [x|e1| |] eqn:Ex; simpl; try done.
  - destruct (negb (PrimFloat.eqb x 0)); [|done].
    destruct (getWithBroadcast rm i j) as [y|e2| |] eqn:Ey; simpl; try done.
    by destruct (getWithBroadcast_never_throws rm i j e2).
  - by destruct (getWithBroadcast_never_throws lm i j e1).
Qed.

Lemma logicalOr_never_throws lm rm e : logicalOr lm rm <> Throw e.
Proof.
  apply fill2_never_throws. intros i j e'.
  destruct (getWithBroadcast lm i j) as [x|e1| |] eqn:Ex; simpl; try done.
  - destruct (negb (PrimFloat.eqb x 0)); [done|].
    destruct (getWithBroadcast rm i j) as [y|e2| |] eqn:Ey; simpl; try done.
    by destruct (getWithBroadcast_never_throws rm i j e2).
  - by destruct (getWithBroadcast_never_throws lm i j e1).
Qed.

(** C1 fails in the code for the logical operators: [&], [&&], [|] and [||]
    on two numeric operands never raise an error, whatever the shapes. On
    the 2x1 column [1;2] and the 1x3 row [1 2 3], [+] raises "Matrix
    dimensions must agree (2x1 vs 1x3)" as the claim says, while [&] and
    [|] return a 2x3 matrix of ones. *)
Theorem C1_logical_operators_skip_the_shape_check :
  (forall pow lm rm e,
     binaryNumeric pow AND lm rm <> Throw e
     /\ binaryNumeric pow SHORT_AND lm rm <> Throw e
     /\ binaryNumeric pow OR lm rm <> Throw e
     /\ binaryNumeric pow SHORT_OR lm rm <> Throw e)
  /\ ~ shapes_compatible column_2x1 row_1x3
  /\ evalBinaryValues no_pow PLUS (VMatrix column_2x1) (VMatrix row_1x3)
     = Throw (RuntimeError "Matrix dimensions must agree (2x1 vs 1x3)")
  /\ evalBinaryValues no_pow AND (VMatrix column_2x1) (VMatrix row_1x3)
     = Ok (VMatrix (mkMatrix 2 3 [1; 1; 1; 1; 1; 1]%float))
  /\ evalBinaryValues no_pow SHORT_AND (VMatrix column_2x1) (VMatrix row_1x3)
     = Ok (VMatrix (mkMatrix 2 3 [1; 1; 1; 1; 1; 1]%float))
  /\ evalBinaryValues no_pow OR (VMatrix column_2x1) (VMatrix row_1x3)
     = Ok (VMatrix (mkMatrix 2 3 [1; 1; 1; 1; 1; 1]%float))
  /\ evalBinaryValues no_pow SHORT_OR (VMatrix column_2x1) (VMatrix row_1x3)
     = Ok (VMatrix (mkMatrix 2 3 [1; 1; 1; 1; 1; 1]%float)).
Proof.
  split.
  { intros pow lm rm e. simpl.
    auto using logicalAnd_never_throws, logicalOr_never_throws. }
  split.
  { unfold shapes_compatible. simpl. lia. }
  repeat split; vm_compute; reflexivity.
Qed.

(** ** Indexed reads *)

Lemma to_size_t_never_throws d e : to_size_t d <> Throw e.
Proof.
  unfold to_size_t. destruct (Prim2SF d) as [s| | |s m ex]; try done.
  destruct s; [by destruct (_ =? _)|by destruct (_ <? _)].
Qed.

Lemma index0_never_throws d e : index0 d <> Throw e.
Proof.
  unfold index0. destruct (to_size_t d) as [i|e'| |] eqn:E; try done.
  by destruct (to_size_t_never_throws d e').
Qed.

Lemma vec_get_never_throws {A} (l : list A) i e : vec_get l i <> Throw e.
Proof. unfold vec_get. destruct (_ && _); [|done]. by destruct (l !! _). Qed.

Lemma axisIndices_never_throws extent arg e : axisIndices extent arg <> Throw e.
Proof.
  unfold axisIndices. destruct (isEmpty arg); [done|].
  destruct (isNumeric arg); [|done].
  apply for_never_throws. intros i acc e'.
  destruct (at_ (matrix_ arg) i) as [d|e1| |] eqn:Ed; simpl; try done.
  - destruct (index0 d) as [k|e2| |] eqn:Ek; simpl; try done.
    by destruct (index0_never_throws d e2).
  - by destruct (at_never_throws (matrix_ arg) i e1).
Qed.

Lemma index2D_never_throws mat arg0 arg1 e : index2D mat arg0 arg1 <> Throw e.
Proof.
  unfold index2D.
  destruct (axisIndices (rows_ mat) arg0) as [rowIdx|e1| |] eqn:Er; simpl;
    try done; [|by destruct (axisIndices_never_throws (rows_ mat) arg0 e1)].
  destruct (axisIndices (cols_ mat) arg1) as [colIdx|e1| |] eqn:Ec; simpl;
    try done; [|by destruct (axisIndices_never_throws (cols_ mat) arg1 e1)].
  assert (Hscalar : forall r c,
    (let* v := at2 mat r c in Ok (makeScalar v)) <> Throw e).
  { intros r c. destruct (at2 mat r c) as [v|e1| |] eqn:Ev; simpl; try done.
    by destruct (at_never_throws mat _ e1 Ev). }
  assert (Hfill : forall nr nc,
    (let* result :=
       fill2 nr nc (fun i j =>
         let* r := vec_get rowIdx i in
         let* c := vec_get colIdx j in
         at2 mat r c) in
     Ok (makeMatrix result)) <> Throw e).
  { intros nr nc. destruct (fill2 nr nc _) as [m|e1| |] eqn:Ef; simpl; try done.
    exfalso. revert Ef. apply fill2_never_throws. intros i j e2.
    destruct (vec_get rowIdx i) as [r|e3| |] eqn:E1; simpl; try done;
      [|by destruct (vec_get_never_throws rowIdx i e3)].
    destruct (vec_get colIdx j) as [c|e3| |] eqn:E2; simpl; try done;
      [|by destruct (vec_get_never_throws colIdx j e3)].
    apply at_never_throws. }
  destruct rowIdx as [|r [|r' rowIdx]]; try apply Hfill.
  destruct colIdx as [|c [|c' colIdx]]; try apply Hfill.
  apply Hscalar.
Qed.

(** C2 fails in the code for the two-index read: [A(r, c)] of a numeric
    variable raises no error at all, whatever the indices. With
    [A = [1 2; 3 4]], [A(1,3)] asks for a column past the two there are and
    returns 3, the element stored at that offset; the one-index read [A(5)]
    raises "Index exceeds array dimensions" as the claim says. *)
Theorem C2_two_index_read_is_unchecked :
  (forall mat arg0 arg1 e, index2D mat arg0 arg1 <> Throw e)
  /\ (let r := execute no_pow no_builtins no_files 10 read_past_columns
                 Interpreter_new in
      fst r = Ok tt
      /\ variable_at (snd r) 0 "x" = Ok (Some (makeScalar 3)))
  /\ fst (execute no_pow no_builtins no_files 10 read_past_numel
            Interpreter_new)
     = Throw (RuntimeError "Index exceeds array dimensions").
Proof.
  split; [apply index2D_never_throws|].
  split; vm_compute; by repeat split.
Qed.

(** * More of the matrix runtime *)

(** Two well-formed matrices of one shape with the same elements are the
    same matrix. *)
Lemma Matrix_ext m m' :
  wf_Matrix m -> wf_Matrix m' ->
  rows_ m = rows_ m' -> cols_ m = cols_ m' ->
  (forall i j, 0 <= i < rows_ m -> 0 <= j < cols_ m ->
     elem m i j = elem m' i j) ->
  m = m'.
Proof.
  intros (Hr & Hc & Hsz & Hn) (Hr' & Hc' & Hsz' & Hn') Er Ec Hel.
  destruct m as [r c d], m' as [r' c' d']. simpl in *. subst r' c'.
  f_equal. unfold numel in *. simpl in *.
  apply (nth_ext _ _ 0%float 0%float); [lia|].
  intros n Hlt.
  assert (0 < c) by nia.
  pose proof (Z.div_mod (Z.of_nat n) c ltac:(lia)) as Hdm.
  pose proof (Z.mod_pos_bound (Z.of_nat n) c ltac:(lia)) as Hmod.
  assert (0 <= Z.of_nat n / c) by (apply Z.div_pos; lia).
  assert (Z.of_nat n / c < r).
  { apply Z.div_lt_upper_bound; [lia|]. nia. }
  specialize (Hel (Z.of_nat n / c) (Z.of_nat n mod c) ltac:(lia) ltac:(lia)).
  unfold elem in Hel. simpl in Hel.
  replace (Z.of_nat n / c * c + Z.of_nat n mod c) with (Z.of_nat n) in Hel
    by lia.
  by rewrite Nat2Z.id in Hel.
Qed.

(** [transpose]: the loops write [result(j, i) = m(i, j)] for every element
    of [m]. *)
Lemma transpose_spec m :
  wf_Matrix m ->
  exists t, transpose m = Ok t /\ wf_Matrix t
    /\ rows_ t = cols_ m /\ cols_ t = rows_ m
    /\ forall i j, 0 <= i < rows_ m -> 0 <= j < cols_ m ->
         elem t j i = elem m i j.
Proof.
  intros Hwf. pose proof Hwf as (Hr & Hc & Hsz & Hn). unfold transpose.
  set (r := rows_ m) in *. set (c := cols_ m) in *.
  set (Inv := fun (i j : Z) (t : Matrix) =>
    wf_Matrix t /\ rows_ t = c /\ cols_ t = r
    /\ (forall i' j', 0 <= i' < i -> 0 <= j' < c -> elem t j' i' = elem m i' j')
    /\ (forall j', 0 <= j' < j -> elem t j' i = elem m i j')).
  destruct (for_invariant (fun i t => Inv i 0 t) r
              (fun i res =>
                 for_ c (fun j res => let* v := at2 m i j in set2 res j i v) res)
              (Matrix_new c r)) as (t & E & Ht).
  - done.
  - refine (conj _ (conj _ (conj _ (conj _ _)))); try done;
      [apply Matrix_fill_wf; lia|intros; lia..].
  - intros i t Hi (Hwt & Hrt & Hct & Hrows & _).
    destruct (for_invariant (fun j t => Inv i j t) c
                (fun j res => let* v := at2 m i j in set2 res j i v) t)
      as (t' & E' & Hwt' & Hrt' & Hct' & Hrows' & Hrow').
    + done.
    + refine (conj _ (conj _ (conj _ (conj _ _)))); try done. intros; lia.
    + intros j t1 Hj (Hw1 & Hr1 & Hc1 & Hrows1 & Hrow1).
      rewrite (at2_elem m i j) by done. simpl.
      destruct (set2_ok t1 j i (elem m i j))
        as (t2 & E2 & Hw2 & Hr2 & Hc2 & Hji & Hoth); [done|lia|lia|].
      exists t2. split; [done|].
      refine (conj _ (conj _ (conj _ (conj _ _)))); try done; try congruence.
      * intros i' j' Hi' Hj'. rewrite Hoth; [by apply Hrows1|lia|lia|].
        intros [= -> ->]. lia.
      * intros j' Hj'. destruct (decide (j' = j)) as [->|Hne]; [done|].
        rewrite Hoth; [apply Hrow1; lia|lia|lia|]. intros [= ->]. done.
    + exists t'. split; [done|].
      refine (conj _ (conj _ (conj _ (conj _ _)))); try done.
      * intros i' j' Hi' Hj'. destruct (decide (i' = i)) as [->|Hne].
        -- by apply Hrow'.
        -- apply Hrows'; [lia|done].
      * intros; lia.
  - exists t. destruct Ht as (Hwt & Hrt & Hct & Hrows & _).
    split; [done|]. refine (conj _ (conj _ (conj _ _))); try done.
Qed.

(** X1. Transposing a well-formed matrix succeeds: the result has the two
    extents exchanged and, at column [i] of row [j], the element the matrix
    has at column [j] of row [i]. Transposing the result gives the matrix
    back. *)
Theorem transpose_swaps_and_is_involutive (m : Matrix) :
  wf_Matrix m ->
  exists t,
    transpose m = Ok t
    /\ rows_ t = cols_ m /\ cols_ t = rows_ m
    /\ (forall i j, 0 <= i < rows_ m -> 0 <= j < cols_ m ->
          elem t j i = elem m i j)
    /\ transpose t = Ok m.
Proof.
  intros Hwf.
  destruct (transpose_spec m Hwf) as (t & Et & Hwt & Hrt & Hct & Hel).
  exists t. split; [done|]. split; [done|]. split; [done|]. split; [done|].
  destruct (transpose_spec t Hwt) as (u & Eu & Hwu & Hru & Hcu & Hel').
  rewrite Eu. f_equal. apply Matrix_ext; try done; try congruence.
  intros i j Hi Hj. rewrite Hel' by lia. apply Hel; lia.
Qed.

Lemma transpose_witness_2x3 :
  exists t,
    transpose (mkMatrix 2 3 [1; 2; 3; 4; 5; 6]%float) = Ok t
    /\ rows_ t = 3 /\ cols_ t = 2
    /\ (forall i j, 0 <= i < 2 -> 0 <= j < 3 ->
          elem t j i = elem (mkMatrix 2 3 [1; 2; 3; 4; 5; 6]%float) i j)
    /\ transpose t = Ok (mkMatrix 2 3 [1; 2; 3; 4; 5; 6]%float).
Proof.
  apply (transpose_swaps_and_is_involutive
           (mkMatrix 2 3 [1; 2; 3; 4; 5; 6]%float)).
  unfold wf_Matrix, numel. simpl. unfold SIZE_MAX_plus_1. lia.
Defined.

(** ** The operators that check shapes *)

Lemma binaryNumeric_checked pow op a b :
  op ∈ checkedElementwiseOps ->
  binaryNumeric pow op a b = elementwise (elementwise_function pow op) a b.
Proof.
  unfold checkedElementwiseOps. intros H.
  repeat (apply elem_of_cons in H as [->|H]; [reflexivity|]).
  by apply elem_of_nil in H.
Qed.

(** X2. The operators [+], [-], [.*], [./], [.^] and the six comparisons,
    on well-formed operands that are not empty: when the shapes are
    identical, or one side is 1x1, or the shapes agree on one axis and the
    other axis is 1 on one side, the result has the broadcast shape and at
    each position the operator applied to the two elements there, an
    operand being read at index 0 along an axis where its extent is 1;
    for any other pair of shapes the error "Matrix dimensions must agree"
    naming both shapes is raised. *)
Theorem checked_operators_follow_the_shape_rule
  (pow : float -> float -> float) (op : TokenType) (a b : Matrix) :
  op ∈ checkedElementwiseOps ->
  wf_Matrix a -> wf_Matrix b -> nonempty a -> nonempty b ->
  (shapes_compatible a b ->
     exists m, binaryNumeric pow op a b = Ok m
       /\ (rows_ m, cols_ m) = broadcast_shape a b
       /\ forall i j, 0 <= i < rows_ m -> 0 <= j < cols_ m ->
            elem m i j
            = elementwise_function pow op
                (elem a (if rows_ a =? 1 then 0 else i)
                        (if cols_ a =? 1 then 0 else j))
                (elem b (if rows_ b =? 1 then 0 else i)
                        (if cols_ b =? 1 then 0 else j)))
  /\ (~ shapes_compatible a b ->
        binaryNumeric pow op a b
        = Throw (RuntimeError (dimensions_must_agree a b))).
Proof.
  intros Hop Hwa Hwb Hna Hnb. rewrite binaryNumeric_checked by done.
  destruct (elementwise_spec (elementwise_function pow op) a b Hwa Hwb Hna Hnb)
    as [Hyes Hno].
  split; [|done]. intros Hc.
  destruct (Hyes Hc) as (m & E & _ & Hshape & Hel). by exists m.
Qed.

(** [[1 2 3; 4 5 6] .* [10; 20]]: the column is broadcast over the three
    columns. *)
Lemma checked_operators_witness_column_broadcast :
  exists m,
    binaryNumeric no_pow DOT_STAR (mkMatrix 2 3 [1; 2; 3; 4; 5; 6]%float)
      (mkMatrix 2 1 [10; 20]%float) = Ok m
    /\ (rows_ m, cols_ m) = (2, 3)
    /\ elem m 1 2 = 120%float.
Proof.
  destruct (proj1 (checked_operators_follow_the_shape_rule no_pow DOT_STAR
              (mkMatrix 2 3 [1; 2; 3; 4; 5; 6]%float)
              (mkMatrix 2 1 [10; 20]%float)
              ltac:(unfold checkedElementwiseOps; set_solver)
              ltac:(unfold wf_Matrix, numel, SIZE_MAX_plus_1; simpl; lia)
              ltac:(unfold wf_Matrix, numel, SIZE_MAX_plus_1; simpl; lia)
              ltac:(unfold nonempty; simpl; lia)
              ltac:(unfold nonempty; simpl; lia)))
    as (m & E & Hshape & Hel).
  { unfold shapes_compatible. simpl. lia. }
  exists m. split; [exact E|]. split; [exact Hshape|].
  injection Hshape as Hr Hc.
  rewrite (Hel 1 2) by lia. reflexivity.
Defined.

(** ** The identity matrix *)

(** X3. [eye(n)] is the n-by-n matrix with 1.0 on the diagonal and 0.0
    elsewhere; [eye(0)] is empty. *)
Theorem eye_is_the_identity_pattern (n : Z) :
  0 <= n -> n * n < SIZE_MAX_plus_1 ->
  exists E, eye n = Ok E /\ wf_Matrix E /\ rows_ E = n /\ cols_ E = n
    /\ (forall i j, 0 <= i < n -> 0 <= j < n ->
          elem E i j = if decide (i = j) then 1%float else 0%float)
    /\ (n = 0 -> Matrix_isEmpty E = true).
Proof.
  intros Hn Hsz.
  destruct (eye_spec n Hn Hsz) as (E & HE & Hwf & Hr & Hc & Hel).
  exists E. repeat (split; [done|]).
  intros ->. destruct Hwf as (_ & _ & _ & Hnum).
  rewrite Hr, Hc in Hnum. unfold numel in Hnum. unfold Matrix_isEmpty.
  apply bool_decide_eq_true. destruct (data_ E); [done|]. simpl in Hnum. lia.
Qed.

Lemma eye_witness_3 :
  exists E, eye 3 = Ok E /\ wf_Matrix E /\ rows_ E = 3 /\ cols_ E = 3
    /\ (forall i j, 0 <= i < 3 -> 0 <= j < 3 ->
          elem E i j = if decide (i = j) then 1%float else 0%float)
    /\ (3 = 0 -> Matrix_isEmpty E = true).
Proof.
  apply (eye_is_the_identity_pattern 3); [lia|].
  unfold SIZE_MAX_plus_1. lia.
Defined.

(** ** The matrix product *)

Lemma row_times_col_loop a b i j :
  wf_Matrix a -> wf_Matrix b -> cols_ a = rows_ b ->
  0 <= i < rows_ a -> 0 <= j < cols_ b ->
  for_ (cols_ a) (fun k sum =>
    let* x := at2 a i k in
    let* y := at2 b k j in
    Ok (sum + x * y)%float) 0%float
  = Ok (row_times_col a b i j).
Proof.
  intros Hwa Hwb Hab Hi Hj.
  destruct (for_invariant
    (fun k sum =>
       sum = fold_left (fun sum k =>
               (sum + elem a i (Z.of_nat k) * elem b (Z.of_nat k) j)%float)
             (seq 0 (Z.to_nat k)) 0%float)
    (cols_ a)
    (fun k sum =>
       let* x := at2 a i k in
       let* y := at2 b k j in
       Ok (sum + x * y)%float) 0%float) as (sum & E & Hsum).
  - by destruct Hwa as (_ & ? & _).
  - done.
  - intros k sum Hk ->.
    rewrite (at2_elem a i k) by done.
    rewrite (at2_elem b k j) by (try done; lia). simpl.
    eexists. split; [done|].
    replace (Z.to_nat (k + 1)) with (S (Z.to_nat k)) by lia.
    rewrite seq_S, fold_left_app. simpl. by rewrite Z2Nat.id by lia.
  - by rewrite E, Hsum.
Qed.

(** X4. The product [a * b] of well-formed matrices. When one side is 1x1
    the other is scaled by it, whatever its shape. Otherwise the inner
    extents must agree: if they do, the result is rows(a) by cols(b) and
    each element is the sum accumulated from 0.0 over k of a(i,k) * b(k,j);
    if they do not, the error "Inner matrix dimensions must agree for
    multiplication" naming both shapes is raised. *)
Theorem Matrix_mul_cases (a b : Matrix) :
  wf_Matrix a -> wf_Matrix b ->
  (Matrix_isScalar a = true ->
     exists m, Matrix_mul a b = Ok m
       /\ rows_ m = rows_ b /\ cols_ m = cols_ b
       /\ forall i j, 0 <= i < rows_ b -> 0 <= j < cols_ b ->
            elem m i j = (elem b i j * elem a 0 0)%float)
  /\ (Matrix_isScalar a = false -> Matrix_isScalar b = true ->
        exists m, Matrix_mul a b = Ok m
          /\ rows_ m = rows_ a /\ cols_ m = cols_ a
          /\ forall i j, 0 <= i < rows_ a -> 0 <= j < cols_ a ->
               elem m i j = (elem a i j * elem b 0 0)%float)
  /\ (Matrix_isScalar a = false -> Matrix_isScalar b = false ->
        cols_ a = rows_ b -> rows_ a * cols_ b < SIZE_MAX_plus_1 ->
        exists m, Matrix_mul a b = Ok m
          /\ rows_ m = rows_ a /\ cols_ m = cols_ b
          /\ forall i j, 0 <= i < rows_ a -> 0 <= j < cols_ b ->
               elem m i j = row_times_col a b i j)
  /\ (Matrix_isScalar a = false -> Matrix_isScalar b = false ->
        cols_ a <> rows_ b ->
        Matrix_mul a b
        = Throw (RuntimeError
            (String.append
               "Inner matrix dimensions must agree for multiplication ("
               (String.append (dims_string a)
                  (String.append " * " (String.append (dims_string b) ")")))))).
Proof.
  intros Hwa Hwb.
  assert (Hscalar : forall s, wf_Matrix s -> Matrix_isScalar s = true ->
            scalarValue s = Ok (elem s 0 0)).
  { intros s (_ & _ & _ & Hn) Hs. unfold scalarValue. rewrite Hs. simpl.
    unfold Matrix_isScalar in Hs. apply andb_true_iff in Hs as [Hr Hc].
    apply Z.eqb_eq in Hr, Hc. rewrite at_elem by lia.
    unfold elem. by rewrite Hc. }
  split; [|split; [|split]].
  - intros Ha. unfold Matrix_mul. rewrite Ha, (Hscalar a) by done. simpl.
    destruct (map_data_spec (fun v => (v * elem a 0 0)%float) b Hwb)
      as (m & E & _ & Hr & Hc & Hel).
    exists m. by repeat split.
  - intros Ha Hb. unfold Matrix_mul. rewrite Ha, Hb, (Hscalar b) by done.
    simpl.
    destruct (map_data_spec (fun v => (v * elem b 0 0)%float) a Hwa)
      as (m & E & _ & Hr & Hc & Hel).
    exists m. by repeat split.
  - intros Ha Hb Hab Hsz. unfold Matrix_mul. rewrite Ha, Hb, Hab.
    rewrite Z.eqb_refl. simpl. rewrite <- Hab.
    destruct (fill2_spec (rows_ a) (cols_ b)
      (fun i j =>
         for_ (cols_ a) (fun k sum =>
           let* x := at2 a i k in
           let* y := at2 b k j in
           Ok (sum + x * y)%float) 0%float)
      (row_times_col a b)) as (m & E & _ & Hr & Hc & Hel).
    + by destruct Hwa as (? & _).
    + by destruct Hwb as (_ & ? & _).
    + done.
    + intros i j Hi Hj. by apply row_times_col_loop.
    + exists m. by repeat split.
  - intros Ha Hb Hab. unfold Matrix_mul. rewrite Ha, Hb.
    by replace (cols_ a =? rows_ b) with false
      by (symmetry; by apply Z.eqb_neq).
Qed.

(** [[1 2; 3 4] * [5 6; 7 8]] and a 2x3 times a 2x2. *)
Lemma Matrix_mul_witness_2x2 :
  (exists m,
     Matrix_mul (mkMatrix 2 2 [1; 2; 3; 4]%float)
                (mkMatrix 2 2 [5; 6; 7; 8]%float) = Ok m
     /\ elem m 0 0 = 19%float /\ elem m 1 1 = 50%float)
  /\ Matrix_mul (mkMatrix 2 3 [1; 2; 3; 4; 5; 6]%float)
                (mkMatrix 2 2 [5; 6; 7; 8]%float)
     = Throw (RuntimeError
         "Inner matrix dimensions must agree for multiplication (2x3 * 2x2)").
Proof.
  assert (Hw : forall r c d, 0 <= r -> 0 <= c -> r * c < SIZE_MAX_plus_1 ->
             Z.of_nat (length d) = r * c -> wf_Matrix (mkMatrix r c d)).
  { intros. by unfold wf_Matrix, numel. }
  split.
  - destruct (proj1 (proj2 (proj2 (Matrix_mul_cases
                (mkMatrix 2 2 [1; 2; 3; 4]%float)
                (mkMatrix 2 2 [5; 6; 7; 8]%float)
                ltac:(apply Hw; unfold SIZE_MAX_plus_1; simpl; lia)
                ltac:(apply Hw; unfold SIZE_MAX_plus_1; simpl; lia)))))
      as (m & E & Hr & Hc & Hel);
      [reflexivity|reflexivity|reflexivity|unfold SIZE_MAX_plus_1; simpl; lia|].
    exists m. split; [exact E|].
    rewrite (Hel 0 0), (Hel 1 1) by (simpl; lia). by split.
  - apply (proj2 (proj2 (proj2 (Matrix_mul_cases
                (mkMatrix 2 3 [1; 2; 3; 4; 5; 6]%float)
                (mkMatrix 2 2 [5; 6; 7; 8]%float)
                ltac:(apply Hw; unfold SIZE_MAX_plus_1; simpl; lia)
                ltac:(apply Hw; unfold SIZE_MAX_plus_1; simpl; lia)))));
      [reflexivity|reflexivity|simpl; lia].
Defined.

(** ** Unary minus and the scalar operators *)

Lemma opp_involutive x : (- - x)%float = x.
Proof.
  apply Prim2SF_inj. rewrite !FloatAxioms.opp_spec.
  destruct (Prim2SF x) as [[]| [] | |[] m e]; reflexivity.
Qed.

(** X5. Unary minus and the operators with a scalar on the right ([+], [-],
    [*], [/] and [^] by a double) keep the shape of a well-formed matrix
    and act on each element; negating twice gives the matrix back. *)
Theorem scalar_operators_act_elementwise
  (pow : float -> float -> float) (m : Matrix) (s : float) :
  wf_Matrix m ->
  (exists r, Matrix_neg m = Ok r /\ maps_elements PrimFloat.opp m r
             /\ Matrix_neg r = Ok m)
  /\ (exists r, Matrix_add_scalar m s = Ok r
                /\ maps_elements (fun v => v + s)%float m r)
  /\ (exists r, Matrix_sub_scalar m s = Ok r
                /\ maps_elements (fun v => v - s)%float m r)
  /\ (exists r, Matrix_mul_scalar m s = Ok r
                /\ maps_elements (fun v => v * s)%float m r)
  /\ (exists r, Matrix_div_scalar m s = Ok r
                /\ maps_elements (fun v => v / s)%float m r)
  /\ (exists r, power pow m s = Ok r
                /\ maps_elements (fun v => pow v s) m r).
Proof.
  intros Hwf.
  assert (H : forall f, exists r, map_data f m = Ok r /\ maps_elements f m r).
  { intros f. destruct (map_data_spec f m Hwf) as (r & E & _ & Hr & Hc & Hel).
    by exists r. }
  split; [|by repeat split; apply H].
  destruct (map_data_spec PrimFloat.opp m Hwf) as (r & E & Hwr & Hr & Hc & Hel).
  exists r. split; [done|]. split; [done|].
  destruct (map_data_spec PrimFloat.opp r Hwr)
    as (r' & E' & Hwr' & Hr' & Hc' & Hel').
  unfold Matrix_neg. rewrite E'. f_equal.
  apply Matrix_ext; try done; try congruence.
  intros i j Hi Hj. rewrite Hel' by lia. rewrite Hel by lia.
  apply opp_involutive.
Qed.

Lemma scalar_operators_witness :
  (exists r, Matrix_neg (mkMatrix 1 2 [1; -0]%float) = Ok r
             /\ maps_elements PrimFloat.opp (mkMatrix 1 2 [1; -0]%float) r
             /\ Matrix_neg r = Ok (mkMatrix 1 2 [1; -0]%float)).
Proof.
  apply (scalar_operators_act_elementwise no_pow
           (mkMatrix 1 2 [1; -0]%float) 0%float).
  unfold wf_Matrix, numel, SIZE_MAX_plus_1. simpl. lia.
Defined.

(** ** Truth of a matrix *)

Lemma forallb_take_S {A} (f : A -> bool) (l : list A) (k : nat) (d : A) :
  (k < length l)%nat ->
  forallb f (take (S k) l) = forallb f (take k l) && f (nth k l d).
Proof.
  intros Hk. destruct (l !! k) as [x|] eqn:E.
  - rewrite (take_S_r l k x E), forallb_app. simpl.
    by rewrite andb_true_r, nth_lookup, E.
  - apply lookup_ge_None in E. lia.
Qed.

Lemma toBool_loop m :
  for_ (numel m) (fun i (acc : bool) =>
    if acc then
      let* x := at_ m i in
      Ok (negb (PrimFloat.eqb x 0%float))
    else Ok false) true
  = Ok (all_nonzero m).
Proof.
  destruct (for_invariant
    (fun k acc =>
       acc = forallb (fun x => negb (PrimFloat.eqb x 0%float))
               (take (Z.to_nat k) (data_ m)))
    (numel m)
    (fun i (acc : bool) =>
       if acc then
         let* x := at_ m i in
         Ok (negb (PrimFloat.eqb x 0%float))
       else Ok false) true) as (acc & E & Hacc).
  - unfold numel. lia.
  - done.
  - intros k acc Hk ->.
    replace (Z.to_nat (k + 1)) with (S (Z.to_nat k)) by lia.
    rewrite (forallb_take_S _ _ _ 0%float) by (unfold numel in Hk; lia).
    destruct (forallb _ (take (Z.to_nat k) (data_ m))).
    + rewrite at_elem by done. simpl. by eexists.
    + by eexists.
  - rewrite E, Hacc. unfold all_nonzero, numel. f_equal.
    by rewrite Nat2Z.id, firstn_all.
Qed.

(** X6. A numeric or logical matrix converts to true exactly when it has at
    least one element and no element equals zero; so the empty matrix is
    false, and a NaN, which does not equal zero, does not make a matrix
    false. *)
Theorem toBool_of_a_matrix :
  (forall m, toBool (VMatrix m)
             = Ok (all_nonzero m && negb (Matrix_isEmpty m)))
  /\ (forall m, toBool (VLogical m)
                = Ok (all_nonzero m && negb (Matrix_isEmpty m)))
  /\ toBool (VMatrix Matrix_empty) = Ok false
  /\ toBool (makeScalar nan) = Ok true
  /\ toBool (makeScalar (-0)%float) = Ok false.
Proof.
  assert (H : forall m,
    (let* all_nonzero :=
       for_ (numel m) (fun i (acc : bool) =>
         if acc then
           let* x := at_ m i in
           Ok (negb (PrimFloat.eqb x 0%float))
         else Ok false) true in
     if all_nonzero then Ok (0 <? numel m) else Ok false)
    = Ok (all_nonzero m && negb (Matrix_isEmpty m))).
  { intros m. rewrite toBool_loop. simpl.
    destruct (all_nonzero m); [|done]. simpl. f_equal.
    unfold numel, Matrix_isEmpty. destruct (data_ m); [done|].
    rewrite bool_decide_eq_false_2 by done. simpl. apply Z.ltb_lt. lia. }
  split; [exact H|]. split; [exact H|]. by repeat split.
Qed.

(** ** Concatenation *)

(** Copying [m] into [res] at row [ro], column [co]. *)
Lemma copy_block (ti tj : Z -> Z) ro co m res :
  wf_Matrix m -> wf_Matrix res -> 0 <= ro -> 0 <= co ->
  ro + rows_ m <= rows_ res -> co + cols_ m <= cols_ res ->
  (forall i, 0 <= i < rows_ m -> ti i = ro + i) ->
  (forall j, 0 <= j < cols_ m -> tj j = co + j) ->
  exists res',
    for_ (rows_ m) (fun i res =>
      for_ (cols_ m) (fun j res =>
        let* v := at2 m i j in set2 res (ti i) (tj j) v) res) res = Ok res'
    /\ wf_Matrix res' /\ rows_ res' = rows_ res /\ cols_ res' = cols_ res
    /\ forall i j, 0 <= i < rows_ res -> 0 <= j < cols_ res ->
         elem res' i j
         = if decide (ro <= i < ro + rows_ m /\ co <= j < co + cols_ m)
           then elem m (i - ro) (j - co) else elem res i j.
Proof.
  intros Hwm Hwr Hro Hco Hrfit Hcfit Hti Htj.
  pose proof Hwm as (Hrm & Hcm & _).
  set (Inv := fun (i0 j0 : Z) (x : Matrix) =>
    wf_Matrix x /\ rows_ x = rows_ res /\ cols_ x = cols_ res
    /\ forall i j, 0 <= i < rows_ res -> 0 <= j < cols_ res ->
         elem x i j
         = if decide (block_written ro co (cols_ m) i0 j0 i j)
           then elem m (i - ro) (j - co) else elem res i j).
  destruct (for_invariant (fun i x => Inv i 0 x) (rows_ m)
    (fun i res =>
       for_ (cols_ m) (fun j res =>
         let* v := at2 m i j in set2 res (ti i) (tj j) v) res) res)
    as (x & E & Hwx & Hrx & Hcx & Hel).
  - done.
  - refine (conj _ (conj _ (conj _ _))); try done.
    intros i j Hi Hj. rewrite decide_False; [done|].
    unfold block_written. lia.
  - intros i0 x Hi0 (Hwx & Hrx & Hcx & Hel).
    destruct (for_invariant (fun j x => Inv i0 j x) (cols_ m)
      (fun j res => let* v := at2 m i0 j in set2 res (ti i0) (tj j) v) x)
      as (y & E' & Hwy & Hry & Hcy & Hely).
    + done.
    + by refine (conj _ (conj _ (conj _ _))).
    + intros j0 y Hj0 (Hwy & Hry & Hcy & Hely).
      rewrite (at2_elem m i0 j0) by done. simpl.
      rewrite Hti, Htj by done.
      destruct (set2_ok y (ro + i0) (co + j0) (elem m i0 j0))
        as (z & Ez & Hwz & Hrz & Hcz & Hhere & Hoth); [done|lia|lia|].
      exists z. split; [done|].
      refine (conj _ (conj _ (conj _ _))); try congruence.
      intros i j Hi Hj.
      destruct (decide ((i, j) = (ro + i0, co + j0))) as [[= -> ->]|Hne].
      * rewrite Hhere. rewrite decide_True by (unfold block_written; lia).
        f_equal; lia.
      * rewrite Hoth by (try done; lia). rewrite Hely by done.
        destruct (decide (block_written ro co (cols_ m) i0 j0 i j)) as [Hb|Hb].
        -- rewrite decide_True; [done|]. unfold block_written in *. lia.
        -- rewrite decide_False; [done|]. unfold block_written in *.
           intros [H1 [H2|[-> H2]]]; [lia|].
           destruct (decide (j = co + j0)) as [->|?]; [done|lia].
    + exists y. split; [done|].
      refine (conj _ (conj _ (conj _ _))); try done.
      intros i j Hi Hj. rewrite Hely by done.
      destruct (decide (block_written ro co (cols_ m) i0 (cols_ m) i j))
        as [Hb|Hb].
      * rewrite decide_True; [done|]. unfold block_written in *. lia.
      * rewrite decide_False; [done|]. unfold block_written in *. lia.
  - exists x. split; [done|].
    refine (conj _ (conj _ (conj _ _))); try done.
    intros i j Hi Hj. rewrite Hel by done.
    destruct (decide (block_written ro co (cols_ m) (rows_ m) 0 i j)) as [Hb|Hb].
    + rewrite decide_True; [done|]. unfold block_written in *. lia.
    + rewrite decide_False; [done|]. unfold block_written in *. lia.
Qed.

Lemma total_cols_nonneg ms :
  Forall (fun m => wf_Matrix m) ms -> 0 <= total_cols ms.
Proof.
  induction 1 as [|m ms (_ & Hc & _) _ IH]; simpl; lia.
Qed.

Lemma total_rows_nonneg ms :
  Forall (fun m => wf_Matrix m) ms -> 0 <= total_rows ms.
Proof.
  induction 1 as [|m ms (Hr & _) _ IH]; simpl; lia.
Qed.

Lemma rows_or_empty_check n m :
  rows_or_empty n m ->
  negb (rows_ m =? n) && negb (Matrix_isEmpty m) = false.
Proof.
  intros [Hw [->|[Hr Hc]]]; [by rewrite Z.eqb_refl|].
  destruct Hw as (_ & _ & _ & Hn). rewrite Hr, Hc in Hn.
  unfold numel in Hn. unfold Matrix_isEmpty.
  destruct (data_ m); [|simpl in Hn; lia].
  rewrite bool_decide_eq_true_2 by done. apply andb_false_r.
Qed.

Lemma cols_or_empty_check n m :
  cols_or_empty n m ->
  negb (cols_ m =? n) && negb (Matrix_isEmpty m) = false.
Proof.
  intros [Hw [->|[Hr Hc]]]; [by rewrite Z.eqb_refl|].
  destruct Hw as (_ & _ & _ & Hn). rewrite Hr, Hc in Hn.
  unfold numel in Hn. unfold Matrix_isEmpty.
  destruct (data_ m); [|simpl in Hn; lia].
  rewrite bool_decide_eq_true_2 by done. apply andb_false_r.
Qed.

(** The first loop of [horzcat]: the widths add up. *)
Lemma horzcat_total r ms acc :
  Forall (rows_or_empty r) ms ->
  0 <= acc -> acc + total_cols ms < SIZE_MAX_plus_1 ->
  fold_left (fun acc m =>
    let* total := acc in
    if negb (rows_ m =? r) && negb (Matrix_isEmpty m)
    then Throw (RuntimeError
           "Dimensions of arrays being concatenated are not consistent")
    else Ok (wrap64 (total + cols_ m))) ms (Ok acc)
  = Ok (acc + total_cols ms).
Proof.
  intros Hms. revert acc.
  induction Hms as [|m ms Hm Hms IH]; intros acc Hacc Hsz; simpl.
  - f_equal. lia.
  - rewrite (rows_or_empty_check r m Hm).
    pose proof (total_cols_nonneg ms
      (Forall_impl _ _ _ Hms (fun _ H => proj1 H))) as Hnn.
    destruct Hm as [(_ & Hc & _) _]. simpl in Hsz.
    rewrite wrap64_small by lia. rewrite IH by lia. f_equal. lia.
Qed.

Lemma vertcat_total c ms acc :
  Forall (cols_or_empty c) ms ->
  0 <= acc -> acc + total_rows ms < SIZE_MAX_plus_1 ->
  fold_left (fun acc m =>
    let* total := acc in
    if negb (cols_ m =? c) && negb (Matrix_isEmpty m)
    then Throw (RuntimeError
           "Dimensions of arrays being concatenated are not consistent")
    else Ok (wrap64 (total + rows_ m))) ms (Ok acc)
  = Ok (acc + total_rows ms).
Proof.
  intros Hms. revert acc.
  induction Hms as [|m ms Hm Hms IH]; intros acc Hacc Hsz; simpl.
  - f_equal. lia.
  - rewrite (cols_or_empty_check c m Hm).
    pose proof (total_rows_nonneg ms
      (Forall_impl _ _ _ Hms (fun _ H => proj1 H))) as Hnn.
    destruct Hm as [(Hr & _) _]. simpl in Hsz.
    rewrite wrap64_small by lia. rewrite IH by lia. f_equal. lia.
Qed.

(** The second loop of [horzcat]: each matrix lands at the running column
    offset. *)
Lemma horzcat_copy r ms res off :
  Forall (rows_or_empty r) ms ->
  wf_Matrix res -> rows_ res = r -> cols_ res < SIZE_MAX_plus_1 ->
  0 <= off -> off + total_cols ms <= cols_ res ->
  exists res' off',
    fold_left (fun acc m =>
      let* (res, colOffset) := acc in
      let* res := for_ (rows_ m) (fun i res =>
               for_ (cols_ m) (fun j res =>
                 let* v := at2 m i j in
                 set2 res i (wrap64 (colOffset + j)) v) res) res in
      Ok (res, wrap64 (colOffset + cols_ m)))
      ms (Ok (res, off)) = Ok (res', off')
    /\ wf_Matrix res' /\ rows_ res' = r /\ cols_ res' = cols_ res
    /\ forall i j, 0 <= i < r -> 0 <= j < off + total_cols ms ->
         elem res' i j
         = if j <? off then elem res i j else hcat_elem ms i (j - off).
Proof.
  intros Hms. revert res off.
  induction Hms as [|m ms Hm Hms IH]; intros res off Hwr Hr Hsz Hoff Hfit.
  - exists res, off. simpl. split; [done|].
    refine (conj _ (conj _ (conj _ _))); try done.
    intros i j Hi Hj. simpl in Hj.
    by replace (j <? off) with true by (symmetry; apply Z.ltb_lt; lia).
  - simpl. simpl in Hfit.
    pose proof (total_cols_nonneg ms
      (Forall_impl _ _ _ Hms (fun _ H => proj1 H))) as Hnn.
    destruct Hm as [Hwm Hshape]. pose proof Hwm as (Hrm & Hcm & _).
    pose proof Hwr as (Hrr & _).
    destruct (copy_block (fun i => i) (fun j => wrap64 (off + j)) 0 off m res)
      as (res1 & E1 & Hw1 & Hr1 & Hc1 & Hel1); try done; try lia.
    { intros j Hj. apply wrap64_small. lia. }
    rewrite E1. simpl. rewrite wrap64_small by lia.
    destruct (IH res1 (off + cols_ m)) as (res' & off' & E & Hw' & Hr' & Hc' & Hel');
      try done; try lia.
    exists res', off'. split; [done|].
    refine (conj _ (conj _ (conj _ _))); try congruence.
    intros i j Hi Hj. rewrite Hel' by lia.
    destruct (Z.ltb_spec j (off + cols_ m)) as [Hlt|Hge].
    + rewrite Hel1 by lia.
      destruct (Z.ltb_spec j off) as [Hlt'|Hge'].
      * rewrite decide_False; [done|lia].
      * replace (j - off <? cols_ m) with true
          by (symmetry; apply Z.ltb_lt; lia).
        destruct Hshape as [Hrows|[Hrows Hcols]]; [|lia].
        rewrite decide_True by lia. f_equal. lia.
    + replace (j <? off) with false by (symmetry; apply Z.ltb_ge; lia).
      replace (j - off <? cols_ m) with false
        by (symmetry; apply Z.ltb_ge; lia).
      f_equal. lia.
Qed.

Lemma vertcat_copy c ms res off :
  Forall (cols_or_empty c) ms ->
  wf_Matrix res -> cols_ res = c -> rows_ res < SIZE_MAX_plus_1 ->
  0 <= off -> off + total_rows ms <= rows_ res ->
  exists res' off',
    fold_left (fun acc m =>
      let* (res, rowOffset) := acc in
      let* res := for_ (rows_ m) (fun i res =>
               for_ (cols_ m) (fun j res =>
                 let* v := at2 m i j in
                 set2 res (wrap64 (rowOffset + i)) j v) res) res in
      Ok (res, wrap64 (rowOffset + rows_ m)))
      ms (Ok (res, off)) = Ok (res', off')
    /\ wf_Matrix res' /\ rows_ res' = rows_ res /\ cols_ res' = c
    /\ forall i j, 0 <= i < off + total_rows ms -> 0 <= j < c ->
         elem res' i j
         = if i <? off then elem res i j else vcat_elem ms (i - off) j.
Proof.
  intros Hms. revert res off.
  induction Hms as [|m ms Hm Hms IH]; intros res off Hwr Hc Hsz Hoff Hfit.
  - exists res, off. simpl. split; [done|].
    refine (conj _ (conj _ (conj _ _))); try done.
    intros i j Hi Hj. simpl in Hi.
    by replace (i <? off) with true by (symmetry; apply Z.ltb_lt; lia).
  - simpl. simpl in Hfit.
    pose proof (total_rows_nonneg ms
      (Forall_impl _ _ _ Hms (fun _ H => proj1 H))) as Hnn.
    destruct Hm as [Hwm Hshape]. pose proof Hwm as (Hrm & Hcm & _).
    pose proof Hwr as (_ & Hcr & _).
    destruct (copy_block (fun i => wrap64 (off + i)) (fun j => j) off 0 m res)
      as (res1 & E1 & Hw1 & Hr1 & Hc1 & Hel1); try done; try lia.
    { intros i Hi. apply wrap64_small. lia. }
    rewrite E1. simpl. rewrite wrap64_small by lia.
    destruct (IH res1 (off + rows_ m)) as (res' & off' & E & Hw' & Hr' & Hc' & Hel');
      try done; try lia.
    exists res', off'. split; [done|].
    refine (conj _ (conj _ (conj _ _))); try congruence.
    intros i j Hi Hj. rewrite Hel' by lia.
    destruct (Z.ltb_spec i (off + rows_ m)) as [Hlt|Hge].
    + rewrite Hel1 by lia.
      destruct (Z.ltb_spec i off) as [Hlt'|Hge'].
      * rewrite decide_False; [done|lia].
      * replace (i - off <? rows_ m) with true
          by (symmetry; apply Z.ltb_lt; lia).
        destruct Hshape as [Hcols|[Hrows Hcols]]; [|lia].
        rewrite decide_True by lia. f_equal. lia.
    + replace (i <? off) with false by (symmetry; apply Z.ltb_ge; lia).
      replace (i - off <? rows_ m) with false
        by (symmetry; apply Z.ltb_ge; lia).
      f_equal. lia.
Qed.

Section ConcatenationCheck.

Variable extent : Matrix -> Z.
Variable measure : Matrix -> Z.
Variable n : Z.

Let step := fun (acc : Outcome Z) (m : Matrix) =>
  let* total := acc in
  if negb (extent m =? n) && negb (Matrix_isEmpty m)
  then Throw (RuntimeError
         "Dimensions of arrays being concatenated are not consistent")
  else Ok (wrap64 (total + measure m)).

Lemma check_throw_sticky ms e : fold_left step ms (Throw e) = Throw e.
Proof. induction ms as [|m ms IH]; [done|]. simpl. exact IH. Qed.

(** The dimension check fails as soon as one matrix that is not empty has
    another extent. *)
Lemma check_fails ms m acc :
  m ∈ ms -> extent m <> n -> Matrix_isEmpty m = false ->
  fold_left step ms (Ok acc) = Throw (RuntimeError not_consistent).
Proof.
  intros Hin Hne Hnonempty. revert acc.
  induction ms as [|m' ms IH]; intros acc.
  - by apply elem_of_nil in Hin.
  - simpl.
    destruct (negb (extent m' =? n) && negb (Matrix_isEmpty m')) eqn:Hcheck.
    + apply check_throw_sticky.
    + apply elem_of_cons in Hin as [->|Hin]; [|by apply IH].
      rewrite Hnonempty in Hcheck.
      replace (extent m' =? n) with false in Hcheck
        by (symmetry; by apply Z.eqb_neq).
      done.
Qed.

End ConcatenationCheck.

(** X7. [horzcat] of a list of well-formed matrices that have the row count
    of the first, 0x0 matrices apart: the result has that many rows and the
    sum of the column counts, and holds the matrices side by side in order,
    a 0x0 matrix adding nothing. When some matrix that is not empty has
    another row count than the first, the error "Dimensions of arrays being
    concatenated are not consistent" is raised; so a 0x0 matrix is skipped
    after a scalar, and makes the concatenation fail when it comes first. *)
Theorem horzcat_sets_matrices_side_by_side (m0 : Matrix) (ms : list Matrix) :
  (Forall (rows_or_empty (rows_ m0)) (m0 :: ms) ->
   total_cols (m0 :: ms) < SIZE_MAX_plus_1 ->
   rows_ m0 * total_cols (m0 :: ms) < SIZE_MAX_plus_1 ->
   exists res,
     horzcat (m0 :: ms) = Ok res /\ wf_Matrix res
     /\ rows_ res = rows_ m0 /\ cols_ res = total_cols (m0 :: ms)
     /\ forall i j, 0 <= i < rows_ res -> 0 <= j < cols_ res ->
          elem res i j = hcat_elem (m0 :: ms) i j)
  /\ (forall m, m ∈ m0 :: ms -> rows_ m <> rows_ m0 ->
                Matrix_isEmpty m = false ->
        horzcat (m0 :: ms) = Throw (RuntimeError not_consistent))
  /\ horzcat [Matrix_scalar 1; Matrix_empty; Matrix_scalar 2]
     = Ok (mkMatrix 1 2 [1; 2]%float)
  /\ horzcat [Matrix_empty; Matrix_scalar 1]
     = Throw (RuntimeError not_consistent).
Proof.
  split; [|split; [|split; reflexivity]].
  - intros Hms Hcols Hsz. unfold horzcat.
    pose proof (total_cols_nonneg _
      (Forall_impl _ _ _ Hms (fun _ H => proj1 H))) as Hnn.
    assert (Hr0 : 0 <= rows_ m0).
    { apply Forall_inv in Hms. by destruct Hms as [(? & _) _]. }
    rewrite (horzcat_total (rows_ m0) (m0 :: ms) 0) by (done || lia).
    match goal with
    | |- context [bind (Ok ?x) ?k] =>
        change (bind (Ok x) k) with (k x); cbv beta
    end.
    rewrite Z.add_0_l.
    destruct (horzcat_copy (rows_ m0) (m0 :: ms)
                (Matrix_new (rows_ m0) (total_cols (m0 :: ms))) 0)
      as (res & off & E & Hw & Hr & Hc & Hel); try done; try lia.
    { by apply Matrix_fill_wf. }
    rewrite E. simpl. exists res. split; [done|].
    refine (conj _ (conj _ (conj _ _))); try done.
    intros i j Hi Hj. rewrite Hel by (simpl in *; lia).
    replace (j <? 0) with false by (symmetry; apply Z.ltb_ge; lia).
    by rewrite Z.sub_0_r.
  - intros m Hin Hne Hnonempty. unfold horzcat.
    by rewrite (check_fails rows_ cols_ (rows_ m0) (m0 :: ms) m 0).
Qed.

Lemma horzcat_witness_row_of_three :
  exists res,
    horzcat [mkMatrix 1 1 [1]%float; Matrix_empty; mkMatrix 1 2 [2; 3]%float]
    = Ok res
    /\ wf_Matrix res /\ rows_ res = 1 /\ cols_ res = 3
    /\ forall i j, 0 <= i < rows_ res -> 0 <= j < cols_ res ->
         elem res i j
         = hcat_elem [mkMatrix 1 1 [1]%float; Matrix_empty;
                      mkMatrix 1 2 [2; 3]%float] i j.
Proof.
  apply (proj1 (horzcat_sets_matrices_side_by_side (mkMatrix 1 1 [1]%float)
                  [Matrix_empty; mkMatrix 1 2 [2; 3]%float])).
  - repeat (apply List.Forall_cons; [split; [by vm_compute|cbn; lia]|]).
    apply List.Forall_nil.
  - by vm_compute.
  - by vm_compute.
Defined.

(** X8. [vertcat] of a list of well-formed matrices that have the column
    count of the first, 0x0 matrices apart: the result has that many
    columns and the sum of the row counts, and holds the matrices stacked
    in order. When some matrix that is not empty has another column count
    than the first, the error "Dimensions of arrays being concatenated are
    not consistent" is raised. *)
Theorem vertcat_stacks_matrices (m0 : Matrix) (ms : list Matrix) :
  (Forall (cols_or_empty (cols_ m0)) (m0 :: ms) ->
   total_rows (m0 :: ms) < SIZE_MAX_plus_1 ->
   total_rows (m0 :: ms) * cols_ m0 < SIZE_MAX_plus_1 ->
   exists res,
     vertcat (m0 :: ms) = Ok res /\ wf_Matrix res
     /\ rows_ res = total_rows (m0 :: ms) /\ cols_ res = cols_ m0
     /\ forall i j, 0 <= i < rows_ res -> 0 <= j < cols_ res ->
          elem res i j = vcat_elem (m0 :: ms) i j)
  /\ (forall m, m ∈ m0 :: ms -> cols_ m <> cols_ m0 ->
                Matrix_isEmpty m = false ->
        vertcat (m0 :: ms) = Throw (RuntimeError not_consistent))
  /\ vertcat [mkMatrix 1 2 [1; 2]%float; mkMatrix 1 3 [3; 4; 5]%float]
     = Throw (RuntimeError not_consistent).
Proof.
  split; [|split; [|reflexivity]].
  - intros Hms Hrows Hsz. unfold vertcat.
    pose proof (total_rows_nonneg _
      (Forall_impl _ _ _ Hms (fun _ H => proj1 H))) as Hnn.
    assert (Hc0 : 0 <= cols_ m0).
    { apply Forall_inv in Hms. by destruct Hms as [(_ & ? & _) _]. }
    rewrite (vertcat_total (cols_ m0) (m0 :: ms) 0) by (done || lia).
    match goal with
    | |- context [bind (Ok ?x) ?k] =>
        change (bind (Ok x) k) with (k x); cbv beta
    end.
    rewrite Z.add_0_l.
    destruct (vertcat_copy (cols_ m0) (m0 :: ms)
                (Matrix_new (total_rows (m0 :: ms)) (cols_ m0)) 0)
      as (res & off & E & Hw & Hr & Hc & Hel); try done; try lia.
    { by apply Matrix_fill_wf. }
    rewrite E. simpl. exists res. split; [done|].
    refine (conj _ (conj _ (conj _ _))); try done.
    intros i j Hi Hj. rewrite Hel by (simpl in *; lia).
    replace (i <? 0) with false by (symmetry; apply Z.ltb_ge; lia).
    by rewrite Z.sub_0_r.
  - intros m Hin Hne Hnonempty. unfold vertcat.
    by rewrite (check_fails cols_ rows_ (cols_ m0) (m0 :: ms) m 0).
Qed.

Lemma vertcat_witness_two_rows :
  exists res,
    vertcat [mkMatrix 1 2 [1; 2]%float; mkMatrix 1 2 [3; 4]%float] = Ok res
    /\ wf_Matrix res /\ rows_ res = 2 /\ cols_ res = 2
    /\ forall i j, 0 <= i < rows_ res -> 0 <= j < cols_ res ->
         elem res i j
         = vcat_elem [mkMatrix 1 2 [1; 2]%float; mkMatrix 1 2 [3; 4]%float]
             i j.
Proof.
  apply (proj1 (vertcat_stacks_matrices (mkMatrix 1 2 [1; 2]%float)
                  [mkMatrix 1 2 [3; 4]%float])).
  - repeat (apply List.Forall_cons; [split; [by vm_compute|cbn; lia]|]).
    apply List.Forall_nil.
  - by vm_compute.
  - by vm_compute.
Defined.

(** * More of the environments *)

(** Rebinding variables somewhere in the store moves no parent link. *)
Lemma getGlobalEnv_loop_rebind fuel h a ea vars env :
  h !! a = Some ea ->
  getGlobalEnv_loop fuel (<[a := with_variables ea vars]> h) env
  = getGlobalEnv_loop fuel h env.
Proof.
  intros Ha. revert env. induction fuel as [|fuel IH]; intros env; simpl.
  - destruct (decide (a = env)) as [->|Hne].
    + rewrite list_lookup_insert_eq by (by apply lookup_lt_Some in Ha).
      by rewrite Ha.
    + by rewrite list_lookup_insert_ne.
  - destruct (decide (a = env)) as [->|Hne].
    + rewrite list_lookup_insert_eq by (by apply lookup_lt_Some in Ha).
      rewrite Ha. simpl. by destruct (parent_ ea).
    + rewrite list_lookup_insert_ne by done.
      destruct (h !! env) as [e|]; [|done]. by destruct (parent_ e).
Qed.

Lemma getGlobalEnv_rebind h a ea vars env :
  h !! a = Some ea ->
  getGlobalEnv (<[a := with_variables ea vars]> h) env = getGlobalEnv h env.
Proof.
  intros Ha. unfold getGlobalEnv. rewrite length_insert.
  by apply getGlobalEnv_loop_rebind.
Qed.

Lemma Env_bind_ok h env e name v :
  h !! env = Some e ->
  Env_bind h env name v
  = Ok (<[env := with_variables e (<[name := v]> (variables_ e))]> h).
Proof. intros He. unfold Env_bind. by rewrite He. Qed.

(** X9. Writing a variable that the environment does not redirect (it is
    not declared global there, or the environment is the root) binds it in
    that environment: reading it back there gives the value written, every
    other name reads as before, and no other environment of the store is
    changed. *)
Theorem Env_set_binds_locally h env e name v :
  h !! env = Some e ->
  name ∉ globals_ e \/ parent_ e = None ->
  exists h',
    Env_set h env name v = Ok h'
    /\ Env_get h' env name = Ok (Some v)
    /\ (forall n, n <> name -> Env_get h' env n = Env_get h env n)
    /\ (forall env2, env2 <> env -> h' !! env2 = h !! env2).
Proof.
  intros He Hlocal.
  assert (Hcond : bool_decide (name ∈ globals_ e)
                  && bool_decide (is_Some (parent_ e)) = false).
  { destruct Hlocal as [Hg|Hp].
    - by rewrite bool_decide_eq_false_2.
    - rewrite Hp. rewrite (bool_decide_eq_false_2 (is_Some None)).
      + apply andb_false_r.
      + by intros [? ?]. }
  assert (Hlen : (env < length h)%nat) by (by apply lookup_lt_Some in He).
  eexists. split.
  { unfold Env_set. rewrite He, Hcond. by apply Env_bind_ok. }
  split; [|split].
  - unfold Env_get. rewrite list_lookup_insert_eq by done. simpl.
    by rewrite lookup_insert_eq.
  - intros n Hn. unfold Env_get.
    rewrite list_lookup_insert_eq by done. rewrite He. simpl.
    rewrite lookup_insert_ne by done.
    destruct (variables_ e !! n); [done|].
    destruct (bool_decide (n ∈ globals_ e)
              && bool_decide (is_Some (parent_ e))) eqn:Hredirect; [|done].
    rewrite getGlobalEnv_rebind by done.
    destruct (getGlobalEnv h env) as [g| | |] eqn:Hg; try done. simpl.
    assert (g <> env) as Hne.
    { intros ->.
      destruct (getGlobalEnv_loop_root _ _ _ _ Hg) as (ge & Hge & Hroot).
      rewrite He in Hge. injection Hge as <-.
      apply andb_true_iff in Hredirect as [_ Hp].
      apply bool_decide_eq_true in Hp. rewrite Hroot in Hp.
      by destruct Hp. }
    by rewrite list_lookup_insert_ne.
  - intros env2 Hne. by rewrite list_lookup_insert_ne.
Qed.

Lemma Env_set_witness_root :
  exists h',
    Env_set [mkEnvironment None ∅ ∅] 0 "x" (makeScalar 1) = Ok h'
    /\ Env_get h' 0 "x" = Ok (Some (makeScalar 1))
    /\ (forall n, n <> "x"%string ->
          Env_get h' 0 n = Env_get [mkEnvironment None ∅ ∅] 0 n)
    /\ (forall env2, env2 <> 0%nat ->
          h' !! env2 = [mkEnvironment None ∅ ∅] !! env2).
Proof.
  apply (Env_set_binds_locally [mkEnvironment None ∅ ∅] 0
           (mkEnvironment None ∅ ∅)).
  - reflexivity.
  - by right.
Defined.

(** X10. Writing a variable in an environment that has a parent and
    declares the name global binds it in the root environment and leaves
    the environment itself as it was. Every environment of the same root
    that declares the name global and has no binding of its own for it
    then reads the value written, and so does the root; one that has a
    binding of its own (made before the name was declared global) still
    reads that binding. A function that assigns [x], declares it global
    and assigns it again reads back its first value, while the top level
    finds the second. *)
Theorem global_variables_are_shared_through_the_root h env e name v g :
  h !! env = Some e ->
  name ∈ globals_ e -> is_Some (parent_ e) ->
  getGlobalEnv h env = Ok g ->
  exists h',
    Env_set h env name v = Ok h'
    /\ h' !! env = Some e
    /\ Env_get h' g name = Ok (Some v)
    /\ (forall env2 e2,
          h !! env2 = Some e2 -> name ∈ globals_ e2 ->
          is_Some (parent_ e2) -> getGlobalEnv h env2 = Ok g ->
          Env_get h' env2 name
          = Ok (Some (default v (variables_ e2 !! name))))
    /\ (let r := execute no_pow no_builtins no_files 10 local_before_global
                   Interpreter_new in
        fst r = Ok tt
        /\ variable_at (snd r) 0 "r" = Ok (Some (makeScalar 1))
        /\ variable_at (snd r) 0 "g" = Ok (Some (makeScalar 2))).
Proof.
  intros He Hg Hp Hroot.
  destruct (getGlobalEnv_loop_root _ _ _ _ Hroot) as (ge & Hge & Hnoparent).
  assert (Hne : g <> env).
  { intros ->. rewrite He in Hge. injection Hge as <-.
    rewrite Hnoparent in Hp. by destruct Hp. }
  assert (Hlen : (g < length h)%nat) by (by apply lookup_lt_Some in Hge).
  eexists. split.
  { unfold Env_set. rewrite He. rewrite !bool_decide_eq_true_2 by done.
    simpl. rewrite Hroot. simpl. by apply Env_bind_ok. }
  split; [by rewrite list_lookup_insert_ne|].
  split; [|split].
  - unfold Env_get. rewrite list_lookup_insert_eq by done. simpl.
    by rewrite lookup_insert_eq.
  - intros env2 e2 He2 Hg2 Hp2 Hroot2.
    assert (Hne2 : g <> env2).
    { intros ->. rewrite He2 in Hge. injection Hge as <-.
      rewrite Hnoparent in Hp2. by destruct Hp2. }
    unfold Env_get. rewrite list_lookup_insert_ne by done. rewrite He2.
    destruct (variables_ e2 !! name) as [w|]; [done|].
    rewrite !bool_decide_eq_true_2 by done. simpl.
    rewrite getGlobalEnv_rebind, Hroot2 by done. simpl.
    rewrite list_lookup_insert_eq by done. simpl.
    by rewrite lookup_insert_eq.
  - vm_compute. by repeat split.
Qed.

(** Two function scopes under the root, both declaring [g] global: what one
    writes the other reads. *)
Lemma global_variables_witness_two_scopes :
  exists h',
    Env_set [mkEnvironment None ∅ ∅;
             mkEnvironment (Some 0%nat) ∅ {[ "g"%string ]};
             mkEnvironment (Some 0%nat) ∅ {[ "g"%string ]}]
      1 "g" (makeScalar 7) = Ok h'
    /\ Env_get h' 2 "g" = Ok (Some (makeScalar 7)).
Proof.
  destruct (global_variables_are_shared_through_the_root
              [mkEnvironment None ∅ ∅;
               mkEnvironment (Some 0%nat) ∅ {[ "g"%string ]};
               mkEnvironment (Some 0%nat) ∅ {[ "g"%string ]}]
              1 (mkEnvironment (Some 0%nat) ∅ {[ "g"%string ]}) "g"
              (makeScalar 7) 0)
    as (h' & Hset & _ & _ & Hshared & _).
  - reflexivity.
  - set_solver.
  - by eexists.
  - reflexivity.
  - exists h'. split; [exact Hset|].
    rewrite (Hshared 2%nat (mkEnvironment (Some 0%nat) ∅ {[ "g"%string ]}));
      [|reflexivity|set_solver|by eexists|reflexivity].
    simpl. by rewrite lookup_empty.
Defined.

(** * More of the interpreter *)

(** ** The one-index read *)

Lemma Matrix_scalar_data d : Matrix_scalar d = mkMatrix 1 1 [d].
Proof. reflexivity. Qed.

(** X11. The one-index read [A(d)] of a numeric variable with a scalar
    index, [k] being the index truncated to an integer: for [1 <= k <=
    numel(A)] it returns the k-th element in the order the elements are
    stored, row after row (for a well-formed matrix, the element at row
    [(k-1) / cols] and column [(k-1) mod cols]); for [k = 0] and for
    [k > numel(A)] it raises "Index exceeds array dimensions". *)
Theorem one_index_read_is_checked (mat : Matrix) (d : float) (k : Z) :
  to_size_t d = Ok k -> numel mat < SIZE_MAX_plus_1 ->
  (1 <= k <= numel mat ->
     indexLinear mat (makeScalar d)
     = Ok (Some (makeScalar (nth (Z.to_nat (k - 1)) (data_ mat) 0%float)))
     /\ (wf_Matrix mat ->
         nth (Z.to_nat (k - 1)) (data_ mat) 0%float
         = elem mat ((k - 1) / cols_ mat) ((k - 1) mod cols_ mat)))
  /\ (k = 0 \/ numel mat < k ->
        indexLinear mat (makeScalar d)
        = Throw (RuntimeError "Index exceeds array dimensions")).
Proof.
  intros Hd Hsz.
  assert (Hk : 0 <= k < SIZE_MAX_plus_1).
  { unfold to_size_t in Hd.
    destruct (Prim2SF d) as [s| | |s m e]; try done.
    - injection Hd as <-. done.
    - destruct s.
      + destruct (_ =? 0); [|done]. injection Hd as <-. done.
      + destruct (Z.ltb_spec (if 0 <=? e then Z.shiftl (Z.pos m) e
                              else Z.shiftr (Z.pos m) (- e)) SIZE_MAX_plus_1)
          as [Hlt|]; [|done].
        injection Hd as <-. split; [|done].
        destruct (0 <=? e) eqn:He.
        * apply Z.shiftl_nonneg. lia.
        * apply Z.shiftr_nonneg. lia. }
  assert (Hnum : 0 <= numel mat) by (unfold numel; lia).
  assert (Hstart : forall r,
    (let* i := index0 d in
     if numel mat <=? i
     then Throw (RuntimeError "Index exceeds array dimensions")
     else let* v := at_ mat i in Ok (Some (makeScalar v))) = r ->
    indexLinear mat (makeScalar d) = r).
  { intros r <-. unfold indexLinear, makeScalar. rewrite Matrix_scalar_data.
    reflexivity. }
  split.
  - intros Hin. split.
    + apply Hstart. unfold index0. rewrite Hd. simpl.
      rewrite wrap64_small by lia.
      replace (numel mat <=? k - 1) with false
        by (symmetry; apply Z.leb_gt; lia).
      by rewrite at_elem by lia.
    + intros (Hr & Hc & _ & Hn). unfold elem.
      assert (0 < cols_ mat) by nia.
      f_equal. f_equal.
      pose proof (Z.div_mod (k - 1) (cols_ mat) ltac:(lia)). lia.
  - intros Hout. apply Hstart. unfold index0. rewrite Hd. simpl.
    destruct Hout as [-> | Hgt].
    + change (wrap64 (0 - 1)) with (SIZE_MAX_plus_1 - 1).
      by replace (numel mat <=? SIZE_MAX_plus_1 - 1) with true
        by (symmetry; apply Z.leb_le; lia).
    + rewrite wrap64_small by lia.
      by replace (numel mat <=? k - 1) with true
        by (symmetry; apply Z.leb_le; lia).
Qed.

(** [A = [1 2; 3 4]]: [A(2)] is 2, the second element of the first row. *)
Lemma one_index_read_witness :
  indexLinear (mkMatrix 2 2 [1; 2; 3; 4]%float) (makeScalar 2)
  = Ok (Some (makeScalar 2))
  /\ indexLinear (mkMatrix 2 2 [1; 2; 3; 4]%float) (makeScalar 5)
     = Throw (RuntimeError "Index exceeds array dimensions").
Proof.
  split.
  - apply (proj1 (proj1 (one_index_read_is_checked
             (mkMatrix 2 2 [1; 2; 3; 4]%float) 2%float 2
             eq_refl ltac:(by vm_compute)) ltac:(by vm_compute))).
  - apply (proj2 (one_index_read_is_checked
             (mkMatrix 2 2 [1; 2; 3; 4]%float) 5%float 5
             eq_refl ltac:(by vm_compute))).
    right. by vm_compute.
Defined.

(** ** Calling a user function *)

Lemma scope_state_lookup st vars :
  store (scope_state st vars) !! length (store st)
  = Some (mkEnvironment (Some (globalEnv_ st)) vars ∅).
Proof. simpl. by apply list_lookup_middle. Qed.

Lemma env_set_at_scope st vars name v :
  env_set_at (length (store st)) name v (scope_state st vars)
  = (Ok tt, scope_state st (<[name := v]> vars)).
Proof.
  unfold env_set_at, Env_set. rewrite scope_state_lookup. simpl.
  rewrite bool_decide_eq_false_2 by apply not_elem_of_empty. simpl.
  unfold Env_bind. rewrite list_lookup_middle by done. simpl.
  unfold set_store, scope_state. simpl.
  rewrite insert_app_r_alt by done. by rewrite Nat.sub_diag.
Qed.

Lemma setup_parameters st bs vars :
  for_each (fun pa => env_set_at (length (store st)) (fst pa) (snd pa)) bs
    (scope_state st vars)
  = (Ok tt, scope_state st (bind_all vars bs)).
Proof.
  revert vars. induction bs as [|p bs IH]; intros vars; [done|].
  simpl. unfold bindM. rewrite env_set_at_scope. apply IH.
Qed.

Lemma setup_returns st returns vars :
  for_each (fun r =>
    let! present :=
      (fun st' => (Env_has (store st') (length (store st)) r, st')) in
    if negb present then env_set_at (length (store st)) r makeEmpty
    else ret tt) returns (scope_state st vars)
  = (Ok tt, scope_state st (returns_initialised returns vars)).
Proof.
  revert vars. induction returns as [|r returns IH]; intros vars; [done|].
  change (returns_initialised (r :: returns) vars)
    with (returns_initialised returns
            (if bool_decide (is_Some (vars !! r)) then vars
             else <[r := makeEmpty]> vars)).
  cbn [for_each]. unfold bindM at 1. unfold bindM at 1.
  unfold Env_has. rewrite scope_state_lookup. cbn [variables_ globals_].
  destruct (bool_decide (is_Some (vars !! r))); cbn [negb bind].
  - apply IH.
  - rewrite (bool_decide_eq_false_2 (r ∈ ∅)) by apply not_elem_of_empty.
    cbn [andb negb]. rewrite env_set_at_scope. apply IH.
Qed.

Lemma callUserFunction_entry rec func args nargout st :
  callUserFunction rec func args nargout st
  = run_function_body rec func (currentEnv_ st) (length (store st))
      (scope_state st (function_scope func args nargout)).
Proof.
  unfold callUserFunction, Env_createChild.
  unfold bindM at 1. unfold set_store at 1.
  unfold bindM at 1. unfold set_currentEnv at 1.
  change (mkInterpreter _ _ _ _ _ _) with (scope_state st ∅).
  unfold bindM at 1. rewrite setup_parameters.
  unfold bindM at 1. rewrite env_set_at_scope.
  unfold bindM at 1. rewrite env_set_at_scope.
  unfold bindM at 1. rewrite setup_returns.
  reflexivity.
Qed.

Lemma elem_of_zip_fst {A B} (ps : list A) (xs : list B) n :
  n ∈ map fst (zip ps xs) ->
  exists i, ps !! i = Some n /\ (i < length xs)%nat.
Proof.
  revert xs. induction ps as [|p ps IH]; intros [|x xs] Hn; simpl in Hn;
    try (by apply elem_of_nil in Hn).
  apply elem_of_cons in Hn as [->|Hn].
  - exists 0%nat. simpl. split; [done|lia].
  - destruct (IH xs Hn) as (i & Hi & Hlt). exists (S i). simpl.
    split; [done|lia].
Qed.

Lemma bind_all_zip_lookup ps xs vars i p a :
  NoDup ps -> ps !! i = Some p -> xs !! i = Some a ->
  bind_all vars (zip ps xs) !! p = Some a.
Proof.
  revert xs vars i. induction ps as [|p0 ps IH]; intros [|x0 xs] vars i Hnd Hp Ha;
    try done.
  apply NoDup_cons in Hnd as [Hnotin Hnd].
  change (bind_all vars (zip (p0 :: ps) (x0 :: xs)))
    with (bind_all (<[p0 := x0]> vars) (zip ps xs)).
  destruct i as [|i]; simpl in Hp, Ha.
  - injection Hp as ->. injection Ha as ->.
    rewrite bind_all_notin; [by rewrite lookup_insert_eq|].
    intros (j & Hj & _)%elem_of_zip_fst.
    apply Hnotin. by apply list_elem_of_lookup_2 in Hj.
  - by apply (IH xs _ i).
Qed.

Lemma bind_all_zip_missing ps xs (vars : gmap string Value) p :
  (forall i, ps !! i = Some p -> (length xs <= i)%nat) ->
  bind_all vars (zip ps xs) !! p = vars !! p.
Proof.
  intros Hmissing. apply bind_all_notin.
  intros (i & Hi & Hlt)%elem_of_zip_fst. specialize (Hmissing i Hi). lia.
Qed.

Lemma returns_initialised_bound returns vars n v :
  vars !! n = Some v -> returns_initialised returns vars !! n = Some v.
Proof.
  revert vars. induction returns as [|r returns IH]; intros vars Hn; [done|].
  unfold returns_initialised. simpl. apply IH.
  case_bool_decide as Hr; [done|].
  rewrite lookup_insert_ne; [done|]. intros ->. apply Hr. by rewrite Hn.
Qed.

Lemma returns_initialised_unbound returns vars n :
  vars !! n = None ->
  returns_initialised returns vars !! n
  = if bool_decide (n ∈ returns) then Some makeEmpty else None.
Proof.
  revert vars. induction returns as [|r returns IH]; intros vars Hn.
  - rewrite bool_decide_eq_false_2; [done|]. apply not_elem_of_nil.
  - change (returns_initialised (r :: returns) vars)
      with (returns_initialised returns
              (if bool_decide (is_Some (vars !! r)) then vars
               else <[r := makeEmpty]> vars)).
    destruct (decide (n = r)) as [->|Hne].
    + rewrite (bool_decide_eq_false_2 (is_Some (vars !! r)))
        by (rewrite Hn; by intros [? ?]).
      rewrite (returns_initialised_bound _ _ r makeEmpty)
        by apply lookup_insert_eq.
      rewrite bool_decide_eq_true_2; [done|by left].
    + rewrite IH.
      * apply (f_equal (fun b : bool => if b then Some makeEmpty else None)).
        apply bool_decide_ext. rewrite elem_of_cons.
        split; [by right|]. by intros [?|?].
      * destruct (bool_decide (is_Some (vars !! r))); [done|].
        by rewrite lookup_insert_ne.
Qed.

(** X12. A call of a user function runs the body in a new scope: a fresh
    child of the global environment (not of the caller's), which declares
    nothing global, the environments that exist being left as they are.
    When the body starts this scope binds [nargout], [nargin] (the number
    of arguments passed, also when there are more than parameters), each
    parameter that has an argument to that argument (the parameters being
    distinct and not named [nargin] or [nargout]), and each return variable
    that is not such a parameter to the empty value; a parameter without
    argument, and every other name, is unbound. *)
Theorem function_call_scope :
  (forall rec func args nargout st,
     callUserFunction rec func args nargout st
     = run_function_body rec func (currentEnv_ st) (length (store st))
         (scope_state st (function_scope func args nargout)))
  /\ (forall st vars,
        currentEnv_ (scope_state st vars) = length (store st)
        /\ store (scope_state st vars) !! length (store st)
           = Some (mkEnvironment (Some (globalEnv_ st)) vars ∅)
        /\ forall env, (env < length (store st))%nat ->
             store (scope_state st vars) !! env = store st !! env)
  /\ (forall func args nargout,
        function_scope func args nargout !! "nargout"
        = Some (makeScalar (Z_to_double nargout))
        /\ function_scope func args nargout !! "nargin"
           = Some (makeScalar (Z_to_double (Z.of_nat (length args)))))
  /\ (forall func args nargout i p a,
        NoDup (fd_params func) ->
        fd_params func !! i = Some p -> args !! i = Some a ->
        p <> "nargin"%string -> p <> "nargout"%string ->
        function_scope func args nargout !! p = Some a)
  /\ (forall func args nargout p,
        (forall i, fd_params func !! i = Some p -> (length args <= i)%nat) ->
        p <> "nargin"%string -> p <> "nargout"%string ->
        function_scope func args nargout !! p
        = if bool_decide (p ∈ fd_returns func) then Some makeEmpty else None).
Proof.
  split; [apply callUserFunction_entry|].
  split.
  { intros st vars. split; [done|]. split; [apply scope_state_lookup|].
    intros env Hlt. simpl. by apply lookup_app_l. }
  split.
  { intros func args nargout. unfold function_scope. split.
    - apply returns_initialised_bound, lookup_insert_eq.
    - apply returns_initialised_bound.
      rewrite lookup_insert_ne by done. apply lookup_insert_eq. }
  split.
  - intros func args nargout i p a Hnd Hp Ha Hn1 Hn2. unfold function_scope.
    apply returns_initialised_bound.
    rewrite !lookup_insert_ne by done. by apply (bind_all_zip_lookup _ _ _ i).
  - intros func args nargout p Hmissing Hn1 Hn2. unfold function_scope.
    apply returns_initialised_unbound.
    rewrite !lookup_insert_ne by done.
    by rewrite bind_all_zip_missing.
Qed.

(** [function r = f(a, b)] called with one argument: [a] is bound to it,
    [b] is unbound and [r] is empty. *)
Lemma function_call_scope_witness :
  function_scope (mkFunctionDef "f" ["a"; "b"]%string ["r"%string] [])
    [makeScalar 7] 1 !! "a"%string = Some (makeScalar 7)
  /\ function_scope (mkFunctionDef "f" ["a"; "b"]%string ["r"%string] [])
       [makeScalar 7] 1 !! "b"%string = None
  /\ function_scope (mkFunctionDef "f" ["a"; "b"]%string ["r"%string] [])
       [makeScalar 7] 1 !! "r"%string = Some makeEmpty.
Proof.
  split; [|split].
  - apply (proj1 (proj2 (proj2 (proj2 function_call_scope)))
             (mkFunctionDef "f" ["a"; "b"]%string ["r"%string] [])
             [makeScalar 7] 1 0%nat "a"%string (makeScalar 7)); try done.
    by apply (bool_decide_unpack _).
  - rewrite (proj2 (proj2 (proj2 (proj2 function_call_scope)))
               (mkFunctionDef "f" ["a"; "b"]%string ["r"%string] [])
               [makeScalar 7] 1 "b"%string); [done| |done|done].
    intros [|[|i]] Hi; simpl in *; try done; lia.
  - rewrite (proj2 (proj2 (proj2 (proj2 function_call_scope)))
               (mkFunctionDef "f" ["a"; "b"]%string ["r"%string] [])
               [makeScalar 7] 1 "r"%string); [done| |done|done].
    intros [|[|i]] Hi; simpl in *; done.
Defined.

(** X13. How a call of a user function ends. When the body raises an error
    or a break or continue signal, the call raises it in the state the body
    left: the current environment is not set back to the caller's. When the
    body ends normally or by [return], the call gives the value the first
    return variable has in the function's scope (the empty value when it is
    unbound or when the function declares no return variable), whatever the
    other return variables hold, and the caller's environment is current
    again. So after an error inside a call is caught by the caller's
    try/catch, the caller's own variables are out of reach. *)
Theorem function_call_exit
  (rec : Callbacks) (func : FunctionDef) (args : list Value) (nargout : Z)
  (st : Interpreter) :
  let st0 := scope_state st (function_scope func args nargout) in
  let body := for_each (cb_executeStmt rec) (fd_body func) in
  (forall e st1,
     e <> ReturnSignal -> body st0 = (Throw e, st1) ->
     callUserFunction rec func args nargout st = (Throw e, st1))
  /\ (forall st1,
        body st0 = (Ok tt, st1) \/ body st0 = (Throw ReturnSignal, st1) ->
        (fd_returns func = [] ->
         callUserFunction rec func args nargout st
         = (Ok makeEmpty, snd (set_currentEnv (currentEnv_ st) st1)))
        /\ (forall r0 rest r,
              fd_returns func = r0 :: rest ->
              Env_get (store st1) (length (store st)) r0 = Ok r ->
              callUserFunction rec func args nargout st
              = (Ok (default makeEmpty r),
                 snd (set_currentEnv (currentEnv_ st) st1))))
  /\ (let r := execute no_pow no_builtins no_files 10 error_inside_call
                 Interpreter_new in
      fst r = Throw (RuntimeError "Undefined variable or function 'x'")
      /\ variable_at (snd r) 0 "x" = Ok (Some (makeScalar 1))
      /\ currentEnv_ (snd r) = 1%nat).
Proof.
  intros st0 body.
  split; [|split].
  - intros e st1 Hne Hbody. rewrite callUserFunction_entry.
    unfold run_function_body. unfold bindM at 1. unfold catchReturn.
    fold st0. fold body. rewrite Hbody. by destruct e.
  - intros st1 Hbody.
    assert (Hcatch : catchReturn body st0 = (Ok tt, st1)).
    { unfold catchReturn. by destruct Hbody as [-> | ->]. }
    split.
    + intros Hret. rewrite callUserFunction_entry.
      unfold run_function_body. unfold bindM at 1.
      fold st0. fold body. rewrite Hcatch, Hret. reflexivity.
    + intros r0 rest r Hret Hget. rewrite callUserFunction_entry.
      unfold run_function_body. unfold bindM at 1.
      fold st0. fold body. rewrite Hcatch, Hret.
      unfold bindM. rewrite Hget. by destruct r.
  - vm_compute. by repeat split.
Qed.

(** The first part at work: [function f() z = nowhere; end]. *)
Lemma function_call_exit_witness :
  exists st1,
    callUserFunction (interpreter no_pow no_builtins no_files 5 5)
      (mkFunctionDef "f" [] []
         [AssignStmt (Identifier "z") (Identifier "nowhere") false])
      [] 1 Interpreter_new
    = (Throw (RuntimeError "Undefined variable or function 'nowhere'"), st1)
    /\ currentEnv_ st1 = 1%nat.
Proof.
  eexists. split.
  - apply (proj1 (function_call_exit
             (interpreter no_pow no_builtins no_files 5 5)
             (mkFunctionDef "f" [] []
                [AssignStmt (Identifier "z") (Identifier "nowhere") false])
             [] 1 Interpreter_new)); [done|].
    vm_compute. reflexivity.
  - reflexivity.
Defined.

(** ** Binary operators and [switch] *)

(** X14. A binary expression evaluates its left operand, then its right
    operand, and only then looks at the operator: an error in either
    operand is the result, also for [&&] and [||], which do not skip the
    right operand when the left one decides. [0 && nowhere] and
    [1 || nowhere] raise the undefined-variable error. *)
Theorem binary_operators_evaluate_both_operands
  (pow : float -> float -> float) (rec : Callbacks) (op : TokenType)
  (lhs rhs : Expr) (st : Interpreter) :
  (forall e st1,
     cb_evalExpr rec lhs st = (Throw e, st1) ->
     evalBinary pow rec op lhs rhs st = (Throw e, st1))
  /\ (forall vl st1 e st2,
        cb_evalExpr rec lhs st = (Ok vl, st1) ->
        cb_evalExpr rec rhs st1 = (Throw e, st2) ->
        evalBinary pow rec op lhs rhs st = (Throw e, st2))
  /\ (forall vl st1 vr st2,
        cb_evalExpr rec lhs st = (Ok vl, st1) ->
        cb_evalExpr rec rhs st1 = (Ok vr, st2) ->
        evalBinary pow rec op lhs rhs st
        = (evalBinaryValues pow op vl vr, st2))
  /\ fst (evalExpr no_pow no_builtins no_files 5
            (BinaryExpr SHORT_AND (num 0) (Identifier "nowhere"))
            Interpreter_new)
     = Throw (RuntimeError "Undefined variable or function 'nowhere'")
  /\ fst (evalExpr no_pow no_builtins no_files 5
            (BinaryExpr SHORT_OR (num 1) (Identifier "nowhere"))
            Interpreter_new)
     = Throw (RuntimeError "Undefined variable or function 'nowhere'").
Proof.
  split; [|split; [|split; [|split]]].
  - intros e st1 Hl. unfold evalBinary, bindM. by rewrite Hl.
  - intros vl st1 e st2 Hl Hr. unfold evalBinary, bindM. by rewrite Hl, Hr.
  - intros vl st1 vr st2 Hl Hr. unfold evalBinary, bindM, lift.
    by rewrite Hl, Hr.
  - vm_compute. reflexivity.
  - vm_compute. reflexivity.
Qed.

Section SwitchFacts.

Variable rec : Callbacks.

Lemma execSwitch_cases_step val e body rest st cv st1 :
  cb_evalExpr rec e st = (Ok cv, st1) ->
  forall matched, switch_match val cv = Ok matched ->
  execSwitch_cases rec val ((Some e, body) :: rest) st
  = if matched then execBlock rec body st1
    else execSwitch_cases rec val rest st1.
Proof.
  intros He matched Hm. cbn [execSwitch_cases]. unfold bindM at 1.
  rewrite He. unfold bindM at 1. unfold switch_match in Hm.
  destruct (isScalar val && isScalar cv).
  - unfold bindM, lift, ret.
    destruct (scalarDouble val) as [x| | |]; try done.
    destruct (scalarDouble cv) as [y| | |]; try done.
    simpl in Hm. injection Hm as <-. by destruct (PrimFloat.eqb x y).
  - destruct (isString val && isString cv); unfold ret;
      injection Hm as <-; [|done].
    by destruct (String.eqb (string_ val) (string_ cv)).
Qed.

Lemma execSwitch_cases_skip val pre cases st :
  cases_do_not_match rec val pre st ->
  execSwitch_cases rec val (pre ++ cases) st
  = execSwitch_cases rec val cases st.
Proof.
  induction 1 as [|[c body] pre (e & v & Hc & He & Hm) _ IH]; [done|].
  simpl in Hc. subst c. simpl app.
  by rewrite (execSwitch_cases_step _ _ _ _ _ _ _ He false Hm).
Qed.

End SwitchFacts.

(** X15. A switch statement runs the body of the first case whose value
    matches and nothing else: the cases before it, whose values evaluate
    without effect and do not match, are passed over, and the cases after
    it are neither evaluated nor run. An [otherwise] reached this way runs
    its body; with no case left nothing is run. Two scalars match when they
    are equal under [==], so NaN matches no case; two strings match when
    they are the same string; a number and a string never match. *)
Theorem switch_runs_the_first_matching_case :
  (forall rec val pre e body post st cv st1,
     cases_do_not_match rec val pre st ->
     cb_evalExpr rec e st = (Ok cv, st1) ->
     switch_match val cv = Ok true ->
     execSwitch_cases rec val (pre ++ (Some e, body) :: post) st
     = execBlock rec body st1)
  /\ (forall rec val pre body post st,
        cases_do_not_match rec val pre st ->
        execSwitch_cases rec val (pre ++ (None, body) :: post) st
        = execBlock rec body st)
  /\ (forall rec val pre st,
        cases_do_not_match rec val pre st ->
        execSwitch_cases rec val pre st = (Ok tt, st))
  /\ (forall x y,
        switch_match (makeScalar x) (makeScalar y) = Ok (PrimFloat.eqb x y))
  /\ switch_match (makeScalar nan) (makeScalar nan) = Ok false
  /\ (forall s t,
        switch_match (makeString s) (makeString t) = Ok (String.eqb s t))
  /\ (forall x s,
        switch_match (makeScalar x) (makeString s) = Ok false
        /\ switch_match (makeString s) (makeScalar x) = Ok false).
Proof.
  split; [|split; [|split; [|split; [|split; [|split]]]]].
  - intros rec val pre e body post st cv st1 Hpre He Hm.
    rewrite execSwitch_cases_skip by done.
    by rewrite (execSwitch_cases_step _ _ _ _ _ _ _ _ He true Hm).
  - intros rec val pre body post st Hpre.
    by rewrite execSwitch_cases_skip by done.
  - intros rec val pre st Hpre.
    rewrite <- (app_nil_r pre). by rewrite execSwitch_cases_skip by done.
  - intros x y. unfold makeScalar. by rewrite !Matrix_scalar_data.
  - reflexivity.
  - reflexivity.
  - intros x s. unfold makeScalar. by rewrite Matrix_scalar_data.
Qed.

(** [switch 2, case 1, a = 1; case 2, a = 2; case 2, a = 3; end] binds
    [a] to 2. *)
Lemma switch_witness_second_case :
  execSwitch_cases (interpreter no_pow no_builtins no_files 5 5)
    (makeScalar 2)
    ([(Some (num 1), [AssignStmt (Identifier "a") (num 1) false])]
     ++ (Some (num 2), [AssignStmt (Identifier "a") (num 2) false])
        :: [(Some (num 2), [AssignStmt (Identifier "a") (num 3) false])])
    Interpreter_new
  = execBlock (interpreter no_pow no_builtins no_files 5 5)
      [AssignStmt (Identifier "a") (num 2) false] Interpreter_new.
Proof.
  apply (proj1 switch_runs_the_first_matching_case
           (interpreter no_pow no_builtins no_files 5 5) (makeScalar 2)
           [(Some (num 1), [AssignStmt (Identifier "a") (num 1) false])]
           (num 2) _ _ Interpreter_new (makeScalar 2) Interpreter_new).
  - apply List.Forall_cons; [|apply List.Forall_nil].
    exists (num 1), (makeScalar 1). by repeat split.
  - reflexivity.
  - reflexivity.
Defined.

(** * More of the lexer *)

Section PeekFacts.

Variable stod : string -> option float.

(** X16. Peeking does not consume: when the next token is [tok],
    [peekToken] returns it and keeps it; peeking again returns the same
    token and changes nothing; the [nextToken] that follows returns it
    too and leaves the lexer where a [nextToken] without the peek would
    have left it ([peekedToken_] apart), [tok] being the last token
    there. A lexical error of the next token is raised by the peek. *)
Theorem peekToken_does_not_consume (fuel : nat) (lx : Lexer) :
  hasPeeked_ lx = false ->
  (forall tok lx1,
     nextToken stod fuel lx = LexOk (tok, lx1) ->
     lastToken_ lx1 = tok /\ hasPeeked_ lx1 = false
     /\ peekToken stod fuel lx = LexOk (tok, with_peeked lx1 true tok)
     /\ (forall fuel',
           peekToken stod fuel' (with_peeked lx1 true tok)
           = LexOk (tok, with_peeked lx1 true tok))
     /\ (forall fuel',
           nextToken stod (S fuel') (with_peeked lx1 true tok)
           = LexOk (tok, with_peeked lx1 false tok)))
  /\ (forall msg ln cl,
        nextToken stod fuel lx = LexerError msg ln cl ->
        peekToken stod fuel lx = LexerError msg ln cl).
Proof.
  intros Hp. split.
  - intros tok lx1 E.
    destruct (nextToken_emits stod fuel lx Hp tok lx1 E) as (Hlast & Hp1 & _).
    rewrite Hp in Hp1.
    split; [done|]. split; [done|]. split; [|split].
    + unfold peekToken. by rewrite Hp, E.
    + intros fuel'. reflexivity.
    + intros fuel'. cbn [nextToken]. unfold with_peeked. simpl.
      by rewrite Hlast.
  - intros msg ln cl E. unfold peekToken. by rewrite Hp, E.
Qed.

End PeekFacts.

(** Peeking at the start of [x = 1]. *)
Lemma peekToken_witness :
  exists tok lx1,
    nextToken (fun _ => None) 3 (Lexer_new "x = 1") = LexOk (tok, lx1)
    /\ type tok = IDENTIFIER
    /\ peekToken (fun _ => None) 3 (Lexer_new "x = 1")
       = LexOk (tok, with_peeked lx1 true tok)
    /\ nextToken (fun _ => None) 1 (with_peeked lx1 true tok)
       = LexOk (tok, with_peeked lx1 false tok).
Proof.
  eexists. eexists. split; [vm_compute; reflexivity|].
  split; [reflexivity|].
  match goal with
  | |- context [with_peeked ?l true ?t] =>
      destruct (proj1 (peekToken_does_not_consume (fun _ => None) 3
                         (Lexer_new "x = 1") eq_refl) t l)
        as (_ & _ & Hpeek & _ & Hnext)
  end.
  - vm_compute. reflexivity.
  - split; [exact Hpeek|exact (Hnext 0%nat)].
Defined.

Section NewlineFacts.

Variable stod : string -> option float.

Lemma is_type_context lx lx' t :
  same_context lx lx' -> is_type lx' t = is_type lx t.
Proof. intros (H & _). unfold is_type. by rewrite H. Qed.

Lemma not_is_type lx t :
  negb (is_type lx t) = true -> type (lastToken_ lx) <> t.
Proof.
  unfold is_type. intros H Heq. by rewrite bool_decide_eq_true_2 in H.
Qed.

Lemma keywords_not_NEWLINE ident t : keywords_ ident = Some t -> t <> NEWLINE.
Proof.
  unfold keywords_.
  repeat (destruct (String.eqb ident _); [by intros [= <-]|]). done.
Qed.

Lemma scanIdentifierOrKeyword_no_newline lx :
  emits lx (LexOk (scanIdentifierOrKeyword lx)) (fun t => t <> NEWLINE).
Proof.
  intros tok lx'. unfold scanIdentifierOrKeyword.
  pose proof (scanIdentChars_context (remaining lx) EmptyString lx) as H.
  destruct (scanIdentChars _ _ _) as [ident lx1]. simpl in H.
  intros [= <- <-]. simpl. split; [done|]. split; [apply H|].
  destruct (keywords_ ident) eqn:E; [by eapply keywords_not_NEWLINE|done].
Qed.

Lemma scanOperator_no_newline lx0 c startLine startCol lx :
  same_context lx0 lx ->
  emits lx0 (scanOperator c startLine startCol lx) (fun t => t <> NEWLINE).
Proof.
  intros Hc. unfold scanOperator.
  assert (Hadv : same_context lx0 (advance_ lx)).
  { eapply same_context_trans; [exact Hc|apply advance_context]. }
  repeat
    (match goal with
     | |- emits _ (if ?b then _ else _) _ => destruct b
     | |- emits _ (LexOk (makeToken _ _ _)) _ =>
         apply makeToken_emits; [assumption|discriminate]
     end).
  by intros tok lx'.
Qed.

(** [nextToken] returns a NEWLINE token only when the last token is neither
    a NEWLINE nor a SEMICOLON. *)
Lemma nextToken_emits_newline fuel lx :
  hasPeeked_ lx = false ->
  emits lx (nextToken stod fuel lx)
        (fun t => t = NEWLINE -> newline_may_follow (type (lastToken_ lx))).
Proof.
  revert lx. induction fuel as [|fuel IH]; intros lx Hp; [by intros ??|].
  cbn [nextToken]. rewrite Hp.
  pose proof (skipWhitespace_context lx) as Hws.
  set (lx1 := skipWhitespace lx) in *.
  assert (Hrec : forall lx2, same_context lx lx2 ->
            emits lx (nextToken stod fuel lx2)
              (fun t => t = NEWLINE ->
                        newline_may_follow (type (lastToken_ lx)))).
  { intros lx2 H2 tok lx' E.
    assert (Hp2 : hasPeeked_ lx2 = false) by (destruct H2 as (_&->&_); done).
    destruct (IH lx2 Hp2 tok lx' E) as (?&?&Hnl).
    split; [done|]. split; [congruence|].
    destruct H2 as (Hlast & _). by rewrite <- Hlast. }
  assert (Hcheck : forall lx2 (b : bool), same_context lx lx2 ->
            negb (is_type lx2 NEWLINE) && negb (is_type lx2 SEMICOLON) && b
            = true ->
            newline_may_follow (type (lastToken_ lx))).
  { intros lx2 b H2 Hb.
    apply andb_true_iff in Hb as [Hb _].
    apply andb_true_iff in Hb as [Hn Hs].
    rewrite (is_type_context _ _ NEWLINE H2) in Hn.
    rewrite (is_type_context _ _ SEMICOLON H2) in Hs.
    split; by apply not_is_type. }
  destruct (isAtEnd lx1).
  { apply makeToken_emits; [done|discriminate]. }
  destruct (Ascii.eqb (current lx1) newline).
  { assert (Hadv : same_context lx (advance_ lx1)).
    { eapply same_context_trans; [exact Hws|apply advance_context]. }
    destruct (_ && _) eqn:Hcond; [|by apply Hrec].
    apply makeToken_emits; [done|]. intros _.
    by apply (Hcheck _ _ Hadv Hcond). }
  destruct (Ascii.eqb (current lx1) "%").
  { destruct (Ascii.eqb (peek lx1 1) "{").
    - apply Hrec.
      eapply same_context_trans; [exact Hws|].
      eapply same_context_trans; [apply advance_context|].
      eapply same_context_trans; [apply advance_context|].
      apply skipBlockComment_loop_context.
    - assert (Hskip : same_context lx (skipLineComment lx1)).
      { eapply same_context_trans; [exact Hws|apply skipToEol_context]. }
      destruct (_ && _) eqn:Hcond; [|by apply Hrec].
      apply makeToken_emits; [done|]. intros _.
      apply (Hcheck _ true Hskip). by rewrite andb_true_r. }
  destruct (_ || _).
  { intros tok lx' E.
    destruct (scanNumber_emits stod lx1 tok lx' E) as (?&?&->).
    split; [done|]. split; [|done]. destruct Hws as (_&?&_). congruence. }
  destruct (Ascii.eqb (current lx1) dquote).
  { intros tok lx' E. destruct (scanString_emits _ lx1 tok lx' E) as (?&?&->).
    split; [done|]. split; [|done]. destruct Hws as (_&?&_). congruence. }
  destruct (Ascii.eqb (current lx1) quote).
  { destruct (isTransposeContext lx1).
    - apply makeToken_emits; [|discriminate].
      eapply same_context_trans; [exact Hws|apply advance_context].
    - intros tok lx' E. destruct (scanString_emits _ lx1 tok lx' E) as (?&?&->).
      split; [done|]. split; [|done]. destruct Hws as (_&?&_). congruence. }
  destruct (_ || _).
  { intros tok lx' E.
    destruct (scanIdentifierOrKeyword_no_newline lx1 tok lx' E) as (?&?&?).
    split; [done|]. split; [|done]. destruct Hws as (_&?&_). congruence. }
  intros tok lx' E.
  assert (Hadv : same_context lx1 (advance_ lx1)) by apply advance_context.
  destruct (scanOperator_no_newline lx1 _ _ _ _ Hadv tok lx' E) as (?&?&?).
  split; [done|]. split; [|done]. destruct Hws as (_&?&_). congruence.
Qed.

Lemma tokenize_loop_newlines fuel acc lx toks :
  hasPeeked_ lx = false ->
  tokenize_loop stod fuel acc lx = LexOk toks ->
  exists rest, toks = acc ++ rest
    /\ newlines_follow (type (lastToken_ lx)) rest
    /\ exists pre eof, rest = pre ++ [eof] /\ type eof = EOF_TOKEN
         /\ forall t, t ∈ pre -> type t <> EOF_TOKEN.
Proof.
  revert acc lx. induction fuel as [|fuel IH]; intros acc lx Hp; [done|].
  cbn [tokenize_loop].
  destruct (nextToken stod _ lx) as [[tok lx']| | |] eqn:E; try done.
  destruct (nextToken_emits_newline _ lx Hp tok lx' E) as (Hlast & Hp' & Hnl).
  rewrite Hp in Hp'.
  destruct (bool_decide (type tok = EOF_TOKEN)) eqn:Heof.
  - intros [= <-]. exists [tok]. split; [done|]. split; [by split|].
    exists [], tok. split; [done|].
    split; [by apply bool_decide_eq_true in Heof|].
    intros t Ht. by apply elem_of_nil in Ht.
  - intros H. apply IH in H; [|done].
    destruct H as (rest & -> & Hf & pre & eof & -> & Heof' & Hpre).
    exists (tok :: pre ++ [eof]). split; [by rewrite <- app_assoc|].
    split; [simpl; split; [done|by rewrite <- Hlast]|].
    exists (tok :: pre), eof. split; [done|]. split; [done|].
    intros t [->|Ht]%elem_of_cons; [|by apply Hpre].
    by apply bool_decide_eq_false in Heof.
Qed.

Lemma newlines_follow_lookup prev toks i tok :
  newlines_follow prev toks ->
  toks !! i = Some tok -> type tok = NEWLINE ->
  (i = 0%nat /\ newline_may_follow prev)
  \/ exists p, (0 < i)%nat /\ toks !! (i - 1)%nat = Some p
               /\ newline_may_follow (type p).
Proof.
  revert prev i. induction toks as [|t rest IH]; intros prev i Hf Hi Ht; [done|].
  destruct Hf as [Hhd Htl]. destruct i as [|i]; simpl in Hi.
  - injection Hi as ->. left. by split; [|apply Hhd].
  - right. destruct (IH _ _ Htl Hi Ht) as [[-> Hin]|(p & Hlt & Hp & Hin)].
    + exists t. split; [lia|]. by split.
    + exists p. split; [lia|]. split; [|done].
      replace (S i - 1)%nat with (S (i - 1)) by lia. done.
Qed.

End NewlineFacts.

(** X17. In every tokenization the last token is the EOF token and no other
    token is one; a NEWLINE token is never the first token and always
    directly follows a token that is neither a NEWLINE nor a SEMICOLON, so
    runs of line ends, and line ends after a semicolon, give no token. *)
Theorem tokenize_ends_with_EOF_and_collapses_newlines
  (stod : string -> option float) (source : string) (toks : list Token) :
  tokenize stod (Lexer_new source) = LexOk toks ->
  (exists pre eof, toks = pre ++ [eof] /\ type eof = EOF_TOKEN
     /\ forall t, t ∈ pre -> type t <> EOF_TOKEN)
  /\ (forall i tok, toks !! i = Some tok -> type tok = NEWLINE ->
        exists prev, (0 < i)%nat /\ toks !! (i - 1)%nat = Some prev
                     /\ type prev <> NEWLINE /\ type prev <> SEMICOLON).
Proof.
  intros E. apply tokenize_loop_newlines in E; [|done].
  destruct E as (rest & -> & Hf & Hlast). simpl. split; [done|].
  intros i tok Hi Ht.
  destruct (newlines_follow_lookup _ _ _ _ Hf Hi Ht)
    as [[_ [Hnl _]]|(p & ? & ? & [? ?])]; [done|by exists p].
Qed.

(** [a;] then two line ends then [b]: no NEWLINE token at all. *)
Lemma tokenize_witness_blank_lines :
  exists toks,
    tokenize (fun _ => None)
      (Lexer_new (String "a" (String ";" (String newline (String newline
                    (String "b" EmptyString)))))) = LexOk toks
    /\ map type toks = [IDENTIFIER; SEMICOLON; IDENTIFIER; EOF_TOKEN]
    /\ exists pre eof, toks = pre ++ [eof] /\ type eof = EOF_TOKEN
         /\ forall t, t ∈ pre -> type t <> EOF_TOKEN.
Proof.
  eexists. split; [vm_compute; reflexivity|]. split; [reflexivity|].
  refine (proj1 (tokenize_ends_with_EOF_and_collapses_newlines
                   (fun _ => None)
                   (String "a" (String ";" (String newline (String newline
                      (String "b" EmptyString))))) _ _)).
  vm_compute. reflexivity.
Defined.

Section BlockCommentFacts.

Variable stod : string -> option float.

Lemma char_at_in lx i :
  0 <= i -> char_at lx i = Ascii.zero \/ char_at lx i ∈ source_ lx.
Proof.
  intros Hi. unfold char_at, size.
  destruct (Z.leb_spec (Z.of_nat (length (source_ lx))) i); [by left|].
  right. apply list_elem_of_In, nth_In. lia.
Qed.

Lemma advance_pos_nonneg lx : 0 <= pos_ lx -> 0 <= pos_ (advance_ lx).
Proof. rewrite advance_pos. lia. Qed.

(** With no closing brace in the input a block comment is never closed: the
    loop of [skipBlockComment] runs to the end of the input. *)
Lemma skipBlockComment_loop_unclosed fuel depth lx :
  1 <= depth -> 0 <= pos_ lx -> "}"%char ∉ source_ lx ->
  (remaining lx <= fuel)%nat ->
  isAtEnd (skipBlockComment_loop fuel depth lx) = true.
Proof.
  revert depth lx. induction fuel as [|fuel IH]; intros depth lx Hd Hpos Hno Hf.
  - simpl. unfold isAtEnd, remaining in *. apply Z.leb_le. lia.
  - cbn [skipBlockComment_loop].
    destruct (isAtEnd lx) eqn:He; [done|].
    replace (0 <? depth) with true by (symmetry; apply Z.ltb_lt; lia).
    cbn [negb andb].
    pose proof (remaining_advance lx He) as Hlt.
    pose proof (remaining_advance_le (advance_ lx)) as Hle.
    destruct (Ascii.eqb (current lx) "%" && Ascii.eqb (peek lx 1) "{").
    { apply IH; [lia| |by rewrite !advance_source|lia].
      by apply advance_pos_nonneg, advance_pos_nonneg. }
    destruct (Ascii.eqb (current lx) "%" && Ascii.eqb (peek lx 1) "}") eqn:Hc.
    { exfalso. apply andb_true_iff in Hc as [_ Hc].
      apply Ascii.eqb_eq in Hc.
      destruct (char_at_in lx (pos_ lx + 1)) as [Hz|Hin]; [lia| |].
      - unfold peek in Hc. by rewrite Hz in Hc.
      - unfold peek in Hc. rewrite Hc in Hin. by apply Hno. }
    apply IH; [done|by apply advance_pos_nonneg|by rewrite advance_source|lia].
Qed.

Lemma skipWhitespace_at_percent lx :
  isAtEnd lx = false -> current lx = "%"%char -> skipWhitespace lx = lx.
Proof.
  intros H Hc. unfold skipWhitespace.
  destruct (remaining_pos lx H) as [n ->]. cbn [skipWhitespace_loop].
  by rewrite H, Hc.
Qed.

Lemma peek_Lexer_new_second c1 c2 s :
  peek (Lexer_new (String c1 (String c2 s))) 1 = c2.
Proof.
  unfold peek, char_at, size, Lexer_new.
  cbn [source_ pos_ list_ascii_of_string length].
  destruct (Z.leb_spec (Z.of_nat (S (S (length (list_ascii_of_string s)))))
              (0 + 1)); [lia|done].
Qed.

(** X18. A block comment that is opened at the start of the input and never
    closed is no error: when the text after [%{] holds no closing brace,
    the lexer skips all of it and the tokenization is the EOF token
    alone. *)
Theorem unclosed_block_comment_swallows_the_input (text : string) :
  "}"%char ∉ list_ascii_of_string text ->
  token_kinds (tokenize stod (Lexer_new (String "%" (String "{" text))))
  = LexOk [(EOF_TOKEN, EmptyString)].
Proof.
  intros Hno.
  set (lx0 := Lexer_new (String "%" (String "{" text))).
  pose proof (isAtEnd_Lexer_new_cons "%" (String "{" text)) as He0.
  pose proof (current_Lexer_new_cons "%" (String "{" text)) as Hc0.
  pose proof (peek_Lexer_new_second "%" "{" text) as Hp0.
  fold lx0 in He0, Hc0, Hp0.
  assert (Hws : skipWhitespace lx0 = lx0)
    by (by apply skipWhitespace_at_percent).
  set (lx2 := advance_ (advance_ lx0)).
  assert (Hctx : same_context lx0 (skipBlockComment lx2)).
  { eapply same_context_trans; [apply advance_context|].
    eapply same_context_trans; [apply advance_context|].
    apply skipBlockComment_loop_context. }
  assert (Hend : isAtEnd (skipBlockComment lx2) = true).
  { apply skipBlockComment_loop_unclosed; [lia| | |lia].
    - unfold lx2. rewrite !advance_pos. simpl. lia.
    - unfold lx2. rewrite !advance_source. simpl.
      intros [[=]|[[=]|H]%elem_of_cons]%elem_of_cons. by apply Hno. }
  assert (Hnext : forall fuel,
            nextToken stod (S (S fuel)) lx0
            = LexOk (makeToken (skipBlockComment lx2) EOF_TOKEN "")).
  { intros fuel. cbn [nextToken].
    change (hasPeeked_ lx0) with false. cbv iota.
    rewrite Hws, He0, Hc0, Hp0.
    change (Ascii.eqb "%" newline) with false.
    change (Ascii.eqb "%" "%") with true.
    change (Ascii.eqb "{" "{") with true. cbv iota.
    fold lx2.
    destruct Hctx as (_ & Hpk & _).
    rewrite Hpk. change (hasPeeked_ lx0) with false. cbv iota.
    by rewrite (skipWhitespace_at_end _ Hend), Hend. }
  unfold tokenize. cbn [tokenize_loop]. rewrite Hnext. reflexivity.
Qed.

End BlockCommentFacts.

Lemma unclosed_block_comment_witness :
  token_kinds (tokenize (fun _ => None)
                 (Lexer_new (String "%" (String "{" " x = 1; % y"))))
  = LexOk [(EOF_TOKEN, EmptyString)].
Proof.
  apply (unclosed_block_comment_swallows_the_input (fun _ => None)
           " x = 1; % y").
  intros H. simpl in H.
  repeat (apply elem_of_cons in H as [H|H]; [discriminate H|]).
  by apply elem_of_nil in H.
Defined.
